(** * bitcesque: an append-only key/value log with an in-memory index

    A shallow embedding of the Go package [bitcesque] (bitshift.go,
    document.go, data.go, keyfile.go) and the properties of its record
    codec, its index, consolidation and the two reopen paths. *)

From Stdlib Require Import ZArith Lia List Strings.Byte Strings.String.
From stdpp Require Import gmap strings list fin_maps.

Local Open Scope Z_scope.

(** ** Machine integers and bytes *)

Module Word.

(** [uint32(x)] and [uint64(x)]: conversion keeps the low bits. *)
Definition u32 (z : Z) : Z := z mod 2 ^ 32.
Definition u64 (z : Z) : Z := z mod 2 ^ 64.

(** The numeric value of a byte, and Go's [byte(x)] conversion. *)
Definition b2z (b : byte) : Z := Z.of_N (Byte.to_N b).
Definition z2b (z : Z) : byte :=
  default x00 (Byte.of_N (Z.to_N (z mod 256))).

(** [^x] on a [uint32]. *)
Definition not32 (z : Z) : Z := Z.lxor z 0xFFFFFFFF.

End Word.
Import Word.

Abbreviation bytes := (list byte).

(** [len(x)] of a byte slice or a string, as Go's [int]. *)
Definition blen (l : bytes) : Z := Z.of_nat (List.length l).
Definition slen (s : string) : Z := Z.of_nat (String.length s).

(** ** Outcomes

    A call either returns, returns an [error] value, or brings the process
    down: a run-time panic (index or slice bound out of range) or the
    SIGBUS the kernel raises for a mapped page that lies wholly past the
    end of the file. *)

Inductive error :=
  | EINVAL
  | Corruption (pos : Z).

Inductive fault := Panic | SigBus.

Inductive res (A : Type) :=
  | Ok (a : A)
  | Err (e : error)
  | Crash (f : fault).
Arguments Ok {A} a.
Arguments Err {A} e.
Arguments Crash {A} f.

#[global] Instance res_ret : MRet res := fun _ a => Ok a.
#[global] Instance res_bind : MBind res := fun _ _ f m =>
  match m with
  | Ok a => f a
  | Err e => Err e
  | Crash c => Crash c
  end.

(** ** Byte slices

    A [[]byte] that the code only reads is modelled by its length and its
    indexing function, so that the same reader code runs over a slice held
    in memory and over the memory map of the data file. *)

Record slice := Slice { rd : Z -> res byte; len : Z }.

(** A slice held in memory: indexing outside [0, len) panics. *)
Definition ofBytes (l : bytes) : slice :=
  {| rd := fun i =>
       if decide (0 <= i < blen l)
       then Ok (nth (Z.to_nat i) l x00) else Crash Panic;
     len := blen l |}.

(** [s[lo:hi]] where [cap(s) = len(s)], which holds at every slice
    expression of the package. *)
Definition subslice (s : slice) (lo hi : Z) : res slice :=
  if decide (0 <= lo /\ lo <= hi /\ hi <= len s)
  then Ok {| rd := fun i =>
               if decide (0 <= i < hi - lo) then rd s (lo + i)
               else Crash Panic;
             len := hi - lo |}
  else Crash Panic.

(** [s[lo:]] *)
Definition slice_from (s : slice) (lo : Z) : res slice :=
  subslice s lo (len s).

(** Reading every byte of a slice in order, as [string(s)], [append] and
    [crc32.Checksum] do. *)
Fixpoint readFrom (rd : Z -> res byte) (i : Z) (n : nat) : res bytes :=
  match n with
  | O => Ok []
  | S n' => b ← rd i; bs ← readFrom rd (i + 1) n'; Ok (b :: bs)
  end.

Definition readAll (s : slice) : res bytes :=
  readFrom (rd s) 0 (Z.to_nat (len s)).

(** ** bitshift.go *)

(** [targ[idx] = b] on a slice held in memory. *)
Definition store (targ : bytes) (idx : Z) (b : byte) : res bytes :=
  if decide (0 <= idx < blen targ)
  then Ok (<[Z.to_nat idx := b]> targ) else Crash Panic.

Definition uint32ToBytes (targ : bytes) (idx : Z) (val : Z) : res bytes :=
  t ← store targ idx (z2b (Z.land val 0xff));
  t ← store t (u64 (idx + 1)) (z2b (Z.land (Z.shiftr val 8) 0xff));
  t ← store t (u64 (idx + 2)) (z2b (Z.land (Z.shiftr val 16) 0xff));
  store t (u64 (idx + 3)) (z2b (Z.land (Z.shiftr val 24) 0xff)).

Definition uint32FromBytes (targ : slice) (idx : Z) : res Z :=
  b0 ← rd targ idx;
  b1 ← rd targ (u64 (idx + 1));
  b2 ← rd targ (u64 (idx + 2));
  b3 ← rd targ (u64 (idx + 3));
  Ok (Z.lor (Z.lor (Z.lor (b2z b0)
                          (u32 (Z.shiftl (b2z b1) 8)))
                   (u32 (Z.shiftl (b2z b2) 16)))
            (u32 (Z.shiftl (b2z b3) 24))).

Definition uint64ToBytes (targ : bytes) (idx : Z) (val : Z) : res bytes :=
  t ← store targ idx (z2b (Z.land val 0xff));
  t ← store t (u64 (idx + 1)) (z2b (Z.land (Z.shiftr val 8) 0xff));
  t ← store t (u64 (idx + 2)) (z2b (Z.land (Z.shiftr val 16) 0xff));
  t ← store t (u64 (idx + 3)) (z2b (Z.land (Z.shiftr val 24) 0xff));
  t ← store t (u64 (idx + 4)) (z2b (Z.land (Z.shiftr val 32) 0xff));
  t ← store t (u64 (idx + 5)) (z2b (Z.land (Z.shiftr val 40) 0xff));
  t ← store t (u64 (idx + 6)) (z2b (Z.land (Z.shiftr val 48) 0xff));
  store t (u64 (idx + 7)) (z2b (Z.land (Z.shiftr val 56) 0xff)).

Definition uint64FromBytes (targ : slice) (idx : Z) : res Z :=
  b0 ← rd targ idx;
  b1 ← rd targ (u64 (idx + 1));
  b2 ← rd targ (u64 (idx + 2));
  b3 ← rd targ (u64 (idx + 3));
  let out := Z.lor (Z.lor (Z.lor (b2z b0)
                                 (u64 (Z.shiftl (b2z b1) 8)))
                          (u64 (Z.shiftl (b2z b2) 16)))
                   (u64 (Z.shiftl (b2z b3) 24)) in
  b4 ← rd targ (u64 (idx + 4));
  b5 ← rd targ (u64 (idx + 5));
  b6 ← rd targ (u64 (idx + 6));
  b7 ← rd targ (u64 (idx + 7));
  Ok (Z.lor out
        (Z.lor (Z.lor (Z.lor (u64 (Z.shiftl (b2z b4) 32))
                             (u64 (Z.shiftl (b2z b5) 40)))
                      (u64 (Z.shiftl (b2z b6) 48)))
               (u64 (Z.shiftl (b2z b7) 56)))).

(** ** hash/crc32 with the Castagnoli polynomial

    [crc32.MakeTable(crc32.Castagnoli)] and [crc32.Checksum] of Go's
    standard library, in their portable table-driven form. *)

Module CRC32.

Definition Castagnoli : Z := 0x82f63b78.

Definition shift1 (poly crc : Z) : Z :=
  if Z.testbit crc 0 then Z.lxor (Z.shiftr crc 1) poly
  else Z.shiftr crc 1.

(** One entry of the 256-entry table: eight shift steps from [i]. *)
Definition tableEntry (poly i : Z) : Z :=
  Nat.iter 8 (shift1 poly) i.

Definition MakeTable (poly : Z) : list Z :=
  map (fun i => tableEntry poly (Z.of_nat i)) (seq 0 256).

Definition update1 (tab : list Z) (crc : Z) (v : byte) : Z :=
  Z.lxor (nth (Z.to_nat (Z.lxor (Z.land crc 0xff) (b2z v))) tab 0)
         (Z.shiftr crc 8).

Definition Update (crc : Z) (tab : list Z) (p : bytes) : Z :=
  not32 (fold_left (update1 tab) p (not32 crc)).

Definition Checksum (data : bytes) (tab : list Z) : Z :=
  Update 0 tab data.

End CRC32.

(** ** document.go *)

Definition crcTable : list Z :=
  Eval vm_compute in CRC32.MakeTable CRC32.Castagnoli.

(** This points into the document, directly at the value field. *)
Record offsetAndLength := OAL { offset : Z; length : Z }.

#[global] Instance offsetAndLength_eq_dec : EqDecision offsetAndLength.
Proof. solve_decision. Defined.

(** Generates the byte representation of the document, including the
    header.  Empty [v] interpreted as tombstone. *)
Definition newDocument (k v : bytes) : res bytes :=
  let out := replicate 12 x00 in
  out ← uint32ToBytes out 4 (u32 (blen k));
  out ← uint32ToBytes out 8 (u32 (blen v));
  let out := out ++ k in
  let out := out ++ v in
  body ← (s ← slice_from (ofBytes out) 4; readAll s);
  let hash := CRC32.Checksum body crcTable in
  uint32ToBytes out 0 hash.

(** The value offset-and-length of the document, were it inserted at
    [pos]. *)
Definition getOAL (pos : Z) (k v : bytes) : offsetAndLength :=
  OAL (u64 (pos + 12 + u64 (blen k))) (u32 (blen v)).

(** Takes a slice pointing at the entire document, including checksum,
    and verifies the checksum matches the contents. *)
Definition checkDocument (b : slice) : res bool :=
  checksum ← uint32FromBytes b 0;
  body ← (s ← slice_from b 4; readAll s);
  Ok (bool_decide (checksum = CRC32.Checksum body crcTable)).

Definition str (s : string) : bytes := list_byte_of_string s.

(** ** data.go: the memory map and the handle *)

(** [int(x)] and arithmetic on Go's 64-bit [int]. *)
Definition i64 (z : Z) : Z := (z + 2 ^ 63) mod 2 ^ 64 - 2 ^ 63.

(** The page granularity of the memory map. *)
Definition pageSize : Z := 4096.

(** The end of the last page that holds bytes of a file of [fLen] bytes. *)
Definition mappedEnd (fLen : Z) : Z :=
  (fLen + pageSize - 1) / pageSize * pageSize.

(** The slice [syscall.Mmap(fd, 0, mmapLen, PROT_READ, MAP_SHARED)]
    returns: [mmapLen] bytes over the file.  An index outside the slice
    panics; inside it, the bytes of the file are followed by zeroes up to
    the end of the file's last page, and a read past that page raises
    SIGBUS.  The map is shared, so it shows the file as it is now. *)
Definition mmapOf (file : bytes) (mmapLen : Z) : slice :=
  {| rd := fun i =>
       if decide (0 <= i < mmapLen) then
         if decide (i < blen file) then Ok (nth (Z.to_nat i) file x00)
         else if decide (i < mappedEnd (blen file)) then Ok x00
         else Crash SigBus
       else Crash Panic;
     len := mmapLen |}.

(** [syscall.Mmap] refuses a length that is not positive, and
    [syscall.Munmap] a slice that is empty. *)
Definition Mmap (length : Z) : res Z :=
  if decide (length <= 0) then Err EINVAL else Ok length.

Definition Munmap (length : Z) : res unit :=
  if decide (length <= 0) then Err EINVAL else Ok ().

(** Represents a collection of key / value pairs of arbitrary bytes.
    [filehandle] stands for the open data file and holds its contents;
    [filebuffer] is the length of the memory map over that file. *)
Record DB := mkDB {
  kToPos : gmap string offsetAndLength;
  location : string;
  filledSize : Z;
  filehandle : bytes;
  filebuffer : Z
}.

(** The mapped buffer of a handle, used only for reads. *)
Definition filebuf (d : DB) : slice := mmapOf (filehandle d) (filebuffer d).

(** Map at least 4gb to avoid constantly remapping. *)
Definition makeFilebuf (f : bytes) : res Z :=
  let fLen := blen f in
  let mmapLen := i64 fLen in
  let mmapLen :=
    if decide (mmapLen < 4000000000) then 4000000000
    else i64 (mmapLen * 2) in
  Mmap mmapLen.

(** The directory: the contents of the files that exist, by path.  The
    package opens every file with [O_CREATE], so a missing file reads as
    an empty one. *)
Abbreviation FS := (gmap string bytes).

Definition readFile (fs : FS) (path : string) : bytes :=
  default [] (fs !! path).

(** Creates a new DB at the given location, deleting the data there. *)
Definition NewDB (location : string) : res DB :=
  mmap ← makeFilebuf [];
  Ok (mkDB ∅ location 0 [] mmap).

(** The outcome of [filehandle.Write(doc)]: everything was appended, or
    the call failed after appending the first [n] bytes.  The callers
    drop the returned count and error. *)
Inductive writeOutcome :=
  | Written
  | Failed (n : nat).

Definition fileWrite (w : writeOutcome) (file doc : bytes) : bytes :=
  match w with
  | Written => file ++ doc
  | Failed n => file ++ take n doc
  end.

(** ** document.go: the operations of a handle *)

(** Returns the value in the DB at the given offset and length. *)
Definition getValAtOAL (d : DB) (oal : offsetAndLength) : res slice :=
  subslice (filebuf d) (offset oal) (u64 (offset oal + u64 (length oal))).

(** Removes the given key from the DB, recording it as deleted. *)
Definition Remove (w : writeOutcome) (k : bytes) (d : DB) : res DB :=
  doc ← newDocument k [];
  let m := delete (string_of_list_byte k) (kToPos d) in
  let file := fileWrite w (filehandle d) doc in
  Ok (mkDB m (location d) (filledSize d) file (filebuffer d)).

(** Inserts or updates the given key with the given value. *)
Definition Upsert (w : writeOutcome) (k v : bytes) (d : DB) : res DB :=
  doc ← newDocument k v;
  let m := <[string_of_list_byte k := getOAL (filledSize d) k v]> (kToPos d) in
  let file := fileWrite w (filehandle d) doc in
  let filled := u64 (filledSize d + u64 (blen doc)) in
  let buf :=
    if decide (filled > u64 (filebuffer d)) then
      let newLen := i64 (filebuffer d * 2) in
      match Mmap newLen with Ok mmap => mmap | _ => 0 end
    else filebuffer d in
  Ok (mkDB m (location d) filled file buf).

(** Returns the value associated with the given key, and whether it is
    present. *)
Definition Get (k : bytes) (d : DB) : res (string * bool) :=
  match kToPos d !! string_of_list_byte k with
  | None => Ok (EmptyString, false)
  | Some oal =>
      out ← getValAtOAL d oal;
      bs ← readAll out;
      Ok (string_of_list_byte bs, true)
  end.

(** Returns whether the given key exists in the DB. *)
Definition Contains (k : bytes) (d : DB) : bool :=
  bool_decide (is_Some (kToPos d !! string_of_list_byte k)).

(** Returns the number of records contained in the given DB. *)
Definition Size (d : DB) : Z := Z.of_nat (size (kToPos d)).

(** One turn of the loop of [Consolidate]: the new index, the write
    position and the contents of the temporary file so far. *)
Definition consolidateStep (d : DB)
    (st : gmap string offsetAndLength * Z * bytes)
    (e : string * offsetAndLength)
  : res (gmap string offsetAndLength * Z * bytes) :=
  let '(mNew, pos, tmp) := st in
  let '(k, oal) := e in
  v ← (s ← getValAtOAL d oal; readAll s);
  doc ← newDocument (list_byte_of_string k) v;
  let newOAL := getOAL pos (list_byte_of_string k) v in
  Ok (<[k := newOAL]> mNew, u64 (pos + u64 (blen doc)), tmp ++ doc).

Fixpoint consolidateLoop (d : DB) (ord : list (string * offsetAndLength))
    (st : gmap string offsetAndLength * Z * bytes)
  : res (gmap string offsetAndLength * Z * bytes) :=
  match ord with
  | [] => Ok st
  | e :: ord' => st' ← consolidateStep d st e; consolidateLoop d ord' st'
  end.

(** Rewrites backing file to contain only valid entries.  [ord] is the
    order in which [range d.kToPos] yields the entries of the index.  The
    calls on the files themselves (creating, writing, closing and renaming
    the temporary file, reopening the location) are taken to succeed. *)
Definition Consolidate (ord : list (string * offsetAndLength)) (d : DB)
  : res DB :=
  '(mNew, pos, tmp) ← consolidateLoop d ord (∅, 0, []);
  _ ← Munmap (filebuffer d);
  buf ← makeFilebuf tmp;
  Ok (mkDB mNew (location d) pos tmp buf).

(** The orders in which a [range] over the index may run: every entry
    once, in any order. *)
Definition iteration (d : DB) (ord : list (string * offsetAndLength)) : Prop :=
  ord ≡ₚ map_to_list (kToPos d).

(** ** data.go: enumeration

    Each of these runs a [range] over the index; [ord] is the order in
    which it yields the entries. *)

(** Returns the location of the file backing the given DB. *)
Definition GetLocation (d : DB) : string := location d.

(** Returns a slice containing all current keys. *)
Definition Keys (ord : list (string * offsetAndLength)) : list string :=
  foldl (fun out e => out ++ [e.1]) [] ord.

(** Returns a slice containing all current vals. *)
Fixpoint valsLoop (d : DB) (ord : list (string * offsetAndLength))
    (out : list string) : res (list string) :=
  match ord with
  | [] => Ok out
  | (_, oal) :: ord' =>
      s ← getValAtOAL d oal;
      bs ← readAll s;
      valsLoop d ord' (out ++ [string_of_list_byte bs])
  end.

Definition Vals (ord : list (string * offsetAndLength)) (d : DB)
  : res (list string) :=
  valsLoop d ord [].

(** Returns the implicit string -> string map as a Go map. *)
Fixpoint dumpLoop (d : DB) (ord : list (string * offsetAndLength))
    (out : gmap string string) : res (gmap string string) :=
  match ord with
  | [] => Ok out
  | (k, oal) :: ord' =>
      s ← getValAtOAL d oal;
      bs ← readAll s;
      dumpLoop d ord' (<[k := string_of_list_byte bs]> out)
  end.

Definition Dump (ord : list (string * offsetAndLength)) (d : DB)
  : res (gmap string string) :=
  dumpLoop d ord ∅.

(** Returns a slice containing all current key / val pairs.  The slice
    is made with [len(d.kToPos)] elements, and the pairs are appended to
    it. *)
Fixpoint keysAndValsLoop (d : DB) (ord : list (string * offsetAndLength))
    (out : list (string * string)) : res (list (string * string)) :=
  match ord with
  | [] => Ok out
  | (k, oal) :: ord' =>
      s ← getValAtOAL d oal;
      bs ← readAll s;
      keysAndValsLoop d ord' (out ++ [(k, string_of_list_byte bs)])
  end.

Definition KeysAndVals (ord : list (string * offsetAndLength)) (d : DB)
  : res (list (string * string)) :=
  keysAndValsLoop d ord
    (replicate (size (kToPos d)) (EmptyString, EmptyString)).

(** ** keyfile.go *)

Definition keysPath (location : string) : string :=
  (location ++ ".keys")%string.

(** The bytes [dumpKeys] writes for one entry of the index. *)
Definition keyEntry (k : string) (v : offsetAndLength) : res bytes :=
  let buf := replicate 16 x00 in
  buf ← uint32ToBytes buf 0 (u32 (slen k));
  buf ← uint32ToBytes buf 4 (length v);
  buf ← uint64ToBytes buf 8 (offset v);
  Ok (buf ++ list_byte_of_string k).

(** Dumps current map from db to [d.location + ".keys"].  The file is
    opened with [O_RDWR|O_CREATE|O_APPEND]: [keys] is what it holds
    already, and each entry is appended to it, in the order [ord] of the
    [range] over the index. *)
Fixpoint dumpKeys (ord : list (string * offsetAndLength)) (keys : bytes)
  : res bytes :=
  match ord with
  | [] => Ok keys
  | (k, v) :: ord' => buf ← keyEntry k v; dumpKeys ord' (keys ++ buf)
  end.

(** One turn of the loop of [populateKeys]. *)
Definition populateStep (mmap : slice) (m : gmap string offsetAndLength)
    (pos : Z) : res (gmap string offsetAndLength * Z) :=
  kLen ← uint32FromBytes mmap pos;
  vLen ← uint32FromBytes mmap (u64 (pos + 4));
  vPos ← uint64FromBytes mmap (u64 (pos + 8));
  k ← subslice mmap (u64 (pos + 16)) (u64 (pos + 16 + u64 kLen));
  let pos' := u64 (pos + 16 + u64 kLen) in
  ks ← readAll k;
  Ok (<[string_of_list_byte ks := OAL vPos vLen]> m, pos').

(** The loop [for pos < uint64(len(mmap))], run for at most [fuel] turns;
    [None] when the turns run out. *)
Fixpoint populateLoop (fuel : nat) (mmap : slice)
    (m : gmap string offsetAndLength) (pos : Z)
  : option (res (gmap string offsetAndLength)) :=
  if decide (pos < u64 (len mmap)) then
    match fuel with
    | O => None
    | S fuel' =>
        match populateStep mmap m pos with
        | Ok (m', pos') => populateLoop fuel' mmap m' pos'
        | Err e => Some (Err e)
        | Crash c => Some (Crash c)
        end
    end
  else Some (Ok m).

(** Populates the keys of a partially initialized DB based on the keyfile
    in the appropriate location: the index read from the bytes [keys] of
    that file.  The map over the key file has exactly the file's length. *)
Definition populateKeys (keys : bytes)
  : option (res (gmap string offsetAndLength)) :=
  match Mmap (i64 (blen keys)) with
  | Ok mmapLen =>
      populateLoop (S (List.length keys)) (mmapOf keys mmapLen) ∅ 0
  | Err e => Some (Err e)
  | Crash c => Some (Crash c)
  end.

(** ** data.go: opening and closing *)

(** Opens a pre-existing database, loading its keystore.  Assumes
    validity. *)
Definition OpenDB (location : string) (fs : FS) : option (res DB) :=
  let data := readFile fs location in
  let pos := u64 (blen data) in
  match makeFilebuf data with
  | Ok mmap =>
      match populateKeys (readFile fs (keysPath location)) with
      | Some (Ok m) => Some (Ok (mkDB m location pos data mmap))
      | Some (Err e) => Some (Err e)
      | Some (Crash c) => Some (Crash c)
      | None => None
      end
  | Err e => Some (Err e)
  | Crash c => Some (Crash c)
  end.

(** One turn of the scan of [OpenAndVerifyDB] at [pos]: [None] when the
    record does not verify, otherwise the updated index and the position
    of the next record. *)
Definition verifyStep (mmap : slice) (m : gmap string offsetAndLength)
    (pos : Z) : res (option (gmap string offsetAndLength * Z)) :=
  kLen ← uint32FromBytes mmap (u64 (pos + 4));
  vLen ← uint32FromBytes mmap (u64 (pos + 8));
  k ← subslice mmap (u64 (pos + 12)) (u64 (pos + 12 + u64 kLen));
  doc ← subslice mmap pos (u64 (pos + 12 + u64 kLen + u64 vLen));
  ok ← checkDocument doc;
  if ok : bool then
    ks ← readAll k;
    let m' :=
      if decide (vLen > 0)
      then <[string_of_list_byte ks := OAL (u64 (pos + 12 + u64 kLen)) vLen]> m
      else delete (string_of_list_byte ks) m in
    Ok (Some (m', u64 (pos + u64 (12 + u64 kLen + u64 vLen))))
  else Ok None.

(** The loop [for pos < uint64(fLen)], run for at most [fuel] turns
    ([None] when the turns run out).  It returns the index, the position
    it stopped at and the corruption report, if any. *)
Fixpoint verifyLoop (fuel : nat) (mmap : slice) (fLen : Z)
    (m : gmap string offsetAndLength) (pos : Z)
  : option (res (gmap string offsetAndLength * Z * option error)) :=
  if decide (pos < fLen) then
    match fuel with
    | O => None
    | S fuel' =>
        match verifyStep mmap m pos with
        | Ok (Some (m', pos')) => verifyLoop fuel' mmap fLen m' pos'
        | Ok None => Some (Ok (m, pos, Some (Corruption pos)))
        | Err e => Some (Err e)
        | Crash c => Some (Crash c)
        end
    end
  else Some (Ok (m, pos, None)).

(** Loads the pre-existing db at the given location, verifying its
    records and re-deriving the keyfile.  If invalid records are
    encountered, loading is stopped and the db is returned with records
    up to that point, along with an error. *)
Definition OpenAndVerifyDB (location : string) (fs : FS)
  : option (res (DB * option error)) :=
  let data := readFile fs location in
  let fLen := u64 (blen data) in
  match makeFilebuf data with
  | Ok mmap =>
      match verifyLoop (S (List.length data)) (mmapOf data mmap) fLen ∅ 0 with
      | Some (Ok (m, pos, e)) => Some (Ok (mkDB m location pos data mmap, e))
      | Some (Err e) => Some (Err e)
      | Some (Crash c) => Some (Crash c)
      | None => None
      end
  | Err e => Some (Err e)
  | Crash c => Some (Crash c)
  end.

(** Close the DB after flushing to disk.  The result is the directory
    afterwards (the key file has grown by the dump of the index, the data
    file is left with what was appended to it through the handle) and the
    error [Close] returns, if any: the one of [Munmap], the one of
    [dumpKeys] being overwritten. *)
Definition Close (ord : list (string * offsetAndLength)) (d : DB) (fs : FS)
  : res (FS * option error) :=
  keys ← dumpKeys ord (readFile fs (keysPath (location d)));
  let fs' :=
    <[keysPath (location d) := keys]> (<[location d := filehandle d]> fs) in
  match Munmap (filebuffer d) with
  | Err e => Ok (fs', Some e)
  | _ => Ok (fs', None)
  end.

(** ** The little-endian layout, in the words of the format description *)

(** The four bytes of an unsigned 32-bit little-endian field. *)
Definition le32 (z : Z) : bytes :=
  [z2b z; z2b (Z.shiftr z 8); z2b (Z.shiftr z 16); z2b (Z.shiftr z 24)].

(** The eight bytes of an unsigned 64-bit little-endian field. *)
Definition le64 (z : Z) : bytes :=
  le32 z ++ le32 (Z.shiftr z 32).

(** The number a little-endian byte string denotes. *)
Fixpoint le_value (l : bytes) : Z :=
  match l with
  | [] => 0
  | b :: l' => b2z b + 256 * le_value l'
  end.

(** ** Reading a region of a slice *)

(** [region s lo l]: the bytes of [s] from index [lo] on are those of [l],
    and reading them neither panics nor faults. *)
Definition region (s : slice) (lo : Z) (l : bytes) : Prop :=
  0 <= lo /\ lo + blen l <= len s /\
  forall i : nat, (i < List.length l)%nat ->
    rd s (lo + Z.of_nat i) = Ok (nth i l x00).

(** ** The record codec *)

(** The record frame as the format describes it: the length fields, the
    key and the value, preceded by the CRC-32C of all of them. *)
Definition frame_body (k v : bytes) : bytes :=
  le32 (u32 (blen k)) ++ le32 (u32 (blen v)) ++ k ++ v.

Definition frame (k v : bytes) : bytes :=
  le32 (CRC32.Checksum (frame_body k v) crcTable) ++ frame_body k v.

(** ** Notions used to state the properties *)

(** The fields of a value pointer lie in their types: [offset] is a
    [uint64] and [length] a [uint32]. *)
Definition oal_ok (oal : offsetAndLength) : Prop :=
  0 <= offset oal < 2 ^ 64 /\ 0 <= length oal < 2 ^ 32.

(** The bytes a value pointer denotes: what [string(d.getValAtOAL(oal))]
    copies out of the memory map. *)
Definition readOAL (d : DB) (oal : offsetAndLength) : res bytes :=
  s ← getValAtOAL d oal; readAll s.

(** The handle has its memory map, and every pointer of the index is
    well typed and can be read. *)
Definition readable (d : DB) : Prop :=
  0 < filebuffer d /\
  map_Forall (fun _ oal => oal_ok oal /\ exists v, readOAL d oal = Ok v)
             (kToPos d).

(** The size of the record of one live key: 12 + |k| + |v|. *)
Definition entrySize (e : string * offsetAndLength) : Z :=
  12 + slen e.1 + length e.2.

Definition sumZ (l : list Z) : Z := foldr Z.add 0 l.

(** The sum over the live keys of the sizes of their records. *)
Definition liveBytes (m : gmap string offsetAndLength) : Z :=
  sumZ (entrySize <$> map_to_list m).

(** In a file with the bytes [file], the pointer [o] denotes the bytes
    [v]: they start at [offset o] and there are [length o] of them. *)
Definition points_at (file : bytes) (o : offsetAndLength) (v : bytes) : Prop :=
  exists pre post,
    file = pre ++ v ++ post /\ offset o = blen pre /\ length o = blen v.

(** What one verified record does to the index during the scan: a record
    at [pos] with key [k] and value [v]. *)
Definition applyRecord (m : gmap string offsetAndLength) (pos : Z)
    (k v : bytes) : gmap string offsetAndLength :=
  if decide (blen v > 0)
  then <[string_of_list_byte k := OAL (pos + 12 + blen k) (blen v)]> m
  else delete (string_of_list_byte k) m.

(** A log is the list of the (key, value) pairs appended, oldest first;
    its bytes are the frames of the records, one after the other. *)
Definition encode (recs : list (bytes * bytes)) : bytes :=
  concat (map (fun r => frame r.1 r.2) recs).

(** The index and the position after the records of a log that starts at
    [pos] have been applied in order: later records supersede earlier
    ones and tombstones delete. *)
Fixpoint replay (recs : list (bytes * bytes))
    (m : gmap string offsetAndLength) (pos : Z)
  : gmap string offsetAndLength * Z :=
  match recs with
  | [] => (m, pos)
  | (k, v) :: recs' =>
      replay recs' (applyRecord m pos k v) (pos + 12 + blen k + blen v)
  end.

(** The lengths of a record fit their 32-bit fields. *)
Definition rec_ok (r : bytes * bytes) : Prop :=
  blen r.1 < 2 ^ 32 /\ blen r.2 < 2 ^ 32.

(** The key and value lengths the header of the record at [pos] announces,
    decoded from the bytes the file has there. *)
Definition kLenAt (file : bytes) (pos : Z) : Z :=
  le_value (take 4 (drop (Z.to_nat (pos + 4)) file)).
Definition vLenAt (file : bytes) (pos : Z) : Z :=
  le_value (take 4 (drop (Z.to_nat (pos + 8)) file)).

(** The record that starts at [pos] is truncated: the file ends before
    the 12 bytes of header and the key and value bytes it announces. *)
Definition truncatedAt (file : bytes) (pos : Z) : Prop :=
  0 <= pos < blen file /\
  blen file < pos + 12 + kLenAt file pos + vLenAt file pos.

(** The memory map of the data file with what lies past the end of the
    file left open: the map has its [mmapLen] bytes, an index outside it
    panics, the bytes of the file are there, and a read of an index [i]
    of the map at or after the length of the file gives [past i]. *)
Definition mapWith (file : bytes) (past : Z -> res byte) (mmapLen : Z)
  : slice :=
  {| rd := fun i =>
       if decide (0 <= i < mmapLen) then
         if decide (i < blen file) then Ok (nth (Z.to_nat i) file x00)
         else past i
       else Crash Panic;
     len := mmapLen |}.

(** What the kernel gives past the end of a file of [fLen] bytes: zeroes
    up to the end of the last page, SIGBUS after it.  With it [mapWith]
    is [mmapOf]. *)
Definition pastOf (fLen : Z) (i : Z) : res byte :=
  if decide (i < mappedEnd fLen) then Ok x00 else Crash SigBus.

(** Every read past the end of the file faults, from its first byte on:
    a scan over such a map that ends otherwise has read nothing there. *)
Definition faulting (i : Z) : res byte := Crash SigBus.

(** Every read of [s] either raises SIGBUS or gives what the same read
    of [t] gives, and the two have the same length. *)
Definition below (s t : slice) : Prop :=
  len s = len t /\
  forall i, rd s i = Crash SigBus \/ rd s i = rd t i.

(** The scan of [OpenAndVerifyDB] over the data file [file]: the loop run
    from position 0 over the map of the length [makeFilebuf] asks for. *)
Definition scanOver (file : bytes) (past : Z -> res byte)
  : option (res (gmap string offsetAndLength * Z * option error)) :=
  match makeFilebuf file with
  | Ok mmapLen =>
      verifyLoop (S (List.length file)) (mapWith file past mmapLen)
                 (u64 (blen file)) ∅ 0
  | Err e => Some (Err e)
  | Crash c => Some (Crash c)
  end.

(** The first index at or after the end of the file that the scan reads
    at a truncated record that starts at [pos]: the length fields, from
    [pos + 4] on, are read before the checksum and the body. *)
Definition firstPast (file : bytes) (pos : Z) : Z :=
  Z.max (pos + 4) (blen file).

(** An entry of the key snapshot as the format describes it: key length
    and value length (4 bytes each), value offset (8 bytes), all
    little-endian, then the key. *)
Definition keyFrame (e : string * offsetAndLength) : bytes :=
  le32 (u32 (slen e.1)) ++ le32 (length e.2) ++ le64 (offset e.2)
  ++ list_byte_of_string e.1.

(** An entry of the index fits the fields of the key snapshot. *)
Definition entry_ok (e : string * offsetAndLength) : Prop :=
  oal_ok e.2 /\ slen e.1 < 2 ^ 32.

(** ** Sequences of mutations *)

(** A mutation a caller applies to a handle; in a sequence of them every
    append succeeds. *)
Inductive mutation :=
  | DoUpsert (k v : bytes)
  | DoRemove (k : bytes).

Definition mutate (d : DB) (o : mutation) : res DB :=
  match o with
  | DoUpsert k v => Upsert Written k v d
  | DoRemove k => Remove Written k d
  end.

Fixpoint mutations (ops : list mutation) (d : DB) : res DB :=
  match ops with
  | [] => Ok d
  | o :: ops' => d' ← mutate d o; mutations ops' d'
  end.

(** The records a sequence of mutations appends: a [Remove] appends the
    record of its key with the empty value. *)
Definition logOf (ops : list mutation) : list (bytes * bytes) :=
  map (fun o => match o with
                | DoUpsert k v => (k, v)
                | DoRemove k => (k, [])
                end) ops.

(** A sequence of upserts, given by its (key, value) pairs. *)
Definition upsertsOf (kvs : list (bytes * bytes)) : list mutation :=
  map (fun kv => DoUpsert kv.1 kv.2) kvs.

#[global] Instance byte_eq_dec : EqDecision byte := Byte.byte_eq_dec.

(** The value of the most recent pair for [k] in [kvs], if any. *)
Fixpoint lastValue (k : bytes) (kvs : list (bytes * bytes)) : option bytes :=
  match kvs with
  | [] => None
  | (k', v) :: kvs' =>
      match lastValue k kvs' with
      | Some v' => Some v'
      | None => if decide (k' = k) then Some v else None
      end
  end.

(** The handle [d] holds the mapping [f]: its write position is the end
    of its file, every key that [f] maps to a value has a pointer that
    denotes this value in the file, and no other key is in the index. *)
Definition holds (d : DB) (f : bytes -> option bytes) : Prop :=
  filledSize d = blen (filehandle d) /\
  forall k,
    match f k with
    | Some v =>
        exists oal, kToPos d !! string_of_list_byte k = Some oal /\
                    points_at (filehandle d) oal v /\ blen v < 2 ^ 32
    | None => kToPos d !! string_of_list_byte k = None
    end.

(** ** Sample handles and files *)

Definition run (r : res DB) : DB :=
  match r with Ok d => d | _ => mkDB ∅ EmptyString 0 [] 0 end.

(** A fresh handle after three writes, the last one an update. *)
Definition tomDick : DB :=
  run (d ← NewDB "db";
       d ← Upsert Written (str "Tom") (str "Washington") d;
       d ← Upsert Written (str "Dick") (str "Oregon") d;
       Upsert Written (str "Tom") (str "New York") d).

(** The record of key ["k"] with the one-byte value [0x00], cut one byte
    short: 13 of its 14 bytes. *)
Definition cutZero : bytes := take 13 (frame (str "k") [x00]).

(** A whole record followed by the first 20 bytes of another one. *)
Definition cutTail : bytes :=
  encode [(str "Tom", str "Washington")]
  ++ take 20 (frame (str "Dick") (str "Oregon")).



(** * Properties *)

Example crc32c_check_value :
  CRC32.Checksum (str "123456789") crcTable = 0xE3069283.
Proof. vm_compute. reflexivity. Qed.

(** ** Facts about bytes and little-endian words *)

Section ByteFacts.

Lemma b2z_range b : 0 <= b2z b < 256.
Proof. unfold b2z. pose proof (Byte.to_N_bounded b). lia. Qed.

Lemma z2b_b2z b : z2b (b2z b) = b.
Proof. destruct b; reflexivity. Qed.

Lemma b2z_z2b z : b2z (z2b z) = z mod 256.
Proof.
  unfold z2b, b2z.
  pose proof (Z.mod_pos_bound z 256 ltac:(lia)) as Hr.
  destruct (Byte.of_N (Z.to_N (z mod 256))) eqn:E; simpl.
  - apply Byte.to_of_N in E. rewrite E. lia.
  - apply Byte.of_N_None_iff in E. lia.
Qed.

Lemma z2b_mod z : z2b (z mod 256) = z2b z.
Proof. unfold z2b. by rewrite Z.mod_mod. Qed.

Lemma z2b_land z : z2b (Z.land z 0xff) = z2b z.
Proof.
  change 0xff with (Z.ones 8). rewrite Z.land_ones by lia. apply z2b_mod.
Qed.

Lemma land_low_high x y n :
  0 <= n -> 0 <= x < 2 ^ n -> Z.land x (y * 2 ^ n) = 0.
Proof.
  intros Hn Hx. apply Z.bits_inj'. intros i Hi.
  rewrite Z.land_spec, Z.bits_0.
  destruct (decide (i < n)).
  - rewrite Z.mul_pow2_bits_low by lia. apply andb_false_r.
  - rewrite <- (Z.mod_small x (2 ^ n)) by lia.
    rewrite Z.mod_pow2_bits_high by lia. reflexivity.
Qed.

Lemma lor_low_high x y n :
  0 <= n -> 0 <= x < 2 ^ n -> Z.lor x (y * 2 ^ n) = x + y * 2 ^ n.
Proof.
  intros. symmetry. by apply Z.add_nocarry_lor, land_low_high.
Qed.

End ByteFacts.
(** ** Little-endian words *)

Section LittleEndian.

Lemma le_value_range l : 0 <= le_value l < 256 ^ blen l.
Proof.
  unfold blen. induction l as [|b l IH]; simpl List.length; simpl le_value.
  - lia.
  - pose proof (b2z_range b).
    rewrite Nat2Z.inj_succ, Z.pow_succ_r by lia. lia.
Qed.

Lemma le_value_le32 z : le_value (le32 z) = u32 z.
Proof.
  unfold le32, le_value, u32.
  rewrite !b2z_z2b, !Z.shiftr_div_pow2 by lia.
  change (2 ^ 32) with (256 * (256 * (256 * 256))).
  rewrite !Z.rem_mul_r by lia.
  rewrite !Z.div_div by lia.
  change (2 ^ 8) with 256. change (2 ^ 16) with (256 * 256).
  change (2 ^ 24) with (256 * 256 * 256). lia.
Qed.

Lemma le_value_app l1 l2 :
  le_value (l1 ++ l2) = le_value l1 + 256 ^ blen l1 * le_value l2.
Proof.
  unfold blen. induction l1 as [|b l1 IH]; simpl List.length; simpl.
  - lia.
  - rewrite IH. rewrite Nat2Z.inj_succ, Z.pow_succ_r by lia. lia.
Qed.

Lemma le_value_le64 z : le_value (le64 z) = u64 z.
Proof.
  unfold le64. rewrite le_value_app, !le_value_le32.
  unfold u32, u64. rewrite Z.shiftr_div_pow2 by lia.
  change (256 ^ blen (le32 z)) with (2 ^ 32).
  change (2 ^ 64) with (2 ^ 32 * 2 ^ 32).
  rewrite Z.rem_mul_r by lia. lia.
Qed.

(** What [uint32FromBytes] computes from the four bytes it reads. *)
Lemma lor32_le_value b0 b1 b2 b3 :
  Z.lor (Z.lor (Z.lor (b2z b0) (u32 (Z.shiftl (b2z b1) 8)))
               (u32 (Z.shiftl (b2z b2) 16)))
        (u32 (Z.shiftl (b2z b3) 24))
  = le_value [b0; b1; b2; b3].
Proof.
  pose proof (b2z_range b0). pose proof (b2z_range b1).
  pose proof (b2z_range b2). pose proof (b2z_range b3).
  unfold u32. rewrite !Z.shiftl_mul_pow2 by lia.
  assert (E8 : 2 ^ 8 = 256) by reflexivity.
  assert (E16 : 2 ^ 16 = 65536) by reflexivity.
  assert (E24 : 2 ^ 24 = 16777216) by reflexivity.
  assert (E32 : 2 ^ 32 = 4294967296) by reflexivity.
  rewrite !Z.mod_small by lia.
  rewrite (lor_low_high _ _ 8) by lia.
  rewrite (lor_low_high _ _ 16) by lia.
  rewrite (lor_low_high _ _ 24) by lia.
  simpl le_value. lia.
Qed.

(** What [uint64FromBytes] computes from the eight bytes it reads. *)
Lemma lor64_le_value b0 b1 b2 b3 b4 b5 b6 b7 :
  Z.lor (Z.lor (Z.lor (Z.lor (b2z b0) (u64 (Z.shiftl (b2z b1) 8)))
                      (u64 (Z.shiftl (b2z b2) 16)))
               (u64 (Z.shiftl (b2z b3) 24)))
        (Z.lor (Z.lor (Z.lor (u64 (Z.shiftl (b2z b4) 32))
                             (u64 (Z.shiftl (b2z b5) 40)))
                      (u64 (Z.shiftl (b2z b6) 48)))
               (u64 (Z.shiftl (b2z b7) 56)))
  = le_value [b0; b1; b2; b3; b4; b5; b6; b7].
Proof.
  pose proof (b2z_range b0). pose proof (b2z_range b1).
  pose proof (b2z_range b2). pose proof (b2z_range b3).
  pose proof (b2z_range b4). pose proof (b2z_range b5).
  pose proof (b2z_range b6). pose proof (b2z_range b7).
  unfold u64. rewrite !Z.shiftl_mul_pow2 by lia.
  assert (E8 : 2 ^ 8 = 256) by reflexivity.
  assert (E16 : 2 ^ 16 = 65536) by reflexivity.
  assert (E24 : 2 ^ 24 = 16777216) by reflexivity.
  assert (E32 : 2 ^ 32 = 4294967296) by reflexivity.
  assert (E40 : 2 ^ 40 = 1099511627776) by reflexivity.
  assert (E48 : 2 ^ 48 = 281474976710656) by reflexivity.
  assert (E56 : 2 ^ 56 = 72057594037927936) by reflexivity.
  assert (E64 : 2 ^ 64 = 18446744073709551616) by reflexivity.
  rewrite !Z.mod_small by lia.
  rewrite (lor_low_high (b2z b0) _ 8) by lia.
  rewrite (lor_low_high _ _ 16) by lia.
  rewrite (lor_low_high _ _ 24) by lia.
  rewrite (lor_low_high _ _ 40) by lia.
  rewrite (lor_low_high _ _ 48) by lia.
  rewrite (lor_low_high _ _ 56) by lia.
  replace (b2z b4 * 2 ^ 32 + b2z b5 * 2 ^ 40 + b2z b6 * 2 ^ 48
           + b2z b7 * 2 ^ 56)
    with ((b2z b4 + b2z b5 * 256 + b2z b6 * 65536 + b2z b7 * 16777216)
          * 2 ^ 32) by lia.
  rewrite (lor_low_high _ _ 32) by lia.
  simpl le_value. lia.
Qed.

End LittleEndian.
(** ** Regions of slices *)

Section Regions.

Lemma blen_app (a b : bytes) : blen (a ++ b) = blen a + blen b.
Proof. unfold blen. rewrite length_app. lia. Qed.

Lemma blen_cons (x : byte) (a : bytes) : blen (x :: a) = 1 + blen a.
Proof. unfold blen. simpl List.length. lia. Qed.

Lemma blen_nonneg (a : bytes) : 0 <= blen a.
Proof. unfold blen. lia. Qed.

Lemma region_nil s lo : 0 <= lo <= len s -> region s lo [].
Proof.
  intros. unfold region, blen. simpl. split_and!; [lia | lia |].
  intros i Hi. lia.
Qed.

Lemma region_cons s lo b l :
  region s lo (b :: l) <->
  0 <= lo /\ rd s lo = Ok b /\ region s (lo + 1) l.
Proof.
  unfold region. rewrite blen_cons. split.
  - intros (H0 & H1 & H2). split; [done|]. split.
    + specialize (H2 0%nat). simpl in H2. rewrite Z.add_0_r in H2.
      apply H2. lia.
    + split_and!; [lia | lia |]. intros i Hi.
      specialize (H2 (S i)). simpl in H2.
      replace (lo + 1 + Z.of_nat i) with (lo + Z.of_nat (S i)) by lia.
      apply H2. lia.
  - intros (H0 & H1 & H2 & H3 & H4). split_and!; [lia | lia |].
    intros [|i] Hi; simpl in *.
    + by rewrite Z.add_0_r.
    + replace (lo + Z.of_nat (S i)) with (lo + 1 + Z.of_nat i) by lia.
      apply H4. lia.
Qed.

Lemma region_app s lo l1 l2 :
  region s lo (l1 ++ l2) <->
  region s lo l1 /\ region s (lo + blen l1) l2.
Proof.
  revert lo. induction l1 as [|b l1 IH]; intros lo; simpl.
  - unfold blen at 1. simpl. rewrite Z.add_0_r. split.
    + intros H. split; [|done]. apply region_nil.
      destruct H as (? & ? & _). pose proof (blen_nonneg l2). lia.
    + by intros [_ H].
  - rewrite !region_cons, IH, blen_cons.
    replace (lo + (1 + blen l1)) with (lo + 1 + blen l1) by lia.
    tauto.
Qed.

Lemma region_readFrom s lo l :
  region s lo l -> readFrom (rd s) lo (List.length l) = Ok l.
Proof.
  revert lo. induction l as [|b l IH]; intros lo H; simpl; [done|].
  apply region_cons in H as (_ & Hb & Hl).
  rewrite Hb. simpl. rewrite (IH _ Hl). reflexivity.
Qed.

Lemma region_ofBytes (a l b : bytes) :
  region (ofBytes (a ++ l ++ b)) (blen a) l.
Proof.
  unfold region. simpl. rewrite !blen_app.
  pose proof (blen_nonneg a). pose proof (blen_nonneg b).
  split_and!; [lia | lia |]. intros i Hi.
  rewrite decide_True by (unfold blen in *; lia).
  f_equal. unfold blen. rewrite <- Nat2Z.inj_add, Nat2Z.id.
  rewrite app_nth2_plus. by rewrite app_nth1.
Qed.

Lemma region_ofBytes_whole (l : bytes) : region (ofBytes l) 0 l.
Proof.
  pose proof (region_ofBytes [] l []) as H.
  by rewrite app_nil_r in H.
Qed.

(** A sub-slice sees the bytes of the slice it was cut from. *)
Lemma region_subslice s lo hi s' off l :
  subslice s lo hi = Ok s' ->
  0 <= off -> off + blen l <= hi - lo ->
  region s (lo + off) l -> region s' off l.
Proof.
  unfold subslice. case_decide as Hr; [|done]. intros [= <-] H0 H1 H2.
  unfold region in *. simpl. split_and!; [lia | lia |].
  intros i Hi. rewrite decide_True by (unfold blen in *; lia).
  destruct H2 as (_ & _ & H2). rewrite <- (H2 i Hi). f_equal. lia.
Qed.

Lemma subslice_len s lo hi s' :
  subslice s lo hi = Ok s' -> len s' = hi - lo.
Proof. unfold subslice. case_decide; [|done]. by intros [= <-]. Qed.

Lemma subslice_ok s lo hi :
  0 <= lo -> lo <= hi -> hi <= len s -> exists s', subslice s lo hi = Ok s'.
Proof. intros. unfold subslice. rewrite decide_True by lia. eauto. Qed.

(** Reading the whole of [s[lo:hi]]. *)
Lemma readAll_subslice s lo l :
  region s lo l ->
  (s' ← subslice s lo (lo + blen l); readAll s') = Ok l.
Proof.
  intros H. pose proof H as (H0 & H1 & _).
  pose proof (blen_nonneg l).
  destruct (subslice_ok s lo (lo + blen l)) as [s' Hs']; [lia..|].
  rewrite Hs'. simpl. unfold readAll.
  rewrite (subslice_len _ _ _ _ Hs').
  replace (Z.to_nat (lo + blen l - lo)) with (List.length l)
    by (unfold blen; lia).
  apply region_readFrom.
  eapply region_subslice; [done | lia | lia |]. by rewrite Z.add_0_r.
Qed.

Lemma readAll_ofBytes l : readAll (ofBytes l) = Ok l.
Proof.
  unfold readAll. simpl. unfold blen. rewrite Nat2Z.id.
  apply (region_readFrom (ofBytes l) 0), region_ofBytes_whole.
Qed.

Lemma uint32FromBytes_region s i b0 b1 b2 b3 :
  region s i [b0; b1; b2; b3] -> i + 3 < 2 ^ 64 ->
  uint32FromBytes s i = Ok (le_value [b0; b1; b2; b3]).
Proof.
  intros H Hi. rewrite !region_cons in H.
  destruct H as (H0 & E0 & _ & E1 & _ & E2 & _ & E3 & _).
  assert (Hu : forall n, 0 <= n <= 3 -> u64 (i + n) = i + n)
    by (intros n Hn; apply Z.mod_small; lia).
  unfold uint32FromBytes. rewrite !Hu by lia.
  replace (i + 1 + 1) with (i + 2) in E2 by lia.
  replace (i + 1 + 1 + 1) with (i + 3) in E3 by lia.
  rewrite E0, E1, E2, E3. simpl. by rewrite lor32_le_value.
Qed.

Lemma uint64FromBytes_region s i b0 b1 b2 b3 b4 b5 b6 b7 :
  region s i [b0; b1; b2; b3; b4; b5; b6; b7] -> i + 7 < 2 ^ 64 ->
  uint64FromBytes s i = Ok (le_value [b0; b1; b2; b3; b4; b5; b6; b7]).
Proof.
  intros H Hi. rewrite !region_cons in H.
  destruct H as (H0 & E0 & _ & E1 & _ & E2 & _ & E3 & _ & E4 & _ & E5
                 & _ & E6 & _ & E7 & _).
  assert (Hu : forall n, 0 <= n <= 7 -> u64 (i + n) = i + n)
    by (intros n Hn; apply Z.mod_small; lia).
  unfold uint64FromBytes. rewrite !Hu by lia.
  replace (i + 1 + 1) with (i + 2) in * by lia.
  replace (i + 2 + 1) with (i + 3) in * by lia.
  replace (i + 3 + 1) with (i + 4) in * by lia.
  replace (i + 4 + 1) with (i + 5) in * by lia.
  replace (i + 5 + 1) with (i + 6) in * by lia.
  replace (i + 6 + 1) with (i + 7) in * by lia.
  rewrite E0, E1, E2, E3, E4, E5, E6, E7. simpl.
  by rewrite lor64_le_value.
Qed.

End Regions.
(** ** The record codec *)

Section Codec.

Lemma store_app pre x post b :
  store (pre ++ x :: post) (blen pre) b = Ok (pre ++ b :: post).
Proof.
  unfold store. rewrite blen_app, blen_cons.
  pose proof (blen_nonneg pre). pose proof (blen_nonneg post).
  rewrite decide_True by lia. f_equal.
  unfold blen. rewrite Nat2Z.id.
  rewrite insert_app_r_alt by lia.
  by rewrite Nat.sub_diag.
Qed.

Lemma uint32ToBytes_app pre a b c d post val :
  blen pre + 3 < 2 ^ 64 ->
  uint32ToBytes (pre ++ [a; b; c; d] ++ post) (blen pre) val
  = Ok (pre ++ le32 val ++ post).
Proof.
  intros Hi. pose proof (blen_nonneg pre).
  assert (Hu : forall n, 0 <= n <= 3 -> u64 (blen pre + n) = blen pre + n)
    by (intros n Hn; apply Z.mod_small; lia).
  unfold uint32ToBytes. rewrite !Hu, !z2b_land by lia.
  simpl app. rewrite store_app. simpl.
  replace (blen pre + 1) with (blen (pre ++ [z2b val]))
    by (rewrite blen_app; reflexivity).
  rewrite (cons_middle (z2b val) pre), app_assoc, store_app. simpl.
  replace (blen pre + 2)
    with (blen ((pre ++ [z2b val]) ++ [z2b (Z.shiftr val 8)]))
    by (rewrite !blen_app; unfold blen; simpl; lia).
  rewrite (cons_middle (z2b (Z.shiftr val 8))), app_assoc, store_app.
  simpl.
  replace (blen pre + 3)
    with (blen (((pre ++ [z2b val]) ++ [z2b (Z.shiftr val 8)])
                ++ [z2b (Z.shiftr val 16)]))
    by (rewrite !blen_app; unfold blen; simpl; lia).
  rewrite (cons_middle (z2b (Z.shiftr val 16))), app_assoc, store_app.
  unfold le32. by rewrite <- !app_assoc.
Qed.

Lemma slice_from_read pre l :
  (s ← slice_from (ofBytes (pre ++ l)) (blen pre); readAll s) = Ok l.
Proof.
  unfold slice_from. simpl len. rewrite blen_app.
  apply readAll_subslice.
  pose proof (region_ofBytes pre l []) as H. by rewrite app_nil_r in H.
Qed.

(** [newDocument] never panics and produces the frame. *)
Lemma newDocument_frame k v : newDocument k v = Ok (frame k v).
Proof.
  unfold newDocument.
  change (replicate 12 x00)
    with ([x00; x00; x00; x00] ++ [x00; x00; x00; x00]
          ++ [x00; x00; x00; x00]).
  rewrite (uint32ToBytes_app [x00; x00; x00; x00]) by (vm_compute; done).
  cbn [mbind res_bind].
  rewrite (uint32ToBytes_app
             (x00 :: x00 :: x00 :: x00 :: le32 (u32 (blen k)))
             x00 x00 x00 x00 []) by (vm_compute; done).
  cbn [mbind res_bind].
  set (body := frame_body k v).
  assert (E : (((x00 :: x00 :: x00 :: x00 :: le32 (u32 (blen k)))
                ++ le32 (u32 (blen v)) ++ []) ++ k) ++ v
              = [x00; x00; x00; x00] ++ body).
  { unfold body, frame_body. rewrite app_nil_r, <- !app_assoc. done. }
  rewrite E.
  pose proof (slice_from_read [x00; x00; x00; x00] body) as Hs.
  change (blen [x00; x00; x00; x00]) with 4 in Hs. rewrite Hs.
  cbn [mbind res_bind].
  rewrite (uint32ToBytes_app [] x00 x00 x00 x00 body) by (vm_compute; done).
  reflexivity.
Qed.

Lemma blen_le32 z : blen (le32 z) = 4.
Proof. reflexivity. Qed.

Lemma blen_frame k v : blen (frame k v) = 12 + blen k + blen v.
Proof.
  unfold frame, frame_body. rewrite !blen_app, !blen_le32. lia.
Qed.

End Codec.

(** ** The checksum is a 32-bit value, and a fresh record verifies *)

Section Checksum.

Lemma lxor_range a b n :
  0 < n -> 0 <= a < 2 ^ n -> 0 <= b < 2 ^ n ->
  0 <= Z.lxor a b < 2 ^ n.
Proof.
  intros Hn Ha Hb.
  assert (H0 : 0 <= Z.lxor a b) by (apply Z.lxor_nonneg; lia).
  split; [done|].
  destruct (decide (Z.lxor a b = 0)) as [->|Hne]; [lia|].
  apply Z.log2_lt_pow2; [lia|].
  pose proof (Z.log2_lxor a b ltac:(lia) ltac:(lia)) as Hl.
  assert (Z.log2 a < n).
  { destruct (decide (a = 0)) as [->|]; [simpl; lia|].
    apply Z.log2_lt_pow2; lia. }
  assert (Z.log2 b < n).
  { destruct (decide (b = 0)) as [->|]; [simpl; lia|].
    apply Z.log2_lt_pow2; lia. }
  lia.
Qed.

Lemma not32_range z : 0 <= z < 2 ^ 32 -> 0 <= not32 z < 2 ^ 32.
Proof. intros. apply lxor_range; [lia | done | vm_compute; done]. Qed.

Lemma crcTable_range i : 0 <= nth i crcTable 0 < 2 ^ 32.
Proof.
  assert (H : Forall (fun x => 0 <= x < 2 ^ 32) crcTable).
  { apply Forall_forall. intros x Hx.
    assert (Hb : forallb (fun x => (0 <=? x) && (x <? 2 ^ 32)) crcTable
                 = true) by (vm_compute; reflexivity).
    rewrite forallb_forall in Hb. specialize (Hb x).
    rewrite <- list_elem_of_In in Hb. specialize (Hb Hx). lia. }
  destruct (decide (i < List.length crcTable)%nat) as [Hi|Hi].
  - rewrite Forall_forall in H. apply H. apply list_elem_of_In, nth_In, Hi.
  - rewrite nth_overflow by lia. lia.
Qed.

Lemma update1_range crc v :
  0 <= crc < 2 ^ 32 -> 0 <= CRC32.update1 crcTable crc v < 2 ^ 32.
Proof.
  intros Hc. unfold CRC32.update1. apply lxor_range; [lia | |].
  - apply crcTable_range.
  - rewrite Z.shiftr_div_pow2 by lia. split.
    + apply Z.div_pos; lia.
    + apply Z.div_lt_upper_bound; lia.
Qed.

Lemma Checksum_range data : 0 <= CRC32.Checksum data crcTable < 2 ^ 32.
Proof.
  unfold CRC32.Checksum, CRC32.Update. apply not32_range.
  assert (H : 0 <= not32 0 < 2 ^ 32) by (vm_compute; done).
  revert H. generalize (not32 0).
  induction data as [|b data IH]; intros c Hc; simpl; [done|].
  apply IH, update1_range, Hc.
Qed.

(** [checkDocument] on a slice holding the bytes [c ++ body], with [c]
    the four checksum bytes. *)
Lemma checkDocument_region s c0 c1 c2 c3 body :
  region s 0 ([c0; c1; c2; c3] ++ body) ->
  len s = 4 + blen body ->
  checkDocument s
  = Ok (bool_decide (le_value [c0; c1; c2; c3]
                     = CRC32.Checksum body crcTable)).
Proof.
  intros H Hl. apply region_app in H as [Hc Hb].
  unfold checkDocument.
  rewrite (uint32FromBytes_region _ _ _ _ _ _ Hc) by (vm_compute; done).
  cbn [mbind res_bind]. unfold slice_from. rewrite Hl.
  change (0 + blen [c0; c1; c2; c3]) with 4 in Hb.
  rewrite (readAll_subslice s 4 body Hb). reflexivity.
Qed.

Lemma checkDocument_frame k v : checkDocument (ofBytes (frame k v)) = Ok true.
Proof.
  unfold frame. set (body := frame_body k v).
  set (crc := CRC32.Checksum body crcTable).
  unfold le32.
  rewrite (checkDocument_region _ (z2b crc) (z2b (Z.shiftr crc 8))
             (z2b (Z.shiftr crc 16)) (z2b (Z.shiftr crc 24)) body).
  - f_equal. apply bool_decide_eq_true.
    change (le_value (le32 crc) = crc). rewrite le_value_le32.
    apply Z.mod_small, Checksum_range.
  - apply region_ofBytes_whole.
  - simpl len. rewrite !blen_cons. lia.
Qed.

End Checksum.

Section RecordLayout.

Lemma checkDocument_bytes (b : bytes) :
  4 <= blen b ->
  checkDocument (ofBytes b)
  = Ok (bool_decide (le_value (take 4 b)
                     = CRC32.Checksum (drop 4 b) crcTable)).
Proof.
  intros Hb.
  destruct b as [|c0 [|c1 [|c2 [|c3 body]]]];
    try (unfold blen in Hb; simpl in Hb; lia).
  apply (checkDocument_region _ c0 c1 c2 c3 body).
  - apply region_ofBytes_whole.
  - simpl len. rewrite !blen_cons. lia.
Qed.

(** C9: the record [newDocument(k, v)] has 12 + |k| + |v| bytes: the
    checksum, the key length and the value length as 4-byte
    little-endian fields, then the key and the value; it passes
    [checkDocument], and [checkDocument] accepts a record exactly when
    its first four bytes hold the CRC-32C of the bytes from offset 4 to
    the end. *)
Theorem newDocument_layout_and_check (k v : bytes) :
  blen k < 2 ^ 32 -> blen v < 2 ^ 32 ->
  exists doc,
    newDocument k v = Ok doc /\
    blen doc = 12 + blen k + blen v /\
    doc = le32 (CRC32.Checksum (drop 4 doc) crcTable)
          ++ le32 (blen k) ++ le32 (blen v) ++ k ++ v /\
    le_value (take 4 (drop 4 doc)) = blen k /\
    le_value (take 4 (drop 8 doc)) = blen v /\
    checkDocument (ofBytes doc) = Ok true /\
    forall b : bytes, 4 <= blen b ->
      (checkDocument (ofBytes b) = Ok true <->
       le_value (take 4 b) = CRC32.Checksum (drop 4 b) crcTable).
Proof.
  intros Hk Hv. exists (frame k v).
  pose proof (blen_nonneg k). pose proof (blen_nonneg v).
  assert (Ek : u32 (blen k) = blen k) by (apply Z.mod_small; lia).
  assert (Ev : u32 (blen v) = blen v) by (apply Z.mod_small; lia).
  split_and!.
  - apply newDocument_frame.
  - apply blen_frame.
  - unfold frame, frame_body. rewrite Ek, Ev. reflexivity.
  - change (le_value (le32 (u32 (blen k))) = blen k).
    by rewrite le_value_le32, Ek.
  - change (le_value (le32 (u32 (blen v))) = blen v).
    by rewrite le_value_le32, Ev.
  - apply checkDocument_frame.
  - intros b Hb. rewrite checkDocument_bytes by done.
    split.
    + intros [= E]. by apply bool_decide_eq_true in E.
    + intros E. f_equal. by apply bool_decide_eq_true.
Qed.

Lemma newDocument_layout_and_check_witness :
  exists doc,
    newDocument (str "Tom") (str "Washington") = Ok doc /\
    blen doc = 25 /\
    le_value (take 4 (drop 4 doc)) = 3 /\
    le_value (take 4 (drop 8 doc)) = 10.
Proof.
  destruct (newDocument_layout_and_check (str "Tom") (str "Washington"))
    as (doc & H1 & H2 & _ & H4 & H5 & _).
  - vm_compute. reflexivity.
  - vm_compute. reflexivity.
  - exists doc. split_and!; assumption.
Defined.

End RecordLayout.

(** ** Reading through the memory map *)

Section MappedReads.

Lemma region_mmapOf pre l post mlen :
  blen (pre ++ l ++ post) <= mlen ->
  region (mmapOf (pre ++ l ++ post) mlen) (blen pre) l.
Proof.
  intros Hm. unfold region. simpl. rewrite !blen_app in Hm.
  pose proof (blen_nonneg pre). pose proof (blen_nonneg post).
  split_and!; [lia | lia |]. intros i Hi.
  rewrite decide_True by (unfold blen in *; lia).
  rewrite decide_True by (rewrite !blen_app; unfold blen in *; lia).
  f_equal. unfold blen. rewrite <- Nat2Z.inj_add, Nat2Z.id.
  rewrite app_nth2_plus. by rewrite app_nth1.
Qed.

Lemma readFrom_length f i n l :
  readFrom f i n = Ok l -> List.length l = n.
Proof.
  revert i l. induction n as [|n IH]; intros i l; simpl.
  - by intros [= <-].
  - destruct (f i) as [b| |]; simpl; try done.
    destruct (readFrom f (i + 1) n) as [bs| |] eqn:E; simpl; try done.
    intros [= <-]. simpl. f_equal. by eapply IH.
Qed.

Lemma readFrom_region s i n l :
  0 <= i -> i + Z.of_nat n <= len s ->
  readFrom (rd s) i n = Ok l -> region s i l.
Proof.
  revert i l. induction n as [|n IH]; intros i l Hi Hn; simpl.
  - intros [= <-]. apply region_nil. lia.
  - destruct (rd s i) as [b| |] eqn:Eb; simpl; try done.
    destruct (readFrom (rd s) (i + 1) n) as [bs| |] eqn:E; simpl; try done.
    intros [= <-]. apply region_cons. split_and!; [lia | done |].
    apply IH; [lia | lia | done].
Qed.

(** What a successful read of [s[lo:hi]] says about [s]. *)
Lemma read_subslice_inv s lo hi l :
  (s' ← subslice s lo hi; readAll s') = Ok l ->
  0 <= lo /\ lo <= hi /\ hi <= len s /\ blen l = hi - lo /\ region s lo l.
Proof.
  unfold subslice. case_decide as Hr; [|done]. simpl. unfold readAll.
  simpl. intros H. pose proof (readFrom_length _ _ _ _ H) as Hl.
  split_and!; [lia | lia | lia | unfold blen; lia |].
  set (s' := {| rd := fun i => if decide (0 <= i < hi - lo)
                               then rd s (lo + i) else Crash Panic;
                len := hi - lo |}).
  assert (Hs' : region s' 0 l).
  { apply (readFrom_region s' 0 (Z.to_nat (hi - lo))); simpl; [lia | lia |].
    exact H. }
  destruct Hs' as (_ & _ & Hs'). unfold region.
  split_and!; [lia | unfold blen; lia |]. intros i Hi.
  specialize (Hs' i Hi). simpl in Hs'.
  rewrite decide_True in Hs' by lia. by rewrite Z.add_0_l in Hs'.
Qed.

End MappedReads.

(** ** Consolidation *)

Section Consolidation.

Lemma blen_str k : blen (list_byte_of_string k) = slen k.
Proof.
  unfold blen, slen. f_equal. unfold list_byte_of_string.
  rewrite length_map. induction k as [|a k IH]; simpl; [done|].
  by rewrite IH.
Qed.

Lemma sumZ_perm l1 l2 : l1 ≡ₚ l2 -> sumZ l1 = sumZ l2.
Proof. induction 1; simpl in *; lia. Qed.

Lemma sumZ_app l1 l2 : sumZ (l1 ++ l2) = sumZ l1 + sumZ l2.
Proof. induction l1; simpl in *; lia. Qed.

(** A pointer that can be read denotes as many bytes as its length. *)
Lemma readOAL_inv d oal v :
  oal_ok oal -> readOAL d oal = Ok v ->
  blen v = length oal /\ region (filebuf d) (offset oal) v /\
  offset oal + length oal <= filebuffer d.
Proof.
  intros [Ho Hl] H. unfold readOAL, getValAtOAL in H.
  apply read_subslice_inv in H as (H0 & H1 & H2 & H3 & H4).
  assert (E : u64 (length oal) = length oal) by (apply Z.mod_small; lia).
  rewrite E in *. simpl in H2.
  assert (E' : u64 (offset oal + length oal) = offset oal + length oal).
  { destruct (decide (offset oal + length oal < 2 ^ 64)) as [Hlt|Hge].
    - apply Z.mod_small. lia.
    - exfalso. unfold u64 in H1.
      replace (offset oal + length oal)
        with ((offset oal + length oal - 2 ^ 64) + 1 * 2 ^ 64) in H1 by lia.
      rewrite Z.mod_add, Z.mod_small in H1 by lia. lia. }
  rewrite E' in *. split_and!; [lia | done | lia].
Qed.

Lemma readOAL_region d off n v :
  region (filebuf d) off v -> n = blen v -> off + n < 2 ^ 64 ->
  readOAL d (OAL off n) = Ok v.
Proof.
  intros Hr -> Hb. pose proof (blen_nonneg v).
  pose proof Hr as (H0 & _).
  unfold readOAL, getValAtOAL. simpl.
  unfold u64. rewrite (Z.mod_small (blen v)) by lia.
  rewrite Z.mod_small by lia. by apply readAll_subslice.
Qed.

(** One step of the loop, spelled out. *)
Lemma consolidateStep_ok d mNew pos tmp k oal v :
  readOAL d oal = Ok v ->
  consolidateStep d (mNew, pos, tmp) (k, oal)
  = Ok (<[k := getOAL pos (list_byte_of_string k) v]> mNew,
        u64 (pos + u64 (12 + slen k + blen v)),
        tmp ++ frame (list_byte_of_string k) v).
Proof.
  intros H. unfold readOAL in H. unfold consolidateStep. rewrite H.
  cbn [mbind res_bind]. rewrite newDocument_frame. cbn [mbind res_bind].
  by rewrite blen_frame, blen_str.
Qed.

Lemma consolidateStep_inv d mNew pos tmp k oal st :
  consolidateStep d (mNew, pos, tmp) (k, oal) = Ok st ->
  exists v, readOAL d oal = Ok v.
Proof.
  unfold consolidateStep, readOAL.
  destruct (getValAtOAL d oal ≫= _) as [v| |]; [eauto | done | done].
Qed.
Lemma Get_readOAL k d :
  Get k d =
  match kToPos d !! string_of_list_byte k with
  | None => Ok (EmptyString, false)
  | Some oal => bs ← readOAL d oal; Ok (string_of_list_byte bs, true)
  end.
Proof.
  unfold Get, readOAL. destruct (kToPos d !! _); [|done].
  by destruct (getValAtOAL d o).
Qed.

Lemma consolidateLoop_extends d ord st st' :
  consolidateLoop d ord st = Ok st' -> exists suf, st'.2 = st.2 ++ suf.
Proof.
  revert st. induction ord as [|[k oal] ord IH]; intros [[m p] tmp];
    cbn [consolidateLoop].
  - intros [= <-]. exists []. by rewrite app_nil_r.
  - destruct (consolidateStep d (m, p, tmp) (k, oal)) as [st1| |] eqn:E;
      cbn [mbind res_bind]; try done.
    intros H. apply IH in H as [suf Hsuf].
    destruct (consolidateStep_inv _ _ _ _ _ _ _ E) as [v Hv].
    rewrite (consolidateStep_ok _ _ _ _ _ _ _ Hv) in E.
    injection E as <-. simpl in Hsuf. rewrite Hsuf, <- app_assoc. eauto.
Qed.

(** The loop of [Consolidate], started with a write position equal to
    the length of the temporary file. *)
Lemma consolidateLoop_spec d ord :
  Forall (fun e => oal_ok e.2) ord ->
  forall mNew tmp mNew' pos' tmp',
    consolidateLoop d ord (mNew, blen tmp, tmp) = Ok (mNew', pos', tmp') ->
    blen tmp' < 2 ^ 64 ->
    pos' = blen tmp' /\
    blen tmp' = blen tmp + sumZ (entrySize <$> ord) /\
    (forall k, mNew' !! k = None <-> mNew !! k = None /\ k ∉ ord.*1) /\
    (forall k o', mNew' !! k = Some o' ->
       mNew !! k = Some o' \/
       exists oal v, (k, oal) ∈ ord /\ readOAL d oal = Ok v /\
                     points_at tmp' o' v).
Proof.
  induction 1 as [|[k0 oal0] ord Hok0 Hok IH];
    intros mNew tmp mNew' pos' tmp' Hloop Hlt.
  - simpl in Hloop. injection Hloop as <- <- <-. simpl.
    split_and!; [done | lia | | by left].
    intros k. split; [intros ?; split; [done | apply not_elem_of_nil]|].
    by intros [? _].
  - cbn [consolidateLoop] in Hloop.
    destruct (consolidateStep d (mNew, blen tmp, tmp) (k0, oal0))
      as [st1| |] eqn:E; simpl in Hloop; try done.
    destruct (consolidateStep_inv _ _ _ _ _ _ _ E) as [v0 Hv0].
    rewrite (consolidateStep_ok _ _ _ _ _ _ _ Hv0) in E.
    injection E as <-.
    destruct (readOAL_inv _ _ _ Hok0 Hv0) as (Hlen0 & _ & _).
    destruct Hok0 as [_ Hl0]. simpl in Hl0, Hlen0.
    destruct (consolidateLoop_extends _ _ _ _ Hloop) as [suf Hsuf].
    simpl in Hsuf.
    set (kb := list_byte_of_string k0) in *.
    assert (Hf : blen (frame kb v0) = 12 + slen k0 + blen v0)
      by (rewrite blen_frame; unfold kb; rewrite blen_str; lia).
    assert (Hb : blen tmp' = blen tmp + (12 + slen k0 + blen v0) + blen suf)
      by (rewrite Hsuf, !blen_app, Hf; lia).
    pose proof (blen_nonneg tmp). pose proof (blen_nonneg suf).
    assert (0 <= slen k0) by (unfold slen; lia).
    assert (Hpos : u64 (blen tmp + u64 (12 + slen k0 + blen v0))
                   = blen (tmp ++ frame kb v0)).
    { rewrite blen_app, Hf. unfold u64.
      rewrite (Z.mod_small (12 + _ + _)) by lia.
      apply Z.mod_small. lia. }
    rewrite Hpos in Hloop.
    destruct (IH _ _ _ _ _ Hloop Hlt) as (IH1 & IH2 & IH3 & IH4).
    split_and!.
    + done.
    + rewrite IH2, blen_app, Hf. rewrite fmap_cons. simpl sumZ.
      unfold entrySize at 2. simpl. lia.
    + intros k. rewrite IH3, fmap_cons, not_elem_of_cons. simpl.
      rewrite lookup_insert_None. intuition congruence.
    + intros k o' Hk. apply IH4 in Hk as [Hk|Hk].
      * apply lookup_insert_Some in Hk as [[<- <-]|[_ Hk]]; [|by left].
        right. exists oal0, v0. split_and!; [apply list_elem_of_here | done |].
        unfold points_at, getOAL. simpl.
        exists (tmp ++ take 12 (frame kb v0) ++ kb), suf.
        split_and!.
        -- rewrite Hsuf. unfold frame, frame_body.
           rewrite <- !app_assoc. reflexivity.
        -- rewrite !blen_app. unfold kb at 1. rewrite blen_str.
           change (blen (take 12 (frame kb v0))) with 12.
           unfold u64. rewrite (Z.mod_small (slen k0)) by lia.
           rewrite Z.mod_small by lia. unfold kb. rewrite blen_str. lia.
        -- apply Z.mod_small. lia.
      * right. destruct Hk as (oal & v & Hin & Hr & Hp).
        exists oal, v. split_and!; [by apply list_elem_of_further | done..].
Qed.

End Consolidation.

Section ConsolidateCorrect.

Lemma consolidateLoop_size d ord :
  Forall (fun e => oal_ok e.2) ord ->
  forall st st',
    consolidateLoop d ord st = Ok st' ->
    blen st'.2 = blen st.2 + sumZ (entrySize <$> ord).
Proof.
  induction 1 as [|[k oal] ord Hok0 Hok IH]; intros [[m p] tmp] st';
    cbn [consolidateLoop].
  - intros [= <-]. simpl. lia.
  - destruct (consolidateStep d (m, p, tmp) (k, oal)) as [st1| |] eqn:E;
      cbn [mbind res_bind]; try done.
    intros H. apply IH in H. rewrite H.
    destruct (consolidateStep_inv _ _ _ _ _ _ _ E) as [v Hv].
    rewrite (consolidateStep_ok _ _ _ _ _ _ _ Hv) in E.
    injection E as <-. cbn [snd].
    destruct (readOAL_inv _ _ _ Hok0 Hv) as (Hlen & _ & _). simpl in Hlen.
    rewrite blen_app, blen_frame, blen_str, fmap_cons.
    unfold sumZ. cbn [foldr].
    change (entrySize (k, oal)) with (12 + slen k + length oal). lia.
Qed.

Lemma consolidateLoop_total d ord :
  Forall (fun e => exists v, readOAL d e.2 = Ok v) ord ->
  forall st, exists st', consolidateLoop d ord st = Ok st'.
Proof.
  induction 1 as [|[k oal] ord [v Hv] _ IH]; intros [[m p] tmp];
    cbn [consolidateLoop]; [eauto|].
  simpl in Hv. rewrite (consolidateStep_ok _ _ _ _ _ _ _ Hv).
  cbn [mbind res_bind]. apply IH.
Qed.

Lemma makeFilebuf_ok f :
  blen f < 2 ^ 62 ->
  exists mlen, makeFilebuf f = Ok mlen /\ blen f <= mlen /\ 0 < mlen.
Proof.
  intros Hf. pose proof (blen_nonneg f).
  unfold makeFilebuf. cbv zeta.
  assert (E : i64 (blen f) = blen f).
  { unfold i64. rewrite Z.mod_small by lia. lia. }
  rewrite E. destruct (decide (blen f < 4000000000)); unfold Mmap.
  - rewrite decide_False by lia. eexists. split; [done | lia].
  - assert (E2 : i64 (blen f * 2) = blen f * 2).
    { unfold i64. rewrite Z.mod_small by lia. lia. }
    rewrite E2. rewrite decide_False by lia. eexists. split; [done | lia].
Qed.

Lemma readable_order d ord :
  readable d -> iteration d ord ->
  Forall (fun e => oal_ok e.2) ord /\
  Forall (fun e => exists v, readOAL d e.2 = Ok v) ord.
Proof.
  unfold readable, iteration. intros [_ Hr] Hp.
  apply map_Forall_to_list in Hr. rewrite <- Hp in Hr.
  split; eapply Forall_impl; try exact Hr; intros [k oal] [? ?]; done.
Qed.

Lemma points_at_readOAL m loc pos tmp buf o v :
  points_at tmp o v -> blen tmp <= buf -> blen tmp < 2 ^ 64 ->
  readOAL (mkDB m loc pos tmp buf) o = Ok v.
Proof.
  intros (pre & post & -> & Ho & Hl) Hb Hlt. destruct o as [off n].
  simpl in Ho, Hl. subst off n.
  rewrite !blen_app in Hlt. pose proof (blen_nonneg post).
  apply readOAL_region; [|done|lia].
  unfold filebuf. simpl. by apply region_mmapOf.
Qed.

(** The state [Consolidate] installs. *)
Lemma Consolidate_spec d ord :
  readable d -> iteration d ord -> liveBytes (kToPos d) < 2 ^ 62 ->
  exists mNew tmp buf,
    Consolidate ord d = Ok (mkDB mNew (location d) (blen tmp) tmp buf) /\
    blen tmp = liveBytes (kToPos d) /\ blen tmp <= buf /\
    (forall k, mNew !! k = None <-> kToPos d !! k = None) /\
    (forall k o', mNew !! k = Some o' ->
       exists oal v, kToPos d !! k = Some oal /\ readOAL d oal = Ok v /\
                     points_at tmp o' v).
Proof.
  intros Hr Hit Hsz. destruct (readable_order _ _ Hr Hit) as [Hok Hrd].
  destruct (consolidateLoop_total d ord Hrd (∅, 0, []))
    as [[[mNew pos] tmp] Hloop].
  pose proof (consolidateLoop_size d ord Hok _ _ Hloop) as Hsize.
  simpl in Hsize. change (blen []) with 0 in Hsize.
  assert (Hlive : sumZ (entrySize <$> ord) = liveBytes (kToPos d)).
  { unfold liveBytes. apply sumZ_perm. by rewrite Hit. }
  rewrite Hlive in Hsize.
  assert (Hloop' : consolidateLoop d ord (∅, blen [], [])
                   = Ok (mNew, pos, tmp)) by exact Hloop.
  destruct (consolidateLoop_spec d ord Hok _ _ _ _ _ Hloop' ltac:(lia))
    as (Hpos & _ & Hnone & Hsome).
  destruct (makeFilebuf_ok tmp ltac:(lia)) as (buf & Hbuf & Hle & _).
  exists mNew, tmp, buf. split_and!.
  - unfold Consolidate. rewrite Hloop. cbn [mbind res_bind].
    unfold Munmap. rewrite decide_False by (destruct Hr; lia).
    cbn [mbind res_bind]. rewrite Hbuf. cbn [mbind res_bind].
    by rewrite Hpos.
  - lia.
  - done.
  - intros k. rewrite Hnone, lookup_empty. split.
    + intros [_ Hk]. destruct (kToPos d !! k) as [oal|] eqn:E; [|done].
      exfalso. apply Hk. apply list_elem_of_fmap. exists (k, oal).
      split; [done|]. rewrite Hit. by apply elem_of_map_to_list.
    + intros Hk. split; [done|]. intros Hin.
      apply list_elem_of_fmap in Hin as ([k' oal] & -> & Hin).
      rewrite Hit in Hin. apply elem_of_map_to_list in Hin. simpl in Hk.
      congruence.
  - intros k o' Hk. apply Hsome in Hk as [Hk|(oal & v & Hin & Hv & Hp)].
    + by rewrite lookup_empty in Hk.
    + exists oal, v. split_and!; [|done..].
      rewrite Hit in Hin. by apply elem_of_map_to_list in Hin.
Qed.

(** C3: [Consolidate] leaves the observable mapping unchanged: on a
    handle whose index can be read, it succeeds, and every [Get]
    returns afterwards what it returned before. *)
Theorem Consolidate_preserves_Get d ord :
  readable d -> iteration d ord -> liveBytes (kToPos d) < 2 ^ 62 ->
  exists d', Consolidate ord d = Ok d' /\ forall k, Get k d' = Get k d.
Proof.
  intros Hr Hit Hsz.
  destruct (Consolidate_spec d ord Hr Hit Hsz)
    as (mNew & tmp & buf & Hc & Hlen & Hbuf & Hnone & Hsome).
  eexists. split; [exact Hc|]. intros k. rewrite !Get_readOAL. simpl.
  destruct (kToPos d !! string_of_list_byte k) as [oal|] eqn:E.
  - destruct (mNew !! string_of_list_byte k) as [o'|] eqn:E'.
    + destruct (Hsome _ _ E') as (oal2 & v & E2 & Hv & Hp).
      assert (oal2 = oal) as -> by congruence.
      rewrite Hv. erewrite points_at_readOAL; [done | done | lia | lia].
    + apply Hnone in E'. congruence.
  - apply Hnone in E. by rewrite E.
Qed.
Lemma tomDick_readable : readable tomDick.
Proof.
  unfold readable. split; [vm_compute; reflexivity|].
  apply map_Forall_to_list.
  assert (E : map_to_list (kToPos tomDick)
              = [("Tom"%string, OAL 62 8); ("Dick"%string, OAL 41 6)])
    by (vm_compute; reflexivity).
  rewrite E. repeat constructor; simpl; try lia;
    eexists; vm_compute; reflexivity.
Qed.

Lemma Consolidate_preserves_Get_witness :
  exists d', Consolidate (map_to_list (kToPos tomDick)) tomDick = Ok d' /\
             forall k, Get k d' = Get k tomDick.
Proof.
  apply (Consolidate_preserves_Get tomDick).
  - exact tomDick_readable.
  - unfold iteration. reflexivity.
  - vm_compute. reflexivity.
Defined.

End ConsolidateCorrect.

(** ** Upsert and Remove *)

Section Mutations.

(** The handle [Upsert] leaves behind, whatever the write did. *)
Lemma Upsert_spec w k v d :
  Upsert w k v d =
  Ok (mkDB (<[string_of_list_byte k := getOAL (filledSize d) k v]> (kToPos d))
           (location d)
           (u64 (filledSize d + u64 (12 + blen k + blen v)))
           (fileWrite w (filehandle d) (frame k v))
           (if decide (u64 (filledSize d + u64 (12 + blen k + blen v))
                       > u64 (filebuffer d))
            then match Mmap (i64 (filebuffer d * 2)) with
                 | Ok mmap => mmap
                 | _ => 0
                 end
            else filebuffer d)).
Proof.
  unfold Upsert. rewrite newDocument_frame. cbn [mbind res_bind].
  by rewrite blen_frame.
Qed.

(** The handle [Remove] leaves behind: the write position is the one
    it found. *)
Lemma Remove_spec w k d :
  Remove w k d =
  Ok (mkDB (delete (string_of_list_byte k) (kToPos d)) (location d)
           (filledSize d) (fileWrite w (filehandle d) (frame k []))
           (filebuffer d)).
Proof. unfold Remove. by rewrite newDocument_frame. Qed.

(** [Upsert] keeps the write position at the end of the file. *)
Lemma Upsert_filledSize k v d d' :
  filledSize d = blen (filehandle d) ->
  blen (filehandle d) + 12 + blen k + blen v < 2 ^ 64 ->
  Upsert Written k v d = Ok d' ->
  filledSize d' = blen (filehandle d').
Proof.
  intros Hf Hlt. rewrite Upsert_spec. intros [= <-]. simpl.
  pose proof (blen_nonneg (filehandle d)).
  pose proof (blen_nonneg k). pose proof (blen_nonneg v).
  rewrite blen_app, blen_frame, Hf. unfold u64.
  rewrite (Z.mod_small (12 + _ + _)) by lia. apply Z.mod_small. lia.
Qed.

(** [Remove] appends a record and leaves the write position behind. *)
Lemma Remove_filledSize k d :
  exists d', Remove Written k d = Ok d' /\
             filledSize d' = filledSize d /\
             blen (filehandle d') = blen (filehandle d) + 12 + blen k.
Proof.
  rewrite Remove_spec. eexists. split; [done|]. simpl. split; [done|].
  rewrite blen_app, blen_frame. change (blen []) with 0. lia.
Qed.

(** X28: read-your-writes holds for [Upsert] on a handle whose write position
    is the end of its file, when the record fits the memory map. *)
Lemma Get_after_Upsert k v d :
  filledSize d = blen (filehandle d) ->
  blen v < 2 ^ 32 ->
  blen (filehandle d) + 12 + blen k + blen v <= filebuffer d ->
  filebuffer d < 2 ^ 64 ->
  exists d', Upsert Written k v d = Ok d' /\
             Get k d' = Ok (string_of_list_byte v, true).
Proof.
  intros Hf Hv Hfit Hbuf. rewrite Upsert_spec. eexists. split; [done|].
  pose proof (blen_nonneg (filehandle d)).
  pose proof (blen_nonneg k). pose proof (blen_nonneg v).
  rewrite Get_readOAL. cbn [kToPos]. rewrite lookup_insert_eq.
  assert (E1 : u64 (filledSize d + u64 (12 + blen k + blen v))
               = blen (filehandle d) + 12 + blen k + blen v).
  { rewrite Hf. unfold u64. rewrite (Z.mod_small (12 + _ + _)) by lia.
    rewrite Z.mod_small by lia. lia. }
  assert (E2 : u64 (filebuffer d) = filebuffer d)
    by (apply Z.mod_small; lia).
  rewrite E1, E2. rewrite decide_False by lia.
  erewrite points_at_readOAL; [done | | simpl; rewrite blen_app, blen_frame; lia
                              | simpl; rewrite blen_app, blen_frame; lia].
  unfold points_at, getOAL, fileWrite. simpl.
  exists (filehandle d ++ take 12 (frame k v) ++ k), [].
  split_and!.
  - unfold frame, frame_body. rewrite app_nil_r, <- !app_assoc. done.
  - rewrite Hf, !blen_app. change (blen (take 12 (frame k v))) with 12.
    unfold u64. rewrite (Z.mod_small (blen k)) by lia.
    rewrite Z.mod_small by lia. lia.
  - apply Z.mod_small. lia.
Qed.

(** X29: read-your-writes holds for [Remove] on every handle, whatever
    the write does: [Get] of the removed key answers absent. *)
Lemma Get_after_Remove w k d :
  exists d', Remove w k d = Ok d' /\ Get k d' = Ok (EmptyString, false).
Proof.
  rewrite Remove_spec. eexists. split; [done|].
  unfold Get. simpl. by rewrite lookup_delete_eq.
Qed.

(** C1, at the failing input [NewDB; Remove("a"); Upsert("b",
    "xxxxxxxx"); Get("b")]: the value read back is not the one written
    but the checksum and key-length fields of the record, because
    [Remove] left the write position 13 bytes behind the end of the
    file. *)
Theorem Get_after_Remove_then_Upsert :
  (d ← NewDB "db";
   d ← Remove Written (str "a") d;
   d ← Upsert Written (str "b") (str "xxxxxxxx") d;
   Get (str "b") d)
  = Ok (string_of_list_byte
          (le32 (CRC32.Checksum (frame_body (str "b") (str "xxxxxxxx"))
                                crcTable)
           ++ le32 1), true)
  /\ string_of_list_byte
       (le32 (CRC32.Checksum (frame_body (str "b") (str "xxxxxxxx"))
                             crcTable)
        ++ le32 1) <> "xxxxxxxx"%string.
Proof. split; [vm_compute; reflexivity | vm_compute; discriminate]. Qed.

(** C2, at the failing input [NewDB; Remove("a")]: the data file holds
    the 13 bytes of the tombstone, the write position is still 0. *)
Theorem Remove_write_position_behind :
  (d ← NewDB "db";
   d ← Remove Written (str "a") d;
   Ok (filledSize d, blen (filehandle d)))
  = Ok (0, 13).
Proof. vm_compute. reflexivity. Qed.

(** C7, at the failing input [NewDB; Upsert("a", "")]: the index holds
    a pointer of length zero for the key, and [Get] reports the key as
    present. *)
Theorem Upsert_empty_value_indexed :
  (d ← NewDB "db";
   d ← Upsert Written (str "a") [] d;
   r ← Get (str "a") d;
   Ok (kToPos d !! "a"%string, r))
  = Ok (Some (OAL 13 0), (EmptyString, true)).
Proof. vm_compute. reflexivity. Qed.

(** An empty value is indexed with length zero on every handle. *)
Lemma Upsert_empty_value w k d :
  exists d', Upsert w k [] d = Ok d' /\
             exists off, kToPos d' !! string_of_list_byte k
                         = Some (OAL off 0).
Proof.
  rewrite Upsert_spec. eexists. split; [done|]. simpl.
  rewrite lookup_insert_eq. unfold getOAL. eauto.
Qed.

(** C6, as the code has it: [Upsert] and [Remove] have no error result.
    When the append fails after [n] bytes, both return normally and
    change the index as they do when it succeeds: [Upsert] stores the
    pointer and advances the write position by the full record size,
    [Remove] deletes the key; only the file is short of the record. *)
Theorem failed_write_is_not_surfaced n k v d :
  (exists d',
     Upsert (Failed n) k v d = Ok d' /\
     kToPos d' = <[string_of_list_byte k := getOAL (filledSize d) k v]>
                   (kToPos d) /\
     filledSize d' = u64 (filledSize d + u64 (12 + blen k + blen v)) /\
     filehandle d' = filehandle d ++ take n (frame k v)) /\
  (exists d',
     Remove (Failed n) k d = Ok d' /\
     kToPos d' = delete (string_of_list_byte k) (kToPos d) /\
     filledSize d' = filledSize d /\
     filehandle d' = filehandle d ++ take n (frame k [])).
Proof.
  split.
  - rewrite Upsert_spec. eexists. split; [done|]. done.
  - rewrite Remove_spec. eexists. split; [done|]. done.
Qed.

(** C6 fails as stated: on a fresh handle, an [Upsert] whose append
    fails before any byte is written returns no error, leaves the file
    empty and yet puts the key in the index. *)
Lemma failed_write_updates_index :
  exists d d',
    NewDB "db" = Ok d /\
    Upsert (Failed 0) (str "a") (str "x") d = Ok d' /\
    ~ (exists e, Upsert (Failed 0) (str "a") (str "x") d = Err e) /\
    filehandle d' = filehandle d /\
    kToPos d !! "a"%string = None /\
    kToPos d' !! "a"%string = Some (OAL 13 1).
Proof.
  eexists. eexists. split; [vm_compute; reflexivity|].
  split; [vm_compute; reflexivity|].
  split; [intros [e He]; vm_compute in He; discriminate|].
  split; [vm_compute; reflexivity|].
  split; vm_compute; reflexivity.
Qed.

End Mutations.

(** ** The consolidated file *)

Section Compaction.

(** The temporary file grows by one frame per entry of the index, in
    the order of the iteration. *)
Lemma consolidateLoop_file d ord :
  forall st st',
    consolidateLoop d ord st = Ok st' ->
    exists vs,
      Forall2 (fun e v => readOAL d e.2 = Ok v) ord vs /\
      st'.2 = st.2 ++ concat (zip_with
                (fun e v => frame (list_byte_of_string e.1) v) ord vs).
Proof.
  induction ord as [|[k oal] ord IH]; intros [[m p] tmp] st';
    cbn [consolidateLoop].
  - intros [= <-]. exists []. split; [constructor|].
    simpl. by rewrite app_nil_r.
  - destruct (consolidateStep d (m, p, tmp) (k, oal)) as [st1| |] eqn:E;
      cbn [mbind res_bind]; try done.
    intros H. apply IH in H as (vs & Hvs & Hfile).
    destruct (consolidateStep_inv _ _ _ _ _ _ _ E) as [v Hv].
    rewrite (consolidateStep_ok _ _ _ _ _ _ _ Hv) in E.
    injection E as <-. exists (v :: vs). split; [by constructor|].
    rewrite Hfile. simpl. by rewrite <- app_assoc.
Qed.

(** After [Consolidate] the file is the frames of the indexed keys, one
    each, and its length and the write position are the sum of their
    sizes. *)
Lemma Consolidate_compacts d ord :
  readable d -> iteration d ord -> liveBytes (kToPos d) < 2 ^ 62 ->
  exists d' vs,
    Consolidate ord d = Ok d' /\
    Forall2 (fun e v => readOAL d e.2 = Ok v) ord vs /\
    filehandle d' = concat (zip_with
                      (fun e v => frame (list_byte_of_string e.1) v)
                      ord vs) /\
    blen (filehandle d') = liveBytes (kToPos d) /\
    filledSize d' = liveBytes (kToPos d).
Proof.
  intros Hr Hit Hsz.
  destruct (Consolidate_spec d ord Hr Hit Hsz)
    as (mNew & tmp & buf & Hc & Hlen & _).
  pose proof Hc as Hc'. unfold Consolidate in Hc'.
  destruct (consolidateLoop d ord (∅, 0, [])) as [[[m p] t]| |] eqn:Hloop;
    cbn [mbind res_bind] in Hc'; try done.
  destruct (Munmap (filebuffer d)) as [[]| |];
    cbn [mbind res_bind] in Hc'; try done.
  destruct (makeFilebuf t) as [b| |]; cbn [mbind res_bind] in Hc'; try done.
  injection Hc' as -> _ -> _.
  destruct (consolidateLoop_file _ _ _ _ Hloop) as (vs & Hvs & Hfile).
  simpl in Hfile.
  eexists; exists vs. split; [exact Hc|]. simpl. by rewrite Hlen.
Qed.

(** C8, at the failing input [NewDB; Upsert("a", ""); Consolidate]:
    the key is live, since [Get] reports it present, and the
    consolidated file is one record whose value-length field is zero,
    that is, a tombstone. *)
Theorem Consolidate_writes_tombstone :
  exists d d',
    (d ← NewDB "db"; Upsert Written (str "a") [] d) = Ok d /\
    Get (str "a") d = Ok (EmptyString, true) /\
    Consolidate (map_to_list (kToPos d)) d = Ok d' /\
    filehandle d' = frame (str "a") [] /\
    le_value (take 4 (drop 8 (filehandle d'))) = 0.
Proof.
  eexists. eexists. split; [vm_compute; reflexivity|].
  split; [vm_compute; reflexivity|].
  split; [vm_compute; reflexivity|].
  split; vm_compute; reflexivity.
Qed.

End Compaction.

(** ** The verifying scan *)

Section Scan.

Lemma readAll_region s l :
  region s 0 l -> len s = blen l -> readAll s = Ok l.
Proof.
  intros Hr Hl. unfold readAll. rewrite Hl. unfold blen.
  rewrite Nat2Z.id. by apply region_readFrom.
Qed.

(** One turn of the scan over a whole record: [c] in the checksum
    field, then the frame body of [k] and [v]. *)
Lemma verifyStep_record s m pos c k v :
  region s pos (le32 c ++ frame_body k v) ->
  0 <= c < 2 ^ 32 -> blen k < 2 ^ 32 -> blen v < 2 ^ 32 ->
  pos + 12 + blen k + blen v < 2 ^ 64 ->
  verifyStep s m pos =
  Ok (if bool_decide (c = CRC32.Checksum (frame_body k v) crcTable)
      then Some (applyRecord m pos k v, pos + 12 + blen k + blen v)
      else None).
Proof.
  intros Hr Hc Hk Hv Hlt.
  pose proof (blen_nonneg k). pose proof (blen_nonneg v).
  pose proof Hr as (Hpos & Hlen & _).
  assert (Hbody : blen (frame_body k v) = 8 + blen k + blen v).
  { unfold frame_body. rewrite !blen_app, !blen_le32. lia. }
  rewrite blen_app, blen_le32, Hbody in Hlen.
  pose proof Hr as Hr'. unfold frame_body in Hr'.
  apply region_app in Hr' as [_ Hr']. rewrite blen_le32 in Hr'.
  apply region_app in Hr' as [Hrk Hr']. rewrite blen_le32 in Hr'.
  apply region_app in Hr' as [Hrv Hr']. rewrite blen_le32 in Hr'.
  apply region_app in Hr' as [Hkey _].
  assert (Ek : u32 (blen k) = blen k) by (apply Z.mod_small; lia).
  assert (Ev : u32 (blen v) = blen v) by (apply Z.mod_small; lia).
  assert (Hu : forall z, 0 <= z < 2 ^ 64 -> u64 z = z)
    by (intros; apply Z.mod_small; lia).
  unfold verifyStep.
  rewrite (Hu (pos + 4)), (Hu (pos + 8)), (Hu (pos + 12)) by lia.
  unfold le32 in Hrk, Hrv.
  rewrite (uint32FromBytes_region _ _ _ _ _ _ Hrk) by lia.
  cbn [mbind res_bind].
  replace (pos + 4 + 4) with (pos + 8) in Hrv by lia.
  rewrite (uint32FromBytes_region _ _ _ _ _ _ Hrv) by lia.
  cbn [mbind res_bind].
  change (le_value [z2b (u32 (blen k)); z2b (Z.shiftr (u32 (blen k)) 8);
                    z2b (Z.shiftr (u32 (blen k)) 16);
                    z2b (Z.shiftr (u32 (blen k)) 24)])
    with (le_value (le32 (u32 (blen k)))).
  change (le_value [z2b (u32 (blen v)); z2b (Z.shiftr (u32 (blen v)) 8);
                    z2b (Z.shiftr (u32 (blen v)) 16);
                    z2b (Z.shiftr (u32 (blen v)) 24)])
    with (le_value (le32 (u32 (blen v)))).
  rewrite !le_value_le32, Ek, Ev, Ek, Ev.
  rewrite (Hu (blen k)), (Hu (blen v)) by lia.
  rewrite (Hu (12 + blen k + blen v)) by lia.
  rewrite (Hu (pos + 12 + blen k)), (Hu (pos + 12 + blen k + blen v)),
    (Hu (pos + (12 + blen k + blen v))) by lia.
  destruct (subslice_ok s (pos + 12) (pos + 12 + blen k)) as [ks Hks];
    [lia..|].
  destruct (subslice_ok s pos (pos + 12 + blen k + blen v)) as [doc Hdoc];
    [lia..|].
  rewrite Hks, Hdoc. cbn [mbind res_bind].
  assert (Hd : region doc 0 (le32 c ++ frame_body k v)).
  { eapply region_subslice; [exact Hdoc | lia | |].
    - rewrite blen_app, blen_le32, Hbody. lia.
    - by rewrite Z.add_0_r. }
  rewrite (checkDocument_region doc (z2b c) (z2b (Z.shiftr c 8))
             (z2b (Z.shiftr c 16)) (z2b (Z.shiftr c 24))
             (frame_body k v) Hd)
    by (rewrite (subslice_len _ _ _ _ Hdoc), Hbody; lia).
  cbn [mbind res_bind].
  change (le_value [z2b c; z2b (Z.shiftr c 8); z2b (Z.shiftr c 16);
                    z2b (Z.shiftr c 24)]) with (le_value (le32 c)).
  rewrite le_value_le32.
  replace (u32 c) with c by (symmetry; apply Z.mod_small; lia).
  destruct (bool_decide (c = _)); [|done].
  assert (Hkr : region ks 0 k).
  { eapply region_subslice; [exact Hks | lia | lia |].
    rewrite Z.add_0_r. replace (pos + 12) with (pos + 4 + 4 + 4) by lia.
    done. }
  rewrite (readAll_region ks k Hkr)
    by (rewrite (subslice_len _ _ _ _ Hks); lia).
  cbn [mbind res_bind]. unfold applyRecord.
  replace (pos + (12 + blen k + blen v))
    with (pos + 12 + blen k + blen v) by lia.
  reflexivity.
Qed.
Lemma verifyStep_frame s m pos k v :
  region s pos (frame k v) -> rec_ok (k, v) ->
  pos + 12 + blen k + blen v < 2 ^ 64 ->
  verifyStep s m pos
  = Ok (Some (applyRecord m pos k v, pos + 12 + blen k + blen v)).
Proof.
  intros Hr [Hk Hv] Hlt. simpl in Hk, Hv.
  rewrite (verifyStep_record s m pos _ k v Hr (Checksum_range _) Hk Hv Hlt).
  by rewrite bool_decide_eq_true_2.
Qed.

Lemma blen_encode_cons k v recs :
  blen (encode ((k, v) :: recs))
  = 12 + blen k + blen v + blen (encode recs).
Proof.
  unfold encode. cbn [map concat fst snd].
  rewrite blen_app, blen_frame. done.
Qed.

Lemma blen_encode_nonneg recs : 0 <= blen (encode recs).
Proof. apply blen_nonneg. Qed.

Lemma replay_pos recs m pos :
  (replay recs m pos).2 = pos + blen (encode recs).
Proof.
  revert m pos. induction recs as [|[k v] recs IH]; intros m pos; simpl.
  - change (blen (encode [])) with 0. lia.
  - rewrite IH, blen_encode_cons. lia.
Qed.

(** The scan walks over a run of whole, valid records as [replay] does. *)
Lemma verifyLoop_records s fLen recs :
  Forall rec_ok recs ->
  forall fuel m pos,
    region s pos (encode recs) ->
    pos + blen (encode recs) <= fLen -> fLen < 2 ^ 64 ->
    verifyLoop (List.length recs + fuel) s fLen m pos
    = verifyLoop fuel s fLen (replay recs m pos).1 (replay recs m pos).2.
Proof.
  induction 1 as [|[k v] recs Hok _ IH]; intros fuel m pos Hr Hle Hlt;
    [done|].
  rewrite blen_encode_cons in Hle.
  pose proof (blen_encode_nonneg recs).
  pose proof (blen_nonneg k). pose proof (blen_nonneg v).
  pose proof Hr as (Hpos & _).
  unfold encode in Hr. cbn [map concat fst snd] in Hr.
  apply region_app in Hr as [Hf Hrest].
  rewrite blen_frame in Hrest.
  cbn [List.length Nat.add verifyLoop]. rewrite decide_True by lia.
  rewrite (verifyStep_frame s m pos k v Hf Hok) by lia.
  cbn [replay]. apply IH; [|lia|lia].
  replace (pos + 12 + blen k + blen v) with (pos + (12 + blen k + blen v))
    by lia.
  exact Hrest.
Qed.

End Scan.

(** ** Reading past the end of the file *)

Section PastEOF.

Lemma take_drop_split (f : bytes) (i n : nat) :
  f = take i f ++ take n (drop i f) ++ drop (i + n) f.
Proof.
  rewrite <- (take_drop i f) at 1. f_equal.
  rewrite <- (take_drop n (drop i f)) at 1. f_equal.
  by rewrite drop_drop.
Qed.

Lemma region_take_drop (f : bytes) i n :
  0 <= i -> 0 <= n -> i + n <= blen f ->
  region (ofBytes f) i (take (Z.to_nat n) (drop (Z.to_nat i) f)).
Proof.
  intros Hi Hn Hle.
  pose proof (region_ofBytes (take (Z.to_nat i) f)
                (take (Z.to_nat n) (drop (Z.to_nat i) f))
                (drop (Z.to_nat i + Z.to_nat n) f)) as H.
  rewrite <- take_drop_split in H.
  replace (blen (take (Z.to_nat i) f)) with i in H; [done|].
  unfold blen in *. rewrite length_take. lia.
Qed.

Lemma uint32FromBytes_inside (f : bytes) i :
  0 <= i -> i + 4 <= blen f -> i + 3 < 2 ^ 64 ->
  uint32FromBytes (ofBytes f) i
  = Ok (le_value (take 4 (drop (Z.to_nat i) f))).
Proof.
  intros Hi Hle Hlt.
  pose proof (region_take_drop f i 4 Hi ltac:(lia) Hle) as Hr.
  change (Z.to_nat 4) with 4%nat in Hr.
  assert (Hl : List.length (take 4 (drop (Z.to_nat i) f)) = 4%nat).
  { rewrite length_take, length_drop. unfold blen in Hle. lia. }
  destruct (take 4 (drop (Z.to_nat i) f))
    as [|b0 [|b1 [|b2 [|b3 [|]]]]]; try done.
  by apply uint32FromBytes_region.
Qed.

Lemma uint32FromBytes_outside (f : bytes) i :
  0 <= i -> blen f < i + 4 -> i + 3 < 2 ^ 64 ->
  uint32FromBytes (ofBytes f) i = Crash Panic.
Proof.
  intros Hi Hle Hlt.
  assert (Hu : forall n, 0 <= n <= 3 -> u64 (i + n) = i + n)
    by (intros n Hn; apply Z.mod_small; lia).
  unfold uint32FromBytes. rewrite !Hu by lia. simpl.
  repeat (case_decide; cbn [mbind res_bind]; try done); lia.
Qed.

Lemma length_encode recs :
  Z.of_nat (List.length recs) <= blen (encode recs).
Proof.
  induction recs as [|[k v] recs IH]; [done|].
  rewrite blen_encode_cons. cbn [List.length].
  pose proof (blen_nonneg k). pose proof (blen_nonneg v). lia.
Qed.

(** With the kernel's bytes past the end of the file, [mapWith] is the
    memory map. *)
Lemma mmapOf_mapWith file mmapLen :
  mmapOf file mmapLen = mapWith file (pastOf (blen file)) mmapLen.
Proof. reflexivity. Qed.

(** [OpenAndVerifyDB] is [scanOver] with the kernel's bytes past the end
    of the file. *)
Lemma OpenAndVerifyDB_scanOver loc (fs : FS) mmapLen :
  makeFilebuf (readFile fs loc) = Ok mmapLen ->
  OpenAndVerifyDB loc fs
  = match scanOver (readFile fs loc) (pastOf (blen (readFile fs loc))) with
    | Some (Ok (m, pos, e)) =>
        Some (Ok (mkDB m loc pos (readFile fs loc) mmapLen, e))
    | Some (Err e) => Some (Err e)
    | Some (Crash c) => Some (Crash c)
    | None => None
    end.
Proof.
  intros H. unfold OpenAndVerifyDB, scanOver. cbv zeta. rewrite H.
  reflexivity.
Qed.

Lemma mapWith_inside file past mmapLen i :
  0 <= i < blen file -> blen file <= mmapLen ->
  rd (mapWith file past mmapLen) i = Ok (nth (Z.to_nat i) file x00).
Proof. intros Hi Hm. simpl. by rewrite !decide_True by lia. Qed.

Lemma mapWith_past file past mmapLen i :
  blen file <= i < mmapLen ->
  rd (mapWith file past mmapLen) i = past i.
Proof.
  intros Hi. pose proof (blen_nonneg file). simpl.
  rewrite decide_True by lia. by rewrite decide_False by lia.
Qed.

Lemma region_mapWith pre l post past mlen :
  blen (pre ++ l ++ post) <= mlen ->
  region (mapWith (pre ++ l ++ post) past mlen) (blen pre) l.
Proof.
  intros Hm. unfold region. simpl. rewrite !blen_app in Hm.
  pose proof (blen_nonneg pre). pose proof (blen_nonneg post).
  split_and!; [lia | lia |]. intros i Hi.
  rewrite decide_True by (unfold blen in *; lia).
  rewrite decide_True by (rewrite !blen_app; unfold blen in *; lia).
  f_equal. unfold blen. rewrite <- Nat2Z.inj_add, Nat2Z.id.
  rewrite app_nth2_plus. by rewrite app_nth1.
Qed.

Lemma uint32FromBytes_mapWith file past mlen i :
  0 <= i -> i + 4 <= blen file -> blen file <= mlen -> i + 3 < 2 ^ 64 ->
  uint32FromBytes (mapWith file past mlen) i
  = Ok (le_value (take 4 (drop (Z.to_nat i) file))).
Proof.
  intros Hi Hle Hm Hlt.
  pose proof (region_mapWith (take (Z.to_nat i) file)
                (take 4 (drop (Z.to_nat i) file))
                (drop (Z.to_nat i + 4) file) past mlen) as Hr.
  rewrite <- take_drop_split in Hr. specialize (Hr Hm).
  replace (blen (take (Z.to_nat i) file)) with i in Hr
    by (unfold blen in *; rewrite length_take; lia).
  assert (Hl : List.length (take 4 (drop (Z.to_nat i) file)) = 4%nat).
  { rewrite length_take, length_drop. unfold blen in Hle. lia. }
  destruct (take 4 (drop (Z.to_nat i) file))
    as [|b0 [|b1 [|b2 [|b3 [|]]]]]; try done.
  by apply uint32FromBytes_region.
Qed.

(** A read of four bytes ends in the fault of the first byte that
    faults. *)
Lemma uint32FromBytes_fault s i j c :
  0 <= i -> i + 3 < 2 ^ 64 -> 0 <= j <= 3 ->
  (forall j', 0 <= j' < j -> exists b, rd s (i + j') = Ok b) ->
  rd s (i + j) = Crash c ->
  uint32FromBytes s i = Crash c.
Proof.
  intros Hi Hlt Hj Hbefore Hat.
  assert (Hu : forall n, 0 <= n <= 3 -> u64 (i + n) = i + n)
    by (intros n Hn; apply Z.mod_small; lia).
  unfold uint32FromBytes. rewrite !Hu by lia.
  replace (rd s i) with (rd s (i + 0)) by (f_equal; lia).
  assert (Hcases : j = 0 \/ j = 1 \/ j = 2 \/ j = 3) by lia.
  destruct Hcases as [->|[->|[->| ->]]].
  - by rewrite Hat.
  - destruct (Hbefore 0 ltac:(lia)) as [b0 ->]. cbn [mbind res_bind].
    by rewrite Hat.
  - destruct (Hbefore 0 ltac:(lia)) as [b0 ->].
    destruct (Hbefore 1 ltac:(lia)) as [b1 ->]. cbn [mbind res_bind].
    by rewrite Hat.
  - destruct (Hbefore 0 ltac:(lia)) as [b0 ->].
    destruct (Hbefore 1 ltac:(lia)) as [b1 ->].
    destruct (Hbefore 2 ltac:(lia)) as [b2 ->]. cbn [mbind res_bind].
    by rewrite Hat.
Qed.

(** Reading a run of bytes ends in the fault of the first byte that
    faults. *)
Lemma readFrom_fault (r : Z -> res byte) c n :
  forall i (j : nat),
    (j < n)%nat ->
    (forall j' : nat, (j' < j)%nat -> exists b, r (i + Z.of_nat j') = Ok b) ->
    r (i + Z.of_nat j) = Crash c ->
    readFrom r i n = Crash c.
Proof.
  induction n as [|n IH]; intros i j Hj Hbefore Hat; [lia|].
  cbn [readFrom]. destruct j as [|j].
  - replace (i + Z.of_nat 0) with i in Hat by lia. by rewrite Hat.
  - destruct (Hbefore 0%nat ltac:(lia)) as [b Hb].
    replace (i + Z.of_nat 0) with i in Hb by lia. rewrite Hb.
    cbn [mbind res_bind].
    rewrite (IH (i + 1) j); [reflexivity | lia | |].
    + intros j' Hj'. destruct (Hbefore (S j') ltac:(lia)) as [b' Hb'].
      exists b'. rewrite <- Hb'. f_equal. lia.
    + rewrite <- Hat. f_equal. lia.
Qed.

Lemma kLenAt_range file pos : 0 <= kLenAt file pos < 2 ^ 32.
Proof.
  unfold kLenAt.
  pose proof (le_value_range (take 4 (drop (Z.to_nat (pos + 4)) file))) as Hr.
  pose proof (blen_nonneg (take 4 (drop (Z.to_nat (pos + 4)) file))).
  assert (blen (take 4 (drop (Z.to_nat (pos + 4)) file)) <= 4)
    by (unfold blen; rewrite length_take; lia).
  assert (256 ^ blen (take 4 (drop (Z.to_nat (pos + 4)) file)) <= 256 ^ 4)
    by (apply Z.pow_le_mono_r; lia).
  lia.
Qed.

Lemma vLenAt_range file pos : 0 <= vLenAt file pos < 2 ^ 32.
Proof.
  unfold vLenAt.
  pose proof (le_value_range (take 4 (drop (Z.to_nat (pos + 8)) file))) as Hr.
  pose proof (blen_nonneg (take 4 (drop (Z.to_nat (pos + 8)) file))).
  assert (blen (take 4 (drop (Z.to_nat (pos + 8)) file)) <= 4)
    by (unfold blen; rewrite length_take; lia).
  assert (256 ^ blen (take 4 (drop (Z.to_nat (pos + 8)) file)) <= 256 ^ 4)
    by (apply Z.pow_le_mono_r; lia).
  lia.
Qed.

(** At a truncated record whose announced end lies within the map, one
    turn of the scan reads the map at [firstPast], at or after the end of
    the file, before anything else there: when that read faults, the
    turn ends in its fault, whatever the map holds past the file. *)
Lemma verifyStep_cut file past mlen m pos c :
  blen file < 2 ^ 62 -> blen file <= mlen ->
  truncatedAt file pos ->
  pos + 12 + kLenAt file pos + vLenAt file pos <= mlen ->
  past (firstPast file pos) = Crash c ->
  verifyStep (mapWith file past mlen) m pos = Crash c.
Proof.
  intros Hf Hm [Hpos Htr] Hend Hpast. unfold firstPast in Hpast.
  pose proof (kLenAt_range file pos) as Hk.
  pose proof (vLenAt_range file pos) as Hv.
  assert (Hu : forall z, 0 <= z < 2 ^ 64 -> u64 z = z)
    by (intros; apply Z.mod_small; lia).
  assert (Hin : forall i, 0 <= i < blen file ->
            exists b, rd (mapWith file past mlen) i = Ok b).
  { intros i Hi. rewrite mapWith_inside by lia. eauto. }
  unfold verifyStep. rewrite (Hu (pos + 4)), (Hu (pos + 8)) by lia.
  destruct (decide (blen file < pos + 8)) as [H8|H8].
  { (* the key length field is cut *)
    rewrite (uint32FromBytes_fault _ (pos + 4)
               (Z.max (pos + 4) (blen file) - (pos + 4)) c);
      [reflexivity | lia | lia | lia | |].
    - intros j' Hj'. apply Hin. lia.
    - replace (pos + 4 + (Z.max (pos + 4) (blen file) - (pos + 4)))
        with (Z.max (pos + 4) (blen file)) by lia.
      rewrite mapWith_past by lia. exact Hpast. }
  rewrite (uint32FromBytes_mapWith file past mlen (pos + 4)) by lia.
  cbn [mbind res_bind]. rewrite Z.max_r in Hpast by lia.
  destruct (decide (blen file < pos + 12)) as [H12|H12].
  { (* the value length field is cut *)
    rewrite (uint32FromBytes_fault _ (pos + 8) (blen file - (pos + 8)) c);
      [reflexivity | lia | lia | lia | |].
    - intros j' Hj'. apply Hin. lia.
    - replace (pos + 8 + (blen file - (pos + 8))) with (blen file) by lia.
      rewrite mapWith_past by lia. exact Hpast. }
  (* the header is whole: the body is cut *)
  rewrite (uint32FromBytes_mapWith file past mlen (pos + 8)) by lia.
  cbn [mbind res_bind]. fold (kLenAt file pos). fold (vLenAt file pos).
  rewrite (Hu (kLenAt file pos)), (Hu (vLenAt file pos)) by lia.
  rewrite (Hu (pos + 12)), (Hu (pos + 12 + kLenAt file pos)),
    (Hu (pos + 12 + kLenAt file pos + vLenAt file pos)) by lia.
  set (s := mapWith file past mlen).
  set (kl := kLenAt file pos) in *. set (vl := vLenAt file pos) in *.
  destruct (subslice_ok s (pos + 12) (pos + 12 + kl)) as [ks Eks];
    [lia | lia | simpl; lia |].
  destruct (subslice_ok s pos (pos + 12 + kl + vl)) as [doc Edoc];
    [lia | lia | simpl; lia |].
  rewrite Eks, Edoc. cbn [mbind res_bind].
  assert (Hdoc : forall i, 0 <= i < 12 + kl + vl -> rd doc i = rd s (pos + i)).
  { intros i Hi. unfold subslice in Edoc. case_decide; [|done].
    injection Edoc as <-. cbn [rd]. by rewrite decide_True by lia. }
  assert (Hlen : len doc = 12 + kl + vl).
  { rewrite (subslice_len _ _ _ _ Edoc). lia. }
  assert (Echk : checkDocument doc = Crash c); [|by rewrite Echk].
  unfold checkDocument.
  assert (Hsum : exists cs, uint32FromBytes doc 0 = Ok cs).
  { assert (Hu1 : forall n, 0 <= n <= 3 -> u64 (0 + n) = n)
      by (intros n Hn; apply Z.mod_small; lia).
    unfold uint32FromBytes. rewrite !Hu1 by lia.
    rewrite !Hdoc by lia. unfold s.
    destruct (Hin (pos + 0) ltac:(lia)) as [b0 ->].
    destruct (Hin (pos + 1) ltac:(lia)) as [b1 ->].
    destruct (Hin (pos + 2) ltac:(lia)) as [b2 ->].
    destruct (Hin (pos + 3) ltac:(lia)) as [b3 ->].
    cbn [mbind res_bind]. eauto. }
  destruct Hsum as [cs ->]. cbn [mbind res_bind].
  unfold slice_from.
  destruct (subslice_ok doc 4 (len doc)) as [body Ebody]; [lia..|].
  rewrite Ebody. cbn [mbind res_bind].
  assert (Hbody : forall i, 0 <= i < 8 + kl + vl ->
            rd body i = rd s (pos + 4 + i)).
  { intros i Hi. unfold subslice in Ebody. case_decide; [|done].
    injection Ebody as <-. cbn [rd]. rewrite decide_True by lia.
    rewrite Hdoc by lia. f_equal. lia. }
  assert (Hbl : len body = 8 + kl + vl).
  { rewrite (subslice_len _ _ _ _ Ebody). lia. }
  unfold readAll. rewrite Hbl.
  rewrite (readFrom_fault (rd body) c (Z.to_nat (8 + kl + vl)) 0
             (Z.to_nat (blen file - (pos + 4))));
    [reflexivity | lia | |].
  - intros j' Hj'. rewrite Z.add_0_l, Hbody by lia. apply Hin. lia.
  - rewrite Z.add_0_l, Hbody by lia.
    replace (pos + 4 + Z.of_nat (Z.to_nat (blen file - (pos + 4))))
      with (blen file) by lia.
    unfold s. rewrite mapWith_past by lia. exact Hpast.
Qed.

Lemma uint32FromBytes_below s t i :
  below s t ->
  uint32FromBytes s i = Crash SigBus
  \/ uint32FromBytes s i = uint32FromBytes t i.
Proof.
  intros [_ H]. unfold uint32FromBytes.
  destruct (H i) as [->| ->]; [by left|].
  destruct (rd t i) as [b0| |]; cbn [mbind res_bind]; [|by right..].
  destruct (H (u64 (i + 1))) as [->| ->]; [by left|].
  destruct (rd t (u64 (i + 1))) as [b1| |]; cbn [mbind res_bind];
    [|by right..].
  destruct (H (u64 (i + 2))) as [->| ->]; [by left|].
  destruct (rd t (u64 (i + 2))) as [b2| |]; cbn [mbind res_bind];
    [|by right..].
  destruct (H (u64 (i + 3))) as [->| ->]; [by left|].
  by right.
Qed.

Lemma subslice_below s t lo hi :
  below s t ->
  (subslice s lo hi = Crash Panic /\ subslice t lo hi = Crash Panic)
  \/ exists s' t', subslice s lo hi = Ok s' /\ subslice t lo hi = Ok t'
                   /\ below s' t'.
Proof.
  intros [Hl H]. unfold subslice. rewrite <- Hl.
  case_decide; [right|by left].
  eexists _, _. split_and!; [reflexivity..|].
  split; [reflexivity|]. intros i. cbn [rd].
  case_decide; [apply H|by right].
Qed.

Lemma readFrom_below (r1 r2 : Z -> res byte) n :
  (forall i, r1 i = Crash SigBus \/ r1 i = r2 i) ->
  forall i, readFrom r1 i n = Crash SigBus
            \/ readFrom r1 i n = readFrom r2 i n.
Proof.
  intros H. induction n as [|n IH]; intros i; cbn [readFrom]; [by right|].
  destruct (H i) as [->| ->]; [by left|].
  destruct (r2 i) as [b| |]; cbn [mbind res_bind]; [|by right..].
  destruct (IH (i + 1)) as [->| ->]; [by left|by right].
Qed.

Lemma checkDocument_below s t :
  below s t ->
  checkDocument s = Crash SigBus \/ checkDocument s = checkDocument t.
Proof.
  intros Hb. unfold checkDocument.
  destruct (uint32FromBytes_below s t 0 Hb) as [->| ->]; [by left|].
  destruct (uint32FromBytes t 0) as [cs| |]; cbn [mbind res_bind];
    [|by right..].
  unfold slice_from. destruct Hb as [Hl H]. rewrite <- Hl.
  destruct (subslice_below s t 4 (len s) (conj Hl H))
    as [[-> ->]|(s' & t' & -> & -> & Hl' & H')]; [by right|].
  cbn [mbind res_bind]. unfold readAll. rewrite <- Hl'.
  destruct (readFrom_below (rd s') (rd t') (Z.to_nat (len s')) H' 0)
    as [->| ->]; [by left|by right].
Qed.

Lemma verifyStep_below s t m pos :
  below s t ->
  verifyStep s m pos = Crash SigBus \/ verifyStep s m pos = verifyStep t m pos.
Proof.
  intros Hb. unfold verifyStep.
  destruct (uint32FromBytes_below s t (u64 (pos + 4)) Hb) as [->| ->];
    [by left|].
  destruct (uint32FromBytes t (u64 (pos + 4))) as [kLen| |];
    cbn [mbind res_bind]; [|by right..].
  destruct (uint32FromBytes_below s t (u64 (pos + 8)) Hb) as [->| ->];
    [by left|].
  destruct (uint32FromBytes t (u64 (pos + 8))) as [vLen| |];
    cbn [mbind res_bind]; [|by right..].
  destruct (subslice_below s t (u64 (pos + 12))
              (u64 (pos + 12 + u64 kLen)) Hb)
    as [[-> ->]|(ks & kt & -> & -> & Hk)]; [by right|].
  cbn [mbind res_bind].
  destruct (subslice_below s t pos
              (u64 (pos + 12 + u64 kLen + u64 vLen)) Hb)
    as [[-> ->]|(ds & dt & -> & -> & Hd)]; [by right|].
  cbn [mbind res_bind].
  destruct (checkDocument_below ds dt Hd) as [->| ->]; [by left|].
  destruct (checkDocument dt) as [[|]| |]; cbn [mbind res_bind];
    [|by right..].
  unfold readAll. destruct Hk as [Hlk Hk]. rewrite <- Hlk.
  destruct (readFrom_below (rd ks) (rd kt) (Z.to_nat (len ks)) Hk 0)
    as [->| ->]; [by left|by right].
Qed.

Lemma verifyLoop_below s t fLen fuel :
  below s t ->
  forall m pos,
    verifyLoop fuel s fLen m pos = Some (Crash SigBus)
    \/ verifyLoop fuel s fLen m pos = verifyLoop fuel t fLen m pos.
Proof.
  intros Hb. induction fuel as [|fuel IH]; intros m pos; cbn [verifyLoop];
    [by right|].
  case_decide; [|by right].
  destruct (verifyStep_below s t m pos Hb) as [->| ->]; [by left|].
  destruct (verifyStep t m pos) as [[[m' pos']|]| |]; [apply IH|by right..].
Qed.

(** The faulting map detects every read past the end of the file: a
    scan over it that ends otherwise ends the same way whatever the map
    holds past the file. *)
Lemma scanOver_inside file r past :
  scanOver file faulting = Some r -> r <> Crash SigBus ->
  scanOver file past = Some r.
Proof.
  unfold scanOver. destruct (makeFilebuf file) as [mmapLen| |]; [|done..].
  intros Hr Hne.
  destruct (verifyLoop_below (mapWith file faulting mmapLen)
              (mapWith file past mmapLen) (u64 (blen file))
              (S (List.length file))) with (m := (∅ : gmap string offsetAndLength))
              (pos := 0) as [E|E].
  - split; [reflexivity|]. intros i. cbn [rd mapWith].
    repeat case_decide; (by left) || (by right).
  - congruence.
  - by rewrite <- E.
Qed.

(** The scan over a run of whole valid records followed by a truncated
    one: it walks over the whole records and ends in the fault of the
    read at [firstPast]. *)
Lemma verifyLoop_cut recs tail mmapLen past c :
  Forall rec_ok recs -> blen (encode recs ++ tail) < 2 ^ 62 ->
  blen (encode recs ++ tail) <= mmapLen ->
  truncatedAt (encode recs ++ tail) (blen (encode recs)) ->
  blen (encode recs) + 12
  + kLenAt (encode recs ++ tail) (blen (encode recs))
  + vLenAt (encode recs ++ tail) (blen (encode recs)) <= mmapLen ->
  past (firstPast (encode recs ++ tail) (blen (encode recs))) = Crash c ->
  verifyLoop (S (List.length (encode recs ++ tail)))
             (mapWith (encode recs ++ tail) past mmapLen)
             (blen (encode recs ++ tail)) ∅ 0
  = Some (Crash c).
Proof.
  intros Hok Hlt Hm Htr Hend Hpast.
  set (file := encode recs ++ tail) in *.
  pose proof (length_encode recs) as Hn.
  pose proof Htr as [[_ Hpos] _].
  assert (Hfuel : exists fuel,
             S (List.length file) = (List.length recs + S fuel)%nat).
  { exists (List.length file - List.length recs)%nat.
    unfold blen in *. lia. }
  destruct Hfuel as [fuel ->].
  rewrite (verifyLoop_records (mapWith file past mmapLen) (blen file)
             recs Hok); [| |lia|lia].
  - rewrite replay_pos, Z.add_0_l. cbn [verifyLoop].
    rewrite decide_True by lia.
    by rewrite (verifyStep_cut file past mmapLen _ _ c Hlt Hm Htr Hend Hpast).
  - exact (region_mapWith [] (encode recs) tail past mmapLen Hm).
Qed.

(** On a file whose whole valid records are followed by a truncated one,
    [OpenAndVerifyDB] is brought down by SIGBUS when the first read past
    the end of the file falls past the file's last page: so whenever the
    length of the file is a multiple of the page size. *)
Lemma OpenAndVerifyDB_cut_sigbus loc (fs : FS) recs tail mmapLen :
  readFile fs loc = encode recs ++ tail ->
  Forall rec_ok recs -> blen (encode recs ++ tail) < 2 ^ 62 ->
  truncatedAt (encode recs ++ tail) (blen (encode recs)) ->
  makeFilebuf (encode recs ++ tail) = Ok mmapLen ->
  blen (encode recs) + 12
  + kLenAt (encode recs ++ tail) (blen (encode recs))
  + vLenAt (encode recs ++ tail) (blen (encode recs)) <= mmapLen ->
  mappedEnd (blen (encode recs ++ tail))
  <= firstPast (encode recs ++ tail) (blen (encode recs)) ->
  OpenAndVerifyDB loc fs = Some (Crash SigBus).
Proof.
  intros Hfile Hok Hlt Htr Hmk Hend Hpage.
  rewrite (OpenAndVerifyDB_scanOver loc fs mmapLen) by (by rewrite Hfile).
  rewrite Hfile. unfold scanOver. rewrite Hmk.
  pose proof (blen_nonneg (encode recs ++ tail)) as H0.
  destruct (makeFilebuf_ok _ Hlt) as (mlen & Hmk' & Hm & _).
  assert (mlen = mmapLen) as -> by congruence.
  assert (Hu : u64 (blen (encode recs ++ tail)) = blen (encode recs ++ tail))
    by (apply Z.mod_small; lia).
  rewrite Hu, (verifyLoop_cut recs tail mmapLen _ SigBus); try done.
  unfold pastOf. by rewrite decide_False by lia.
Qed.




End PastEOF.

(** ** Opening with verification *)

Section VerifiedOpen.

(** A file of whole, valid records opens without an error report, with
    the index their replay gives and the write position at the end. *)
Lemma OpenAndVerifyDB_valid loc (fs : FS) recs :
  Forall rec_ok recs ->
  fs !! loc = Some (encode recs) ->
  blen (encode recs) < 2 ^ 62 ->
  exists mmap,
    OpenAndVerifyDB loc fs
    = Some (Ok (mkDB (replay recs ∅ 0).1 loc (blen (encode recs))
                     (encode recs) mmap, None)).
Proof.
  intros Hok Hfs Hlt. set (file := encode recs) in *.
  pose proof (blen_nonneg file).
  destruct (makeFilebuf_ok file Hlt) as (mmap & Hmm & Hle & _).
  exists mmap. unfold OpenAndVerifyDB, readFile. rewrite Hfs. simpl default.
  rewrite Hmm.
  assert (Hu : u64 (blen file) = blen file) by (apply Z.mod_small; lia).
  rewrite Hu.
  pose proof (length_encode recs) as Hn. fold file in Hn.
  assert (Hfuel : exists fuel,
             S (List.length file) = (List.length recs + S fuel)%nat).
  { exists (List.length file - List.length recs)%nat.
    unfold blen in *. lia. }
  destruct Hfuel as [fuel ->].
  rewrite (verifyLoop_records _ (blen file) recs Hok); [| |fold file; lia|lia].
  - pose proof (replay_pos recs ∅ 0) as Hp. fold file in Hp.
    destruct (replay recs ∅ 0) as [m pos]. simpl in Hp. subst pos.
    cbn [verifyLoop fst snd]. rewrite decide_False by lia.
    by rewrite Z.add_0_l.
  - pose proof (region_mmapOf [] file [] mmap) as Hr.
    rewrite app_nil_r in Hr. apply Hr. simpl. lia.
Qed.

(** X30: a file whose first record that does not verify is whole (its
    header, key and value lie within the file) opens with the index of
    the records before it, the write position at its start, and the
    report of corruption there. *)
Lemma OpenAndVerifyDB_corrupt loc (fs : FS) recs c k v rest :
  Forall rec_ok recs -> rec_ok (k, v) -> 0 <= c < 2 ^ 32 ->
  c <> CRC32.Checksum (frame_body k v) crcTable ->
  fs !! loc = Some (encode recs ++ (le32 c ++ frame_body k v) ++ rest) ->
  blen (encode recs ++ (le32 c ++ frame_body k v) ++ rest) < 2 ^ 62 ->
  exists mmap,
    OpenAndVerifyDB loc fs
    = Some (Ok (mkDB (replay recs ∅ 0).1 loc (blen (encode recs))
                     (encode recs ++ (le32 c ++ frame_body k v) ++ rest)
                     mmap,
                Some (Corruption (blen (encode recs))))).
Proof.
  intros Hok [Hk Hv] Hc Hne Hfs Hlt. simpl in Hk, Hv.
  set (bad := le32 c ++ frame_body k v) in *.
  set (file := encode recs ++ bad ++ rest) in *.
  pose proof (blen_nonneg file). pose proof (blen_nonneg rest).
  pose proof (blen_nonneg k). pose proof (blen_nonneg v).
  pose proof (blen_encode_nonneg recs).
  assert (Hbad : blen bad = 12 + blen k + blen v).
  { unfold bad, frame_body. rewrite !blen_app, !blen_le32. lia. }
  assert (Hfile : blen file = blen (encode recs) + blen bad + blen rest)
    by (unfold file; rewrite !blen_app; lia).
  destruct (makeFilebuf_ok file Hlt) as (mmap & Hmm & Hle & _).
  exists mmap. unfold OpenAndVerifyDB, readFile. rewrite Hfs. simpl default.
  rewrite Hmm.
  assert (Hu : u64 (blen file) = blen file) by (apply Z.mod_small; lia).
  rewrite Hu.
  pose proof (length_encode recs) as Hn.
  assert (Hfuel : exists fuel,
             S (List.length file) = (List.length recs + S fuel)%nat).
  { exists (List.length file - List.length recs)%nat.
    unfold blen in *. lia. }
  destruct Hfuel as [fuel ->].
  rewrite (verifyLoop_records _ (blen file) recs Hok); [| |lia|lia].
  - pose proof (replay_pos recs ∅ 0) as Hp.
    destruct (replay recs ∅ 0) as [m pos]. simpl in Hp. subst pos.
    cbn [verifyLoop fst snd]. rewrite decide_True by lia.
    rewrite Z.add_0_l.
    rewrite (verifyStep_record _ m (blen (encode recs)) c k v);
      [|apply (region_mmapOf (encode recs) bad rest mmap);
        change (blen file <= mmap); lia
       |done|done|done|lia].
    by rewrite bool_decide_eq_false_2.
  - apply (region_mmapOf [] (encode recs) (bad ++ rest) mmap).
    change (blen file <= mmap). lia.
Qed.

(** C5, at the failing input of a record cut one byte short whose
    missing byte was zero: the checksum stored in the file is not the
    CRC-32C of the bytes that remain, and still the scan accepts the
    record (the map reads the missing byte as zero), reports nothing,
    indexes the key and puts the write position one past the end of
    the 13-byte file. *)
Theorem OpenAndVerifyDB_accepts_cut_record :
  le_value (take 4 cutZero) <> CRC32.Checksum (drop 4 cutZero) crcTable /\
  blen cutZero = 13 /\
  OpenAndVerifyDB "db" {[ "db"%string := cutZero ]}
  = Some (Ok (mkDB {[ "k"%string := OAL 13 1 ]} "db" 14 cutZero 4000000000,
              None)).
Proof.
  split; [vm_compute; discriminate|].
  split; vm_compute; reflexivity.
Qed.

(** A record cut short whose header announces more bytes than the last
    page of the file holds brings the process down instead of being
    reported. *)
Lemma OpenAndVerifyDB_faults_on_cut_record :
  OpenAndVerifyDB "db" {[ "db"%string := le32 0 ++ le32 0 ++ le32 5000 ]}
  = Some (Crash SigBus).
Proof. vm_compute. reflexivity. Qed.

End VerifiedOpen.

(** ** The key snapshot *)

Section KeySnapshot.

Lemma uint64ToBytes_app pre b0 b1 b2 b3 b4 b5 b6 b7 post val :
  blen pre + 7 < 2 ^ 64 ->
  uint64ToBytes (pre ++ [b0; b1; b2; b3; b4; b5; b6; b7] ++ post)
                (blen pre) val
  = Ok (pre ++ le64 val ++ post).
Proof.
  intros Hi. pose proof (blen_nonneg pre).
  assert (Hu : forall n, 0 <= n <= 7 -> u64 (blen pre + n) = blen pre + n)
    by (intros n Hn; apply Z.mod_small; lia).
  assert (Hs : forall (l : bytes) x y post' n,
             blen l = blen pre + n ->
             store (l ++ x :: post') (blen pre + n) y
             = Ok ((l ++ [y]) ++ post')).
  { intros l x y post' n <-. rewrite store_app. by rewrite <- app_assoc. }
  assert (Hl : forall (l : bytes) y n,
             blen l = blen pre + n -> blen (l ++ [y]) = blen pre + (n + 1)).
  { intros l y n E. rewrite blen_app, E. unfold blen. simpl. lia. }
  unfold uint64ToBytes. rewrite !Hu, !z2b_land by lia.
  simpl app. rewrite store_app. cbn [mbind res_bind].
  rewrite (cons_middle (z2b val) pre), app_assoc.
  pose proof (Hl pre (z2b val) 0 ltac:(lia)) as E1. simpl in E1.
  rewrite (Hs _ _ _ _ 1 E1). cbn [mbind res_bind].
  pose proof (Hl _ (z2b (Z.shiftr val 8)) 1 E1) as E2. simpl in E2.
  rewrite (Hs _ _ _ _ 2 E2). cbn [mbind res_bind].
  pose proof (Hl _ (z2b (Z.shiftr val 16)) 2 E2) as E3. simpl in E3.
  rewrite (Hs _ _ _ _ 3 E3). cbn [mbind res_bind].
  pose proof (Hl _ (z2b (Z.shiftr val 24)) 3 E3) as E4. simpl in E4.
  rewrite (Hs _ _ _ _ 4 E4). cbn [mbind res_bind].
  pose proof (Hl _ (z2b (Z.shiftr val 32)) 4 E4) as E5. simpl in E5.
  rewrite (Hs _ _ _ _ 5 E5). cbn [mbind res_bind].
  pose proof (Hl _ (z2b (Z.shiftr val 40)) 5 E5) as E6. simpl in E6.
  rewrite (Hs _ _ _ _ 6 E6). cbn [mbind res_bind].
  pose proof (Hl _ (z2b (Z.shiftr val 48)) 6 E6) as E7. simpl in E7.
  rewrite (Hs _ _ _ _ 7 E7).
  unfold le64, le32. rewrite !Z.shiftr_shiftr by lia. simpl Z.add.
  by rewrite <- !app_assoc.
Qed.

(** [dumpKeys] writes the entry of the format for each key. *)
Lemma keyEntry_frame k v : keyEntry k v = Ok (keyFrame (k, v)).
Proof.
  unfold keyEntry.
  change (replicate 16 x00)
    with ([] ++ [x00; x00; x00; x00]
          ++ [x00; x00; x00; x00; x00; x00; x00; x00; x00; x00; x00; x00]).
  rewrite (uint32ToBytes_app []) by (vm_compute; done).
  cbn [mbind res_bind].
  rewrite (uint32ToBytes_app (le32 (u32 (slen k))) x00 x00 x00 x00
             [x00; x00; x00; x00; x00; x00; x00; x00])
    by (vm_compute; done).
  cbn [mbind res_bind].
  rewrite (uint64ToBytes_app (le32 (u32 (slen k)) ++ le32 (length v))
             x00 x00 x00 x00 x00 x00 x00 x00 []) by (vm_compute; done).
  cbn [mbind res_bind]. unfold keyFrame. simpl fst. simpl snd.
  by rewrite app_nil_r, <- !app_assoc.
Qed.

Lemma dumpKeys_frames ord keys :
  dumpKeys ord keys = Ok (keys ++ concat (keyFrame <$> ord)).
Proof.
  revert keys. induction ord as [|[k v] ord IH]; intros keys;
    cbn [dumpKeys].
  - simpl. by rewrite app_nil_r.
  - rewrite keyEntry_frame. cbn [mbind res_bind]. rewrite IH.
    rewrite fmap_cons. simpl concat. by rewrite <- app_assoc.
Qed.

Lemma slen_nonneg k : 0 <= slen k.
Proof. unfold slen. lia. Qed.

Lemma blen_keyFrame k oal : blen (keyFrame (k, oal)) = 16 + slen k.
Proof.
  unfold keyFrame. simpl fst. simpl snd.
  rewrite !blen_app, !blen_le32, blen_str.
  change (blen (le64 (offset oal))) with 8. lia.
Qed.

(** One turn of [populateKeys] over an entry of the format. *)
Lemma populateStep_frame s m pos k oal :
  region s pos (keyFrame (k, oal)) -> oal_ok oal -> slen k < 2 ^ 32 ->
  pos + 16 + slen k < 2 ^ 64 ->
  populateStep s m pos = Ok (<[k := oal]> m, pos + 16 + slen k).
Proof.
  intros Hr [Ho Hl] Hk Hlt. pose proof (slen_nonneg k).
  pose proof Hr as (Hpos & Hlen & _). rewrite blen_keyFrame in Hlen.
  unfold keyFrame in Hr. simpl fst in Hr. simpl snd in Hr.
  apply region_app in Hr as [Hrk Hr]. rewrite blen_le32 in Hr.
  apply region_app in Hr as [Hrv Hr]. rewrite blen_le32 in Hr.
  apply region_app in Hr as [Hro Hkey].
  change (blen (le64 (offset oal))) with 8 in Hkey.
  assert (Hu : forall z, 0 <= z < 2 ^ 64 -> u64 z = z)
    by (intros; apply Z.mod_small; lia).
  assert (Hw : forall z, 0 <= z < 2 ^ 32 -> u32 z = z)
    by (intros; apply Z.mod_small; lia).
  unfold populateStep.
  rewrite (Hu (pos + 4)), (Hu (pos + 8)), (Hu (pos + 16)) by lia.
  unfold le32 in Hrk, Hrv.
  rewrite (uint32FromBytes_region _ _ _ _ _ _ Hrk) by lia.
  cbn [mbind res_bind].
  rewrite (uint32FromBytes_region _ _ _ _ _ _ Hrv) by lia.
  cbn [mbind res_bind].
  replace (pos + 4 + 4) with (pos + 8) in Hro by lia.
  unfold le64, le32 in Hro. simpl app in Hro.
  rewrite (uint64FromBytes_region _ _ _ _ _ _ _ _ _ _ Hro) by lia.
  cbn [mbind res_bind].
  change (le_value [z2b (u32 (slen k)); z2b (Z.shiftr (u32 (slen k)) 8);
                    z2b (Z.shiftr (u32 (slen k)) 16);
                    z2b (Z.shiftr (u32 (slen k)) 24)])
    with (le_value (le32 (u32 (slen k)))).
  change (le_value [z2b (length oal); z2b (Z.shiftr (length oal) 8);
                    z2b (Z.shiftr (length oal) 16);
                    z2b (Z.shiftr (length oal) 24)])
    with (le_value (le32 (length oal))).
  change (le_value [z2b (offset oal); z2b (Z.shiftr (offset oal) 8);
                    z2b (Z.shiftr (offset oal) 16);
                    z2b (Z.shiftr (offset oal) 24);
                    z2b (Z.shiftr (offset oal) 32);
                    z2b (Z.shiftr (Z.shiftr (offset oal) 32) 8);
                    z2b (Z.shiftr (Z.shiftr (offset oal) 32) 16);
                    z2b (Z.shiftr (Z.shiftr (offset oal) 32) 24)])
    with (le_value (le64 (offset oal))).
  rewrite !le_value_le32, le_value_le64.
  rewrite !(Hw (slen k)), (Hw (length oal)), (Hu (offset oal)) by lia.
  rewrite (Hu (slen k)), (Hu (pos + 16 + slen k)) by lia.
  destruct (subslice_ok s (pos + 16) (pos + 16 + slen k)) as [ks Hks];
    [lia..|].
  rewrite Hks. cbn [mbind res_bind].
  assert (Hkr : region ks 0 (list_byte_of_string k)).
  { eapply region_subslice; [exact Hks | lia | rewrite blen_str; lia |].
    rewrite Z.add_0_r. replace (pos + 16) with (pos + 4 + 4 + 8) by lia.
    done. }
  rewrite (readAll_region ks _ Hkr)
    by (rewrite (subslice_len _ _ _ _ Hks), blen_str; lia).
  cbn [mbind res_bind]. rewrite string_of_list_byte_of_string.
  by destruct oal.
Qed.

Lemma foldl_insert_list_to_map (ord : list (string * offsetAndLength)) :
  foldl (fun m e => <[e.1 := e.2]> m) (∅ : gmap string offsetAndLength) ord
  = list_to_map (reverse ord).
Proof.
  assert (H : forall (m : gmap string offsetAndLength),
             foldl (fun m e => <[e.1 := e.2]> m) m ord
             = foldr (fun e m => <[e.1 := e.2]> m) m (reverse ord)).
  { induction ord as [|e ord IH]; intros m; simpl; [done|].
    rewrite IH, reverse_cons, foldr_app. done. }
  rewrite H. done.
Qed.

Lemma iteration_foldl d ord :
  iteration d ord ->
  foldl (fun m e => <[e.1 := e.2]> m) (∅ : gmap string offsetAndLength) ord
  = kToPos d.
Proof.
  unfold iteration. intros Hp. rewrite foldl_insert_list_to_map.
  symmetry. apply list_to_map_flip. by rewrite reverse_Permutation.
Qed.

Lemma blen_keyFrames_cons e ord :
  blen (concat (keyFrame <$> e :: ord))
  = 16 + slen e.1 + blen (concat (keyFrame <$> ord)).
Proof.
  rewrite fmap_cons. cbn [concat]. destruct e as [k oal].
  by rewrite blen_app, blen_keyFrame.
Qed.

(** [populateKeys] walks over a run of entries and inserts them in
    order. *)
Lemma populateLoop_frames s ord :
  Forall entry_ok ord ->
  forall fuel m pos,
    region s pos (concat (keyFrame <$> ord)) ->
    pos + blen (concat (keyFrame <$> ord)) = len s -> len s < 2 ^ 64 ->
    populateLoop (List.length ord + fuel) s m pos
    = Some (Ok (foldl (fun m e => <[e.1 := e.2]> m) m ord)).
Proof.
  induction 1 as [|[k oal] ord [Hoal Hk] _ IH]; intros fuel m pos Hr He Hlt.
  - change (blen (concat (keyFrame <$> []))) with 0 in He.
    destruct Hr as (Hpos & _).
    assert (Hu : u64 (len s) = len s) by (apply Z.mod_small; lia).
    destruct fuel; cbn [List.length Nat.add populateLoop];
      rewrite Hu, decide_False by lia; done.
  - rewrite blen_keyFrames_cons in He. simpl fst in He. simpl in Hk.
    pose proof (slen_nonneg k).
    pose proof (blen_nonneg (concat (keyFrame <$> ord))).
    pose proof Hr as (Hpos & _).
    rewrite fmap_cons in Hr. cbn [concat] in Hr.
    apply region_app in Hr as [Hf Hrest]. rewrite blen_keyFrame in Hrest.
    assert (Hu : u64 (len s) = len s) by (apply Z.mod_small; lia).
    cbn [List.length Nat.add populateLoop]. rewrite Hu.
    rewrite decide_True by lia.
    rewrite (populateStep_frame s m pos k oal Hf Hoal Hk) by lia.
    cbn [foldl]. apply IH; [|lia|lia].
    replace (pos + 16 + slen k) with (pos + (16 + slen k)) by lia.
    exact Hrest.
Qed.

Lemma keysPath_ne loc : keysPath loc <> loc.
Proof.
  unfold keysPath. induction loc as [|a loc IH]; simpl; [done|].
  intros [= E]. by apply IH.
Qed.

Lemma length_keyFrames ord :
  Z.of_nat (List.length ord) <= blen (concat (keyFrame <$> ord)).
Proof.
  induction ord as [|[k oal] ord IH]; [done|].
  rewrite blen_keyFrames_cons. cbn [List.length fst].
  pose proof (slen_nonneg k). lia.
Qed.

(** The index read back from a key file that holds one dump. *)
Lemma populateKeys_frames d ord :
  iteration d ord -> ord <> [] -> Forall entry_ok ord ->
  blen (concat (keyFrame <$> ord)) < 2 ^ 63 ->
  populateKeys (concat (keyFrame <$> ord)) = Some (Ok (kToPos d)).
Proof.
  intros Hit Hne Hok Hlt. set (keys := concat (keyFrame <$> ord)) in *.
  pose proof (length_keyFrames ord) as Hn. fold keys in Hn.
  assert (Hpos : 0 < blen keys).
  { destruct ord; [done|]. simpl in Hn. lia. }
  unfold populateKeys.
  assert (E : i64 (blen keys) = blen keys).
  { unfold i64. rewrite Z.mod_small by lia. lia. }
  rewrite E. unfold Mmap. rewrite decide_False by lia.
  assert (Hfuel : exists fuel,
             S (List.length keys) = (List.length ord + fuel)%nat).
  { exists (S (List.length keys) - List.length ord)%nat.
    unfold blen in *. lia. }
  destruct Hfuel as [fuel ->].
  rewrite (populateLoop_frames _ ord Hok); [| |simpl; fold keys; lia|simpl; lia].
  - by rewrite (iteration_foldl d ord Hit).
  - pose proof (region_mmapOf [] keys [] (blen keys)) as Hr.
    rewrite app_nil_r in Hr. apply Hr. simpl. lia.
Qed.

(** Recovery through the key snapshot, when the snapshot is the first
    one written at the location: [Close] followed by [OpenDB] gives a
    handle with the same index over the same file, its write position at
    the end of the file. *)
Lemma Close_then_OpenDB d ord (fs : FS) :
  iteration d ord -> ord <> [] -> Forall entry_ok ord ->
  readFile fs (keysPath (location d)) = [] ->
  blen (filehandle d) < 2 ^ 62 ->
  blen (concat (keyFrame <$> ord)) < 2 ^ 63 ->
  exists fs' e mmap,
    Close ord d fs = Ok (fs', e) /\
    OpenDB (location d) fs'
    = Some (Ok (mkDB (kToPos d) (location d) (blen (filehandle d))
                     (filehandle d) mmap)).
Proof.
  intros Hit Hne Hok Hkeys Hf Hk.
  destruct (makeFilebuf_ok (filehandle d) Hf) as (mmap & Hmm & _).
  set (fs' := <[keysPath (location d) := concat (keyFrame <$> ord)]>
                (<[location d := filehandle d]> fs)).
  assert (Hc : exists e, Close ord d fs = Ok (fs', e)).
  { unfold Close. rewrite dumpKeys_frames, Hkeys. cbn [mbind res_bind].
    simpl app. fold fs'. destruct (Munmap (filebuffer d)); eauto. }
  destruct Hc as [e Hc]. exists fs', e, mmap. split; [done|].
  unfold OpenDB, readFile.
  assert (E1 : fs' !! location d = Some (filehandle d)).
  { unfold fs'. rewrite lookup_insert_ne by apply keysPath_ne.
    apply lookup_insert_eq. }
  assert (E2 : fs' !! keysPath (location d)
               = Some (concat (keyFrame <$> ord)))
    by apply lookup_insert_eq.
  rewrite E1, E2. simpl default. rewrite Hmm.
  rewrite (populateKeys_frames d ord Hit Hne Hok Hk).
  pose proof (blen_nonneg (filehandle d)).
  unfold u64. rewrite Z.mod_small by lia. done.
Qed.

End KeySnapshot.

(** ** Closing and reopening *)

Section Reopen.

(** C4, at the failing input [NewDB; Upsert("a", "x"); Close; OpenDB;
    Remove("a"); Close; OpenDB; Get("a")]: before the second [Close],
    [Get("a")] answers absent; that [Close] appends its dump of the (now
    empty) index to the key file, which still holds the entry written by
    the first [Close], so after reopening the removed key is back. *)
Theorem reopen_resurrects_removed_key :
  (d ← NewDB "db";
   d ← Upsert Written (str "a") (str "x") d;
   '(fs, _) ← Close (map_to_list (kToPos d)) d ∅;
   match OpenDB "db" fs with
   | Some r =>
       d ← r;
       d ← Remove Written (str "a") d;
       atClose ← Get (str "a") d;
       '(fs, _) ← Close (map_to_list (kToPos d)) d fs;
       match OpenDB "db" fs with
       | Some r => d ← r; reopened ← Get (str "a") d;
                   Ok (Some (atClose, reopened))
       | None => Ok None
       end
   | None => Ok None
   end)
  = Ok (Some ((EmptyString, false), ("x"%string, true))).
Proof. vm_compute. reflexivity. Qed.

(** A handle with an empty index does not reopen at all when its key
    file is new: the key file is empty and cannot be mapped. *)
Lemma reopen_empty_fails :
  (d ← NewDB "db";
   '(fs, _) ← Close (map_to_list (kToPos d)) d ∅;
   Ok (OpenDB "db" fs))
  = Ok (Some (Err EINVAL)).
Proof. vm_compute. reflexivity. Qed.

End Reopen.

(** ** The endian helpers: round trips and bounds *)

Section EndianHelpers.

Lemma split_at (targ : bytes) idx n :
  0 <= idx -> 0 <= n -> idx + n <= blen targ ->
  exists pre mid post,
    targ = pre ++ mid ++ post /\ blen pre = idx /\ blen mid = n /\
    pre = take (Z.to_nat idx) targ /\
    post = drop (Z.to_nat (idx + n)) targ.
Proof.
  intros Hi Hn Hle.
  exists (take (Z.to_nat idx) targ),
         (take (Z.to_nat n) (drop (Z.to_nat idx) targ)),
         (drop (Z.to_nat idx + Z.to_nat n) targ).
  split_and!.
  - apply take_drop_split.
  - unfold blen in *. rewrite length_take. lia.
  - unfold blen in *. rewrite length_take, length_drop. lia.
  - done.
  - f_equal. lia.
Qed.

(** X1: writing a 32-bit value at [idx] with [uint32ToBytes] and reading
    it back with [uint32FromBytes] gives the value; the slice keeps its
    length and the bytes before [idx] and from [idx + 4] on. *)
Theorem uint32_write_then_read (targ : bytes) idx val :
  0 <= idx -> idx + 4 <= blen targ -> blen targ < 2 ^ 64 ->
  0 <= val < 2 ^ 32 ->
  exists t',
    uint32ToBytes targ idx val = Ok t' /\
    uint32FromBytes (ofBytes t') idx = Ok val /\
    blen t' = blen targ /\
    take (Z.to_nat idx) t' = take (Z.to_nat idx) targ /\
    drop (Z.to_nat (idx + 4)) t' = drop (Z.to_nat (idx + 4)) targ.
Proof.
  intros Hi Hle Hlt Hv.
  destruct (split_at targ idx 4 Hi ltac:(lia) Hle)
    as (pre & mid & post & E & Hpre & Hmid & Epre & Epost).
  destruct mid as [|a [|b [|c [|d [|]]]]];
    try (unfold blen in Hmid; simpl in Hmid; lia).
  exists (pre ++ le32 val ++ post).
  assert (Hp : Z.to_nat idx = List.length pre) by (unfold blen in Hpre; lia).
  assert (Hp4 : Z.to_nat (idx + 4) = List.length (pre ++ le32 val))
    by (rewrite length_app; unfold blen in Hpre; simpl; lia).
  split_and!.
  - rewrite E at 1. rewrite <- Hpre. apply uint32ToBytes_app. lia.
  - rewrite <- Hpre.
    rewrite (uint32FromBytes_region _ _ _ _ _ _ (region_ofBytes pre (le32 val) post))
      by lia.
    f_equal. change (le_value (le32 val) = val).
    rewrite le_value_le32. apply Z.mod_small. lia.
  - rewrite E, !blen_app. reflexivity.
  - rewrite Hp at 1. rewrite take_app_length. exact Epre.
  - rewrite Hp4 at 1. rewrite app_assoc, drop_app_length. exact Epost.
Qed.

Lemma uint32_write_then_read_witness :
  exists t',
    uint32ToBytes (str "0123456789") 3 0xDEADBEEF = Ok t' /\
    uint32FromBytes (ofBytes t') 3 = Ok 0xDEADBEEF /\
    blen t' = 10 /\
    take 3 t' = str "012" /\ drop 7 t' = str "789".
Proof.
  destruct (uint32_write_then_read (str "0123456789") 3 0xDEADBEEF)
    as (t' & H1 & H2 & H3 & H4 & H5); [lia | vm_compute; discriminate
                                      | vm_compute; reflexivity | lia |].
  exists t'. split_and!; assumption.
Defined.

(** X2: the same round trip for the 64-bit helpers: [uint64ToBytes] at
    [idx] followed by [uint64FromBytes] gives the value back, and only
    the eight bytes at [idx] change. *)
Theorem uint64_write_then_read (targ : bytes) idx val :
  0 <= idx -> idx + 8 <= blen targ -> blen targ < 2 ^ 64 ->
  0 <= val < 2 ^ 64 ->
  exists t',
    uint64ToBytes targ idx val = Ok t' /\
    uint64FromBytes (ofBytes t') idx = Ok val /\
    blen t' = blen targ /\
    take (Z.to_nat idx) t' = take (Z.to_nat idx) targ /\
    drop (Z.to_nat (idx + 8)) t' = drop (Z.to_nat (idx + 8)) targ.
Proof.
  intros Hi Hle Hlt Hv.
  destruct (split_at targ idx 8 Hi ltac:(lia) Hle)
    as (pre & mid & post & E & Hpre & Hmid & Epre & Epost).
  destruct mid as [|b0 [|b1 [|b2 [|b3 [|b4 [|b5 [|b6 [|b7 [|]]]]]]]]];
    try (unfold blen in Hmid; simpl in Hmid; lia).
  exists (pre ++ le64 val ++ post).
  assert (Hp : Z.to_nat idx = List.length pre) by (unfold blen in Hpre; lia).
  assert (Hp8 : Z.to_nat (idx + 8) = List.length (pre ++ le64 val))
    by (rewrite length_app; unfold blen in Hpre; simpl; lia).
  split_and!.
  - rewrite E at 1. rewrite <- Hpre. apply uint64ToBytes_app. lia.
  - rewrite <- Hpre.
    pose proof (region_ofBytes pre (le64 val) post) as Hr.
    unfold le64, le32 in Hr. simpl app in Hr.
    unfold le64 at 1. unfold le32 at 1 2. simpl app.
    rewrite (uint64FromBytes_region _ _ _ _ _ _ _ _ _ _ Hr) by lia.
    f_equal. change (le_value (le64 val) = val).
    rewrite le_value_le64. apply Z.mod_small. lia.
  - rewrite E, !blen_app. reflexivity.
  - rewrite Hp at 1. rewrite take_app_length. exact Epre.
  - rewrite Hp8 at 1. rewrite app_assoc, drop_app_length. exact Epost.
Qed.

Lemma uint64_write_then_read_witness :
  exists t',
    uint64ToBytes (str "0123456789") 1 0x0123456789ABCDEF = Ok t' /\
    uint64FromBytes (ofBytes t') 1 = Ok 0x0123456789ABCDEF /\
    blen t' = 10 /\
    take 1 t' = str "0" /\ drop 9 t' = str "9".
Proof.
  destruct (uint64_write_then_read (str "0123456789") 1 0x0123456789ABCDEF)
    as (t' & H1 & H2 & H3 & H4 & H5); [lia | vm_compute; discriminate
                                      | vm_compute; reflexivity | lia |].
  exists t'. split_and!; assumption.
Defined.

Lemma store_inv t i b t' :
  store t i b = Ok t' -> 0 <= i < blen t /\ blen t' = blen t.
Proof.
  unfold store. case_decide; [|done]. intros [= <-]. split; [done|].
  unfold blen. by rewrite length_insert.
Qed.

Lemma store_outside t i b :
  ~ (0 <= i < blen t) -> store t i b = Crash Panic.
Proof. intros H. unfold store. by rewrite decide_False. Qed.

Lemma store_cases t i b :
  store t i b = Crash Panic \/ exists t', store t i b = Ok t'.
Proof. unfold store. case_decide; eauto. Qed.

(** X3: with fewer than four bytes from [idx] to the end of the slice,
    both 32-bit helpers panic: the write and the read index the slice
    out of range. *)
Theorem uint32_helpers_out_of_range (targ : bytes) idx val :
  0 <= idx -> blen targ < idx + 4 -> idx + 3 < 2 ^ 64 ->
  uint32ToBytes targ idx val = Crash Panic /\
  uint32FromBytes (ofBytes targ) idx = Crash Panic.
Proof.
  intros Hi Hle Hlt. split; [|by apply uint32FromBytes_outside].
  assert (Hu : forall n, 0 <= n <= 3 -> u64 (idx + n) = idx + n)
    by (intros n Hn; apply Z.mod_small; lia).
  unfold uint32ToBytes. rewrite !Hu by lia.
  destruct (store_cases targ idx (z2b (Z.land val 255)))
    as [->|[t1 E1]]; [done|].
  rewrite E1. cbn [mbind res_bind]. apply store_inv in E1 as [_ L1].
  destruct (store_cases t1 (idx + 1) (z2b (Z.land (Z.shiftr val 8) 255)))
    as [->|[t2 E2]]; [done|].
  rewrite E2. cbn [mbind res_bind]. apply store_inv in E2 as [_ L2].
  destruct (store_cases t2 (idx + 2) (z2b (Z.land (Z.shiftr val 16) 255)))
    as [->|[t3 E3]]; [done|].
  rewrite E3. cbn [mbind res_bind]. apply store_inv in E3 as [_ L3].
  apply store_outside. lia.
Qed.

Lemma uint32_helpers_out_of_range_witness :
  uint32ToBytes (str "012345") 3 7 = Crash Panic /\
  uint32FromBytes (ofBytes (str "012345")) 3 = Crash Panic.
Proof.
  apply (uint32_helpers_out_of_range (str "012345") 3 7);
    [lia | vm_compute; reflexivity | lia].
Defined.

End EndianHelpers.

(** ** What the checksum detects *)

Section Detection.

Lemma crcTable_top_injective i j :
  (i < 256)%nat -> (j < 256)%nat ->
  Z.shiftr (nth i crcTable 0) 24 = Z.shiftr (nth j crcTable 0) 24 -> i = j.
Proof.
  intros Hi Hj E.
  assert (Hb : forallb (fun a =>
                 forallb (fun b =>
                   implb (Z.shiftr (nth a crcTable 0) 24
                          =? Z.shiftr (nth b crcTable 0) 24)
                         (Nat.eqb a b))
                   (seq 0 256)) (seq 0 256) = true)
    by (vm_compute; reflexivity).
  rewrite forallb_forall in Hb.
  specialize (Hb i ltac:(apply in_seq; lia)).
  rewrite forallb_forall in Hb.
  specialize (Hb j ltac:(apply in_seq; lia)).
  apply Z.eqb_eq in E. rewrite E in Hb. simpl in Hb.
  by apply Nat.eqb_eq.
Qed.

Lemma lxor_cancel_l a b c : Z.lxor a b = Z.lxor a c -> b = c.
Proof.
  intros E. rewrite <- (Z.lxor_0_l b), <- (Z.lxor_nilpotent a).
  rewrite Z.lxor_assoc, E, <- Z.lxor_assoc, Z.lxor_nilpotent.
  apply Z.lxor_0_l.
Qed.

Lemma lxor_cancel_r a b c : Z.lxor b a = Z.lxor c a -> b = c.
Proof. rewrite !(Z.lxor_comm _ a). apply lxor_cancel_l. Qed.

Lemma b2z_inj b b' : b2z b = b2z b' -> b = b'.
Proof. intros E. by rewrite <- (z2b_b2z b), E, z2b_b2z. Qed.

Lemma table_index_range crc v :
  0 <= Z.lxor (Z.land crc 0xff) (b2z v) < 256.
Proof.
  change 256 with (2 ^ 8). apply lxor_range; [lia | | apply b2z_range].
  change 0xff with (Z.ones 8). rewrite Z.land_ones by lia.
  apply Z.mod_pos_bound. lia.
Qed.

(** The table index is determined by the state after the step. *)
Lemma update1_index c v c' v' :
  0 <= c < 2 ^ 32 -> 0 <= c' < 2 ^ 32 ->
  CRC32.update1 crcTable c v = CRC32.update1 crcTable c' v' ->
  Z.lxor (Z.land c 0xff) (b2z v) = Z.lxor (Z.land c' 0xff) (b2z v') /\
  Z.shiftr c 8 = Z.shiftr c' 8.
Proof.
  intros Hc Hc' E. unfold CRC32.update1 in E.
  pose proof (table_index_range c v) as Hi.
  pose proof (table_index_range c' v') as Hj.
  set (i := Z.lxor (Z.land c 0xff) (b2z v)) in *.
  set (j := Z.lxor (Z.land c' 0xff) (b2z v')) in *.
  assert (Hs : forall x, 0 <= x < 2 ^ 32 -> Z.shiftr (Z.shiftr x 8) 24 = 0).
  { intros x Hx. rewrite Z.shiftr_shiftr by lia.
    rewrite Z.shiftr_div_pow2 by lia. apply Z.div_small. simpl. lia. }
  assert (Et : Z.shiftr (nth (Z.to_nat i) crcTable 0) 24
               = Z.shiftr (nth (Z.to_nat j) crcTable 0) 24).
  { apply (f_equal (fun x => Z.shiftr x 24)) in E.
    rewrite !Z.shiftr_lxor, !Hs, !Z.lxor_0_r in E by lia. exact E. }
  apply crcTable_top_injective in Et; [|lia|lia].
  assert (Eij : i = j) by lia. split; [done|].
  rewrite Et in E. by apply lxor_cancel_l in E.
Qed.

Lemma update1_inj_state c c' v :
  0 <= c < 2 ^ 32 -> 0 <= c' < 2 ^ 32 ->
  CRC32.update1 crcTable c v = CRC32.update1 crcTable c' v -> c = c'.
Proof.
  intros Hc Hc' E. destruct (update1_index _ _ _ _ Hc Hc' E) as [Ei Es].
  apply lxor_cancel_r in Ei.
  change 0xff with (Z.ones 8) in Ei. rewrite !Z.land_ones in Ei by lia.
  rewrite !Z.shiftr_div_pow2 in Es by lia.
  rewrite (Z.div_mod c (2 ^ 8)), (Z.div_mod c' (2 ^ 8)) by lia.
  by rewrite Ei, Es.
Qed.

Lemma update1_inj_byte c v v' :
  0 <= c < 2 ^ 32 ->
  CRC32.update1 crcTable c v = CRC32.update1 crcTable c v' -> v = v'.
Proof.
  intros Hc E. destruct (update1_index _ _ _ _ Hc Hc E) as [Ei _].
  apply lxor_cancel_l in Ei. by apply b2z_inj.
Qed.

Lemma fold_update1_range data c :
  0 <= c < 2 ^ 32 ->
  0 <= fold_left (CRC32.update1 crcTable) data c < 2 ^ 32.
Proof.
  revert c. induction data as [|b data IH]; intros c Hc; simpl; [done|].
  apply IH, update1_range, Hc.
Qed.

Lemma fold_update1_inj data c c' :
  0 <= c < 2 ^ 32 -> 0 <= c' < 2 ^ 32 ->
  fold_left (CRC32.update1 crcTable) data c
  = fold_left (CRC32.update1 crcTable) data c' -> c = c'.
Proof.
  revert c c'. induction data as [|b data IH]; intros c c' Hc Hc' E;
    simpl in E; [done|].
  apply IH in E; [|by apply update1_range..].
  by apply update1_inj_state in E.
Qed.

(** Two byte strings that differ in exactly one byte have different
    checksums. *)
Lemma Checksum_one_byte pre b b' suf :
  CRC32.Checksum (pre ++ b :: suf) crcTable
  = CRC32.Checksum (pre ++ b' :: suf) crcTable -> b = b'.
Proof.
  unfold CRC32.Checksum, CRC32.Update. intros E.
  apply lxor_cancel_r in E.
  rewrite !fold_left_app in E. simpl in E.
  assert (H0 : 0 <= not32 0 < 2 ^ 32) by (vm_compute; done).
  pose proof (fold_update1_range pre _ H0) as Hp.
  apply fold_update1_inj in E; [|by apply update1_range..].
  by apply update1_inj_byte in E.
Qed.

Lemma le_value_inj (l l' : bytes) :
  List.length l = List.length l' -> le_value l = le_value l' -> l = l'.
Proof.
  revert l'. induction l as [|b l IH]; intros [|b' l'] Hl E;
    simpl in *; try done.
  pose proof (b2z_range b). pose proof (b2z_range b').
  assert (b2z b = b2z b' /\ le_value l = le_value l') as [Eb El] by lia.
  apply b2z_inj in Eb as ->. f_equal. apply IH; [lia | done].
Qed.

Lemma checkDocument_short (b : bytes) :
  blen b < 4 -> checkDocument (ofBytes b) = Crash Panic.
Proof.
  intros Hb. unfold checkDocument.
  rewrite (uint32FromBytes_outside b 0) by lia. reflexivity.
Qed.

(** X4: the checksum is decisive for a change of one byte: when a record
    passes [checkDocument], the same bytes with exactly one byte changed,
    in the checksum, the length fields, the key or the value, do not. *)
Theorem one_byte_change_rejected pre b b' suf :
  checkDocument (ofBytes (pre ++ b :: suf)) = Ok true ->
  b <> b' ->
  checkDocument (ofBytes (pre ++ b' :: suf)) = Ok false.
Proof.
  intros Hok Hne.
  assert (Hlen : 4 <= blen (pre ++ b :: suf)).
  { destruct (decide (4 <= blen (pre ++ b :: suf))); [done|].
    rewrite checkDocument_short in Hok by lia. done. }
  assert (Hlen' : blen (pre ++ b' :: suf) = blen (pre ++ b :: suf))
    by (rewrite !blen_app, !blen_cons; lia).
  rewrite checkDocument_bytes in Hok by done.
  rewrite checkDocument_bytes by lia.
  injection Hok as Hok. apply bool_decide_eq_true in Hok.
  f_equal. apply bool_decide_eq_false. intros E.
  destruct (decide (List.length pre < 4)%nat) as [Hp|Hp].
  - (* the changed byte lies in the checksum field *)
    assert (Ed : drop 4 (pre ++ b' :: suf) = drop 4 (pre ++ b :: suf)).
    { rewrite !drop_app_ge by lia.
      destruct (4 - List.length pre)%nat as [|n] eqn:En; [lia|]. done. }
    rewrite Ed, <- Hok in E. apply le_value_inj in E.
    + apply (f_equal (fun l => l !! List.length pre)) in E.
      rewrite !lookup_take_lt in E by lia.
      rewrite !list_lookup_middle in E by done. congruence.
    + rewrite !length_take. unfold blen in *. lia.
  - (* the changed byte lies after the checksum field *)
    assert (Et : take 4 (pre ++ b' :: suf) = take 4 (pre ++ b :: suf)).
    { rewrite !take_app_le by lia. done. }
    rewrite Et, Hok in E.
    rewrite !drop_app_le in E by lia.
    symmetry in E. apply Checksum_one_byte in E. done.
Qed.

Lemma one_byte_change_rejected_witness :
  checkDocument
    (ofBytes (take 14 (frame (str "Tom") (str "Oregon"))
              ++ "x"%byte :: drop 15 (frame (str "Tom") (str "Oregon"))))
  = Ok false.
Proof.
  apply (one_byte_change_rejected
           (take 14 (frame (str "Tom") (str "Oregon"))) "m"%byte "x"%byte
           (drop 15 (frame (str "Tom") (str "Oregon")))).
  - vm_compute. reflexivity.
  - discriminate.
Defined.

(** X5: [checkDocument] on a slice of fewer than four bytes panics, for
    it reads the four bytes of the checksum field first. *)
Theorem checkDocument_needs_four_bytes (b : bytes) :
  blen b < 4 -> checkDocument (ofBytes b) = Crash Panic.
Proof. apply checkDocument_short. Qed.

Lemma checkDocument_needs_four_bytes_witness :
  checkDocument (ofBytes (str "abc")) = Crash Panic.
Proof.
  apply (checkDocument_needs_four_bytes (str "abc")).
  vm_compute. reflexivity.
Defined.

End Detection.

(** ** How the operations of a handle compose *)

Section HandleOps.

Lemma string_of_list_byte_inj k k' :
  string_of_list_byte k = string_of_list_byte k' -> k = k'.
Proof.
  intros E. rewrite <- (list_byte_of_string_of_list_byte k), E.
  apply list_byte_of_string_of_list_byte.
Qed.

(** A pointer that lies within the file denotes the bytes of the file,
    in every map that covers the file and whatever is appended later. *)
Lemma readOAL_inside m loc pos file more buf oal :
  oal_ok oal -> offset oal + length oal <= blen file ->
  blen (file ++ more) <= buf -> buf < 2 ^ 64 ->
  readOAL (mkDB m loc pos (file ++ more) buf) oal
  = Ok (take (Z.to_nat (length oal)) (drop (Z.to_nat (offset oal)) file)).
Proof.
  intros [Ho Hl] Hin Hbuf Hb64. destruct oal as [off n]. simpl in *.
  pose proof (blen_nonneg more). rewrite blen_app in Hbuf.
  destruct (split_at file off n ltac:(lia) ltac:(lia) Hin)
    as (pre & mid & post & E & Hpre & Hmid & Epre & Epost).
  assert (Emid : take (Z.to_nat n) (drop (Z.to_nat off) file) = mid).
  { rewrite E. replace (Z.to_nat off) with (List.length pre)
      by (unfold blen in Hpre; lia).
    rewrite drop_app_length.
    replace (Z.to_nat n) with (List.length mid)
      by (unfold blen in Hmid; lia).
    apply take_app_length. }
  rewrite Emid. apply readOAL_region; [|lia|lia].
  unfold filebuf. simpl. rewrite <- Hpre.
  rewrite E, <- !app_assoc.
  apply region_mmapOf. rewrite !blen_app. rewrite E, !blen_app in Hbuf. lia.
Qed.

(** X6: [Upsert] and [Remove] of a key leave the answers of [Get] for
    every other key as they were: on a handle whose write position is
    not past the end of its file, for a key whose pointer lies within the
    file, when the map covers the file and the new record. *)
Theorem other_keys_unaffected k k' v d oal :
  k <> k' ->
  kToPos d !! string_of_list_byte k' = Some oal -> oal_ok oal ->
  offset oal + length oal <= blen (filehandle d) ->
  0 <= filledSize d <= blen (filehandle d) ->
  blen (filehandle d) + 12 + blen k + blen v <= filebuffer d ->
  filebuffer d < 2 ^ 64 ->
  exists d1 d2 s,
    Upsert Written k v d = Ok d1 /\ Remove Written k d = Ok d2 /\
    Get k' d = Ok (s, true) /\
    Get k' d1 = Ok (s, true) /\ Get k' d2 = Ok (s, true).
Proof.
  intros Hne Hk' Hoal Hin Hpos Hbuf Hb64.
  destruct d as [m loc pos file buf]. cbn [kToPos filehandle filledSize
    filebuffer] in *.
  pose proof (blen_nonneg file).
  pose proof (blen_nonneg k). pose proof (blen_nonneg v).
  assert (Hks : string_of_list_byte k <> string_of_list_byte k')
    by (intros E; by apply Hne, string_of_list_byte_inj).
  rewrite Upsert_spec, Remove_spec. do 3 eexists.
  split; [reflexivity|]. split; [reflexivity|].
  rewrite !Get_readOAL. cbn [kToPos location filehandle filledSize
    filebuffer fileWrite].
  rewrite lookup_insert_ne, lookup_delete_ne, Hk' by done.
  pose proof (readOAL_inside m loc pos file [] buf oal Hoal Hin) as R0.
  rewrite app_nil_r in R0. rewrite R0 by lia.
  assert (E1 : u64 (pos + u64 (12 + blen k + blen v))
               = pos + (12 + blen k + blen v)).
  { unfold u64. rewrite (Z.mod_small (12 + _ + _)) by lia.
    apply Z.mod_small. lia. }
  assert (E2 : u64 buf = buf) by (apply Z.mod_small; lia).
  rewrite E1, E2, decide_False by lia.
  split_and!; [reflexivity | |].
  - rewrite readOAL_inside; [reflexivity | done | done | | lia].
    rewrite blen_app, blen_frame. lia.
  - rewrite readOAL_inside; [reflexivity | done | done | | lia].
    rewrite blen_app, blen_frame. change (blen []) with 0. lia.
Qed.

Lemma other_keys_unaffected_witness :
  exists d1 d2 s,
    Upsert Written (str "Harry") (str "Wisconsin") tomDick = Ok d1 /\
    Remove Written (str "Harry") tomDick = Ok d2 /\
    Get (str "Dick") tomDick = Ok (s, true) /\
    Get (str "Dick") d1 = Ok (s, true) /\ Get (str "Dick") d2 = Ok (s, true).
Proof.
  apply (other_keys_unaffected (str "Harry") (str "Dick") (str "Wisconsin")
           tomDick (OAL 41 6)).
  - discriminate.
  - vm_compute. reflexivity.
  - split; simpl; lia.
  - vm_compute. discriminate.
  - split; vm_compute; discriminate.
  - vm_compute. discriminate.
  - vm_compute. reflexivity.
Defined.

(** X7: [Contains] and the presence flag of [Get] agree: whenever [Get]
    returns, its flag is the answer of [Contains]. *)
Theorem Contains_agrees_with_Get k d s p :
  Get k d = Ok (s, p) -> Contains k d = p.
Proof.
  unfold Get, Contains. destruct (kToPos d !! string_of_list_byte k) as [oal|].
  - destruct (getValAtOAL d oal) as [out| |]; cbn [mbind res_bind]; try done.
    destruct (readAll out); cbn [mbind res_bind]; try done.
    intros [= _ <-]. apply bool_decide_eq_true. eauto.
  - intros [= _ <-]. apply bool_decide_eq_false. by intros [? ?].
Qed.

Lemma Contains_agrees_with_Get_witness :
  Contains (str "Tom") tomDick = true.
Proof.
  apply (Contains_agrees_with_Get (str "Tom") tomDick "New York"%string true).
  vm_compute. reflexivity.
Defined.

(** X8: the size of the index after a mutation: [Upsert] adds one when
    the key was absent and nothing when it was present; [Remove] takes
    one away when the key was present and nothing when it was absent. *)
Theorem Size_after_mutation w k v d :
  exists d1 d2,
    Upsert w k v d = Ok d1 /\ Remove w k d = Ok d2 /\
    Size d1 = (if Contains k d then Size d else Size d + 1) /\
    Size d2 = (if Contains k d then Size d - 1 else Size d).
Proof.
  rewrite Upsert_spec, Remove_spec. do 2 eexists.
  split; [reflexivity|]. split; [reflexivity|].
  unfold Size, Contains. cbn [kToPos].
  destruct (kToPos d !! string_of_list_byte k) as [oal|] eqn:E.
  - rewrite bool_decide_eq_true_2 by eauto.
    assert (Hs : is_Some (kToPos d !! string_of_list_byte k)) by eauto.
    rewrite (map_size_insert_Some _ _ _ Hs), (map_size_delete_Some _ _ Hs).
    assert (size (kToPos d) <> 0%nat).
    { intros Hz. apply map_size_empty_inv in Hz.
      rewrite Hz, lookup_empty in E. done. }
    lia.
  - rewrite bool_decide_eq_false_2 by (by intros [? ?]).
    rewrite (map_size_insert_None _ _ _ E), (map_size_delete_None _ _ E).
    lia.
Qed.

(** X9: [Remove] of a key that is not in the index still appends a
    tombstone record: the index is unchanged, the data file grows by the
    12 + |k| bytes of the record, and the write position stays. *)
Theorem Remove_absent_still_writes k d :
  Contains k d = false ->
  exists d',
    Remove Written k d = Ok d' /\
    kToPos d' = kToPos d /\
    filehandle d' = filehandle d ++ frame k [] /\
    blen (filehandle d') = blen (filehandle d) + 12 + blen k /\
    filledSize d' = filledSize d.
Proof.
  intros Hc. rewrite Remove_spec. eexists. split; [reflexivity|].
  cbn [kToPos filehandle filledSize fileWrite]. split_and!.
  - apply delete_id. unfold Contains in Hc.
    apply bool_decide_eq_false in Hc.
    destruct (kToPos d !! string_of_list_byte k) eqn:E; [|done].
    exfalso. apply Hc. eauto.
  - done.
  - rewrite blen_app, blen_frame. change (blen []) with 0. lia.
  - done.
Qed.

Lemma Remove_absent_still_writes_witness :
  exists d',
    Remove Written (str "Harry") tomDick = Ok d' /\
    kToPos d' = kToPos tomDick /\
    filehandle d' = filehandle tomDick ++ frame (str "Harry") [] /\
    blen (filehandle d') = blen (filehandle tomDick) + 12 + 5 /\
    filledSize d' = filledSize tomDick.
Proof.
  apply (Remove_absent_still_writes (str "Harry") tomDick).
  vm_compute. reflexivity.
Defined.

End HandleOps.

(** ** Sequences of mutations on a handle *)

Section Sequences.

Lemma encode_app l1 l2 : encode (l1 ++ l2) = encode l1 ++ encode l2.
Proof. unfold encode. by rewrite map_app, concat_app. Qed.

Lemma encode_cons k v l : encode ((k, v) :: l) = frame k v ++ encode l.
Proof. reflexivity. Qed.

Lemma mutations_file ops :
  forall d, exists d',
    mutations ops d = Ok d' /\
    filehandle d' = filehandle d ++ encode (logOf ops).
Proof.
  induction ops as [|o ops IH]; intros d; cbn [mutations].
  - exists d. split; [done|]. simpl. by rewrite app_nil_r.
  - destruct o as [k v|k]; cbn [mutate].
    + rewrite Upsert_spec. cbn [mbind res_bind].
      destruct (IH (mkDB (<[string_of_list_byte k :=
                            getOAL (filledSize d) k v]> (kToPos d))
                         (location d)
                         (u64 (filledSize d + u64 (12 + blen k + blen v)))
                         (fileWrite Written (filehandle d) (frame k v))
                         (if decide (u64 (filledSize d
                                          + u64 (12 + blen k + blen v))
                                     > u64 (filebuffer d))
                          then match Mmap (i64 (filebuffer d * 2)) with
                               | Ok mmap => mmap
                               | _ => 0
                               end
                          else filebuffer d))) as (d' & Hd' & Hf).
      exists d'. split; [exact Hd'|]. rewrite Hf. simpl.
      by rewrite encode_cons, <- app_assoc.
    + rewrite Remove_spec. cbn [mbind res_bind].
      destruct (IH (mkDB (delete (string_of_list_byte k) (kToPos d))
                         (location d) (filledSize d)
                         (fileWrite Written (filehandle d) (frame k []))
                         (filebuffer d))) as (d' & Hd' & Hf).
      exists d'. split; [exact Hd'|]. rewrite Hf. simpl.
      by rewrite encode_cons, <- app_assoc.
Qed.

(** X10: the data file is the log of the mutations: whatever the handle,
    a sequence of [Upsert] and [Remove] calls returns, and it has
    appended to the file the frame of each record in order, a [Remove]
    being the record of its key with the empty value. *)
Theorem data_file_is_the_log ops d :
  exists d',
    mutations ops d = Ok d' /\
    filehandle d' = filehandle d ++ encode (logOf ops) /\
    location d' = location d.
Proof.
  destruct (mutations_file ops d) as (d' & Hd' & Hf).
  exists d'. split; [done|]. split; [done|].
  clear Hf. revert d d' Hd'.
  induction ops as [|o ops IH]; intros d d'; cbn [mutations].
  - by intros [= <-].
  - destruct o as [k v|k]; cbn [mutate].
    + rewrite Upsert_spec. cbn [mbind res_bind]. intros H.
      by apply IH in H.
    + rewrite Remove_spec. cbn [mbind res_bind]. intros H.
      by apply IH in H.
Qed.

Lemma points_at_app file more o v :
  points_at file o v -> points_at (file ++ more) o v.
Proof.
  intros (pre & post & -> & Ho & Hl). exists pre, (post ++ more).
  by rewrite <- !app_assoc.
Qed.

Lemma holds_Upsert d f k v :
  holds d f -> blen v < 2 ^ 32 ->
  blen (filehandle d) + 12 + blen k + blen v <= filebuffer d ->
  filebuffer d < 2 ^ 64 ->
  exists d',
    Upsert Written k v d = Ok d' /\
    holds d' (fun k' => if decide (k = k') then Some v else f k') /\
    filebuffer d' = filebuffer d /\
    filehandle d' = filehandle d ++ frame k v.
Proof.
  intros [Hpos Hf] Hv Hfit Hbuf.
  pose proof (blen_nonneg (filehandle d)).
  pose proof (blen_nonneg k). pose proof (blen_nonneg v).
  rewrite Upsert_spec.
  assert (E1 : u64 (filledSize d + u64 (12 + blen k + blen v))
               = blen (filehandle d) + 12 + blen k + blen v).
  { rewrite Hpos. unfold u64. rewrite (Z.mod_small (12 + _ + _)) by lia.
    rewrite Z.mod_small by lia. lia. }
  assert (E2 : u64 (filebuffer d) = filebuffer d)
    by (apply Z.mod_small; lia).
  rewrite E1, E2, decide_False by lia.
  eexists. split; [reflexivity|]. split; [|done].
  split; cbn [filledSize filehandle kToPos fileWrite].
  - rewrite blen_app, blen_frame. lia.
  - intros k'. case_decide as Hk.
    + subst k'. eexists. rewrite lookup_insert_eq. split; [done|].
      split; [|done]. unfold points_at, getOAL. simpl.
      exists (filehandle d ++ take 12 (frame k v) ++ k), [].
      split_and!.
      * unfold frame, frame_body. rewrite app_nil_r, <- !app_assoc. done.
      * rewrite Hpos, !blen_app. change (blen (take 12 (frame k v))) with 12.
        unfold u64. rewrite (Z.mod_small (blen k)) by lia.
        rewrite Z.mod_small by lia. lia.
      * apply Z.mod_small. lia.
    + assert (Hs : string_of_list_byte k <> string_of_list_byte k')
        by (intros E; by apply Hk, string_of_list_byte_inj).
      rewrite lookup_insert_ne by done.
      specialize (Hf k'). destruct (f k') as [v'|]; [|done].
      destruct Hf as (oal & Ho & Hp & Hl). exists oal.
      split_and!; [done | by apply points_at_app | done].
Qed.

Lemma holds_Get d f k :
  holds d f -> blen (filehandle d) <= filebuffer d ->
  blen (filehandle d) < 2 ^ 64 ->
  Get k d = match f k with
            | Some v => Ok (string_of_list_byte v, true)
            | None => Ok (EmptyString, false)
            end.
Proof.
  intros [_ Hf] Hbuf Hlt. specialize (Hf k). rewrite Get_readOAL.
  destruct (f k) as [v|].
  - destruct Hf as (oal & -> & Hp & _). destruct d as [m loc pos file buf].
    simpl in *. by rewrite (points_at_readOAL m loc pos file buf oal v).
  - by rewrite Hf.
Qed.

Lemma holds_ext d f g : (forall k, f k = g k) -> holds d f -> holds d g.
Proof.
  intros E [Hp Hf]. split; [done|]. intros k. rewrite <- E. apply Hf.
Qed.

Lemma upserts_hold kvs :
  forall d f,
    holds d f -> Forall (fun kv => blen kv.2 < 2 ^ 32) kvs ->
    blen (filehandle d) + blen (encode kvs) <= filebuffer d ->
    filebuffer d < 2 ^ 64 ->
    exists d',
      mutations (upsertsOf kvs) d = Ok d' /\
      holds d' (fun k => match lastValue k kvs with
                         | Some v => Some v
                         | None => f k
                         end) /\
      filebuffer d' = filebuffer d /\
      filehandle d' = filehandle d ++ encode kvs.
Proof.
  induction kvs as [|[k v] kvs IH]; intros d f Hh Hv Hfit Hbuf.
  - exists d. split; [done|]. split; [done|]. split; [done|].
    simpl. by rewrite app_nil_r.
  - apply Forall_cons in Hv as [Hv Hvs]. simpl in Hv.
    rewrite blen_encode_cons in Hfit.
    pose proof (blen_encode_nonneg kvs).
    destruct (holds_Upsert d f k v Hh Hv ltac:(lia) Hbuf)
      as (d1 & E1 & Hh1 & Hb1 & Hf1).
    destruct (IH d1 _ Hh1 Hvs) as (d' & E' & Hh' & Hb' & Hf').
    { rewrite Hf1, Hb1, blen_app, blen_frame. lia. }
    { by rewrite Hb1. }
    exists d'. split_and!.
    + cbn [upsertsOf map mutations mutate fst snd]. rewrite E1.
      cbn [mbind res_bind]. exact E'.
    + eapply holds_ext; [|exact Hh']. intros k'. cbn [lastValue].
      destruct (lastValue k' kvs); [done|]. by case_decide.
    + by rewrite Hb', Hb1.
    + by rewrite Hf', Hf1, encode_cons, <- app_assoc.
Qed.

Lemma NewDB_holds loc :
  exists d, NewDB loc = Ok d /\ holds d (fun _ => None) /\
            filebuffer d = 4000000000 /\ filehandle d = [] /\
            location d = loc.
Proof.
  eexists. split; [reflexivity|]. split; [|done]. split; [done|].
  intros k. apply lookup_empty.
Qed.

(** X11: last writer wins on a fresh handle that is only upserted.
    After [NewDB] and any sequence of [Upsert] calls whose records total
    at most 4000000000 bytes, with values shorter than 2^32 bytes,
    [Get(k)] returns the value of the most recent [Upsert] of [k] and
    true, or the empty string and false when [k] was never upserted. *)
Theorem last_upsert_wins loc kvs k :
  Forall (fun kv => blen kv.2 < 2 ^ 32) kvs ->
  blen (encode kvs) <= 4000000000 ->
  exists d,
    (d0 ← NewDB loc; mutations (upsertsOf kvs) d0) = Ok d /\
    Get k d = match lastValue k kvs with
              | Some v => Ok (string_of_list_byte v, true)
              | None => Ok (EmptyString, false)
              end.
Proof.
  intros Hv Hsz.
  destruct (NewDB_holds loc) as (d0 & E0 & Hh0 & Hb0 & Hf0 & _).
  destruct (upserts_hold kvs d0 _ Hh0 Hv) as (d & E & Hh & Hb & Hf).
  { rewrite Hf0, Hb0. change (blen []) with 0. lia. }
  { rewrite Hb0. lia. }
  exists d. split; [by rewrite E0|].
  rewrite (holds_Get d _ k Hh).
  - by destruct (lastValue k kvs).
  - rewrite Hf, Hf0, Hb, Hb0. simpl. lia.
  - rewrite Hf, Hf0. simpl. lia.
Qed.

Lemma last_upsert_wins_witness :
  exists d,
    (d0 ← NewDB "db";
     mutations (upsertsOf [(str "Tom", str "Washington");
                           (str "Dick", str "Oregon");
                           (str "Tom", str "New York")]) d0) = Ok d /\
    Get (str "Tom") d = Ok ("New York"%string, true).
Proof.
  apply (last_upsert_wins "db" [(str "Tom", str "Washington");
                                (str "Dick", str "Oregon");
                                (str "Tom", str "New York")] (str "Tom")).
  - repeat constructor; vm_compute; reflexivity.
  - vm_compute. discriminate.
Defined.

Lemma mutations_location ops :
  forall d d', mutations ops d = Ok d' -> location d' = location d.
Proof.
  induction ops as [|o ops IH]; intros d d'; cbn [mutations].
  - by intros [= <-].
  - destruct o as [k v|k]; cbn [mutate].
    + rewrite Upsert_spec. cbn [mbind res_bind]. intros H.
      by apply IH in H.
    + rewrite Remove_spec. cbn [mbind res_bind]. intros H.
      by apply IH in H.
Qed.

(** X12: what was written can be verified.  After [NewDB] and any
    sequence of [Upsert] and [Remove] calls whose keys and values fit
    their length fields, [OpenAndVerifyDB] on the data file reports no
    corruption, puts the write position at the end of the file and
    builds the index by replaying the records in order. *)
Theorem recovery_after_mutations loc ops (fs : FS) :
  Forall rec_ok (logOf ops) ->
  blen (encode (logOf ops)) < 2 ^ 62 ->
  exists d mmap,
    (d0 ← NewDB loc; mutations ops d0) = Ok d /\
    OpenAndVerifyDB loc (<[loc := filehandle d]> fs)
    = Some (Ok (mkDB (replay (logOf ops) ∅ 0).1 loc
                     (blen (filehandle d)) (filehandle d) mmap, None)).
Proof.
  intros Hok Hsz.
  destruct (NewDB_holds loc) as (d0 & E0 & _ & _ & Hf0 & Hl0).
  destruct (mutations_file ops d0) as (d & E & Hf).
  rewrite Hf0 in Hf. simpl in Hf.
  destruct (OpenAndVerifyDB_valid loc (<[loc := filehandle d]> fs)
              (logOf ops) Hok) as (mmap & Ho).
  { rewrite lookup_insert_eq. by rewrite Hf. }
  { done. }
  exists d, mmap. split; [by rewrite E0|]. rewrite Ho. by rewrite Hf.
Qed.

Lemma recovery_after_mutations_witness :
  exists d mmap,
    (d0 ← NewDB "db";
     mutations [DoUpsert (str "Tom") (str "Washington");
                DoRemove (str "Tom");
                DoUpsert (str "Dick") (str "Oregon")] d0) = Ok d /\
    OpenAndVerifyDB "db" (<["db"%string := filehandle d]> ∅)
    = Some (Ok (mkDB {[ "Dick"%string := OAL 56 6 ]} "db"
                     (blen (filehandle d)) (filehandle d) mmap, None)).
Proof.
  destruct (recovery_after_mutations "db"
              [DoUpsert (str "Tom") (str "Washington");
               DoRemove (str "Tom");
               DoUpsert (str "Dick") (str "Oregon")] ∅)
    as (d & mmap & H1 & H2).
  - repeat constructor; vm_compute; reflexivity.
  - vm_compute. reflexivity.
  - exists d, mmap. split; [exact H1|]. rewrite H2.
    repeat f_equal.
Defined.

Lemma logOf_upsertsOf kvs : logOf (upsertsOf kvs) = kvs.
Proof.
  unfold logOf, upsertsOf. rewrite map_map.
  induction kvs as [|[k v] kvs IH]; simpl; [done|]. by rewrite IH.
Qed.

(** The index a writer builds by upserts of non-empty values is the one
    the replay of its records builds. *)
Lemma upserts_index kvs :
  forall d d',
    Forall (fun kv => blen kv.1 < 2 ^ 32 /\ 0 < blen kv.2 < 2 ^ 32) kvs ->
    0 <= filledSize d -> filledSize d + blen (encode kvs) < 2 ^ 64 ->
    mutations (upsertsOf kvs) d = Ok d' ->
    kToPos d' = (replay kvs (kToPos d) (filledSize d)).1 /\
    filledSize d' = filledSize d + blen (encode kvs).
Proof.
  induction kvs as [|[k v] kvs IH]; intros d d' Hok Hpos Hlt.
  - cbn [upsertsOf map mutations]. intros [= <-]. simpl.
    change (blen (encode [])) with 0. split; [done | lia].
  - apply Forall_cons in Hok as [[Hk Hv] Hok]. simpl in Hk, Hv.
    rewrite blen_encode_cons in *.
    pose proof (blen_encode_nonneg kvs).
    pose proof (blen_nonneg k). pose proof (blen_nonneg v).
    cbn [upsertsOf map mutations mutate fst snd].
    rewrite Upsert_spec. cbn [mbind res_bind]. intros H'.
    apply IH in H'; [|done|cbn [filledSize]|cbn [filledSize]].
    + destruct H' as [Hm Hp]. cbn [kToPos filledSize] in Hm, Hp.
      assert (E1 : u64 (filledSize d + u64 (12 + blen k + blen v))
                   = filledSize d + 12 + blen k + blen v).
      { unfold u64. rewrite (Z.mod_small (12 + _ + _)) by lia.
        rewrite Z.mod_small by lia. lia. }
      rewrite E1 in Hm, Hp. split; [|lia].
      rewrite Hm. cbn [replay]. f_equal. unfold applyRecord, getOAL.
      rewrite decide_True by lia. f_equal.
      unfold u64, u32. rewrite (Z.mod_small (blen k)) by lia.
      rewrite (Z.mod_small (blen v)) by lia.
      by rewrite Z.mod_small by lia.
    + unfold u64. apply Z.mod_pos_bound. lia.
    + unfold u64. rewrite (Z.mod_small (12 + _ + _)) by lia.
      rewrite Z.mod_small by lia. lia.
Qed.

(** X13: recovery after a crash reproduces the writer's state.  After
    [NewDB] and any sequence of [Upsert] calls with non-empty values
    (keys and values shorter than 2^32 bytes), [OpenAndVerifyDB] on the
    data file, with no key snapshot involved, gives a handle with the
    writer's index, write position and file, and no corruption report. *)
Theorem recovery_reproduces_upserts loc kvs (fs : FS) :
  Forall (fun kv => blen kv.1 < 2 ^ 32 /\ 0 < blen kv.2 < 2 ^ 32) kvs ->
  blen (encode kvs) < 2 ^ 62 ->
  exists d mmap,
    (d0 ← NewDB loc; mutations (upsertsOf kvs) d0) = Ok d /\
    OpenAndVerifyDB loc (<[loc := filehandle d]> fs)
    = Some (Ok (mkDB (kToPos d) loc (filledSize d) (filehandle d) mmap,
                None)).
Proof.
  intros Hok Hsz.
  destruct (NewDB_holds loc) as (d0 & E0 & [Hp0 _] & _ & Hf0 & Hl0).
  destruct (mutations_file (upsertsOf kvs) d0) as (d & E & Hf).
  rewrite Hf0, logOf_upsertsOf in Hf. simpl in Hf.
  rewrite Hf0 in Hp0. change (blen []) with 0 in Hp0.
  pose proof (blen_encode_nonneg kvs).
  destruct (upserts_index kvs d0 d Hok) as [Hm Hp]; [lia | lia | done |].
  assert (Hm0 : kToPos d0 = ∅) by (by injection E0 as <-).
  rewrite Hm0, Hp0 in Hm. rewrite Hp0, Z.add_0_l in Hp.
  destruct (OpenAndVerifyDB_valid loc (<[loc := filehandle d]> fs) kvs)
    as (mmap & Ho).
  { eapply Forall_impl; [exact Hok|]. intros [k v] [? ?]. split; simpl in *; lia. }
  { rewrite lookup_insert_eq. by rewrite Hf. }
  { done. }
  exists d, mmap. split; [by rewrite E0|].
  rewrite Ho, Hm, Hp, Hf. done.
Qed.

Lemma recovery_reproduces_upserts_witness :
  exists d mmap,
    (d0 ← NewDB "db";
     mutations (upsertsOf [(str "Tom", str "Washington");
                           (str "Tom", str "Oregon")]) d0) = Ok d /\
    OpenAndVerifyDB "db" (<["db"%string := filehandle d]> ∅)
    = Some (Ok (mkDB (kToPos d) "db" (filledSize d) (filehandle d) mmap,
                None)).
Proof.
  apply (recovery_reproduces_upserts "db"
           [(str "Tom", str "Washington"); (str "Tom", str "Oregon")] ∅).
  - repeat constructor; vm_compute; reflexivity.
  - vm_compute. reflexivity.
Defined.

End Sequences.

(** ** Consolidation followed by a verified open *)

Section ConsolidateThenVerify.

Lemma sumZ_entrySize_nonneg ord :
  Forall (fun e => oal_ok e.2 /\ 0 < length e.2 /\ slen e.1 < 2 ^ 32) ord ->
  0 <= sumZ (entrySize <$> ord).
Proof.
  induction 1 as [|[k oal] ord (_ & Hl & _) _ IH]; [done|].
  rewrite fmap_cons. unfold sumZ in *. cbn [foldr].
  change (entrySize (k, oal)) with (12 + slen k + length oal).
  pose proof (slen_nonneg k). simpl in Hl. lia.
Qed.

(** With non-empty values, the loop of [Consolidate] builds its index and
    position as the replay of the records it writes does. *)
Lemma consolidateLoop_replay d ord :
  Forall (fun e => oal_ok e.2 /\ 0 < length e.2 /\ slen e.1 < 2 ^ 32) ord ->
  forall m pos tmp m' pos' tmp',
    consolidateLoop d ord (m, pos, tmp) = Ok (m', pos', tmp') ->
    0 <= pos -> pos + sumZ (entrySize <$> ord) < 2 ^ 64 ->
    exists recs,
      Forall rec_ok recs /\ tmp' = tmp ++ encode recs /\
      (m', pos') = replay recs m pos.
Proof.
  induction 1 as [|[k oal] ord (Hoal & Hl & Hk) Hrest IH];
    intros m pos tmp m' pos' tmp' Hloop Hpos Hlt.
  - cbn [consolidateLoop] in Hloop. injection Hloop as <- <- <-.
    exists []. split; [constructor|]. split; [|done].
    simpl. by rewrite app_nil_r.
  - cbn [consolidateLoop] in Hloop. simpl in Hl, Hk.
    destruct (consolidateStep d (m, pos, tmp) (k, oal)) as [st1| |] eqn:E;
      cbn [mbind res_bind] in Hloop; try done.
    destruct (consolidateStep_inv _ _ _ _ _ _ _ E) as [v Hv].
    rewrite (consolidateStep_ok _ _ _ _ _ _ _ Hv) in E.
    injection E as <-.
    destruct (readOAL_inv _ _ _ Hoal Hv) as (Hlen & _ & _).
    destruct Hoal as [_ Hl32]. simpl in Hlen, Hl32.
    pose proof (sumZ_entrySize_nonneg ord Hrest) as Hs.
    rewrite fmap_cons in Hlt. unfold sumZ in Hlt, Hs. cbn [foldr] in Hlt.
    change (entrySize (k, oal)) with (12 + slen k + length oal) in Hlt.
    pose proof (slen_nonneg k).
    set (kb := list_byte_of_string k) in *.
    assert (Hkb : blen kb = slen k) by apply blen_str.
    assert (E1 : u64 (pos + u64 (12 + slen k + blen v))
                 = pos + 12 + blen kb + blen v).
    { unfold u64. rewrite (Z.mod_small (12 + _ + _)) by lia.
      rewrite Z.mod_small by lia. lia. }
    rewrite E1 in Hloop.
    apply IH in Hloop; [|lia|unfold sumZ; lia].
    destruct Hloop as (recs & Hok & Htmp & Hrep).
    exists ((kb, v) :: recs). split_and!.
    + constructor; [|done]. split; simpl; lia.
    + rewrite Htmp, encode_cons, <- app_assoc. done.
    + rewrite Hrep. cbn [replay]. f_equal. unfold applyRecord.
      rewrite decide_True by lia.
      replace (string_of_list_byte kb) with k
        by (unfold kb; by rewrite string_of_list_byte_of_string).
      f_equal. unfold getOAL.
      assert (Ea : u64 (pos + 12 + u64 (blen kb)) = pos + 12 + blen kb).
      { unfold u64. rewrite (Z.mod_small (blen kb)) by lia.
        apply Z.mod_small. lia. }
      assert (Eb : u32 (blen v) = blen v) by (apply Z.mod_small; lia).
      by rewrite Ea, Eb.
Qed.

(** X15: a consolidated file verifies.  When every value of the index is
    non-empty (and keys are shorter than 2^32 bytes), [OpenAndVerifyDB]
    on the file [Consolidate] wrote reports no corruption and gives a
    handle with the index, write position and file [Consolidate]
    installed. *)
Theorem consolidated_file_verifies d ord (fs : FS) :
  readable d -> iteration d ord -> liveBytes (kToPos d) < 2 ^ 62 ->
  map_Forall (fun k oal => 0 < length oal /\ slen k < 2 ^ 32) (kToPos d) ->
  exists d' mmap,
    Consolidate ord d = Ok d' /\
    OpenAndVerifyDB (location d) (<[location d := filehandle d']> fs)
    = Some (Ok (mkDB (kToPos d') (location d) (filledSize d')
                     (filehandle d') mmap, None)).
Proof.
  intros Hr Hit Hsz Hne.
  destruct (Consolidate_spec d ord Hr Hit Hsz)
    as (mNew & tmp & buf & Hc & Hlen & _).
  destruct (readable_order _ _ Hr Hit) as [Hok _].
  assert (Hall : Forall (fun e => oal_ok e.2 /\ 0 < length e.2
                                  /\ slen e.1 < 2 ^ 32) ord).
  { apply map_Forall_to_list in Hne. unfold iteration in Hit.
    rewrite <- Hit in Hne. rewrite Forall_forall in Hok, Hne.
    apply Forall_forall. intros [k oal] Hin.
    specialize (Hok _ Hin). specialize (Hne _ Hin). simpl in *.
    tauto. }
  pose proof Hc as Hc'. unfold Consolidate in Hc'.
  destruct (consolidateLoop d ord (∅, 0, [])) as [[[m p] t]| |] eqn:Hloop;
    cbn [mbind res_bind] in Hc'; try done.
  destruct (Munmap (filebuffer d)) as [[]| |];
    cbn [mbind res_bind] in Hc'; try done.
  destruct (makeFilebuf t) as [b| |]; cbn [mbind res_bind] in Hc'; try done.
  injection Hc' as -> -> -> _.
  assert (Hlive : sumZ (entrySize <$> ord) = liveBytes (kToPos d)).
  { unfold liveBytes. apply sumZ_perm. by rewrite Hit. }
  destruct (consolidateLoop_replay d ord Hall _ _ _ _ _ _ Hloop)
    as (recs & Hrok & Htmp & Hrep); [lia | lia |].
  simpl in Htmp. subst tmp.
  destruct (OpenAndVerifyDB_valid (location d)
              (<[location d := encode recs]> fs) recs Hrok)
    as (mmap & Ho); [apply lookup_insert_eq | lia |].
  exists (mkDB mNew (location d) (blen (encode recs)) (encode recs) buf), mmap.
  split; [exact Hc|]. cbn [kToPos filledSize filehandle].
  rewrite Ho. by rewrite <- Hrep.
Qed.

Lemma consolidated_file_verifies_witness :
  exists d' mmap,
    Consolidate (map_to_list (kToPos tomDick)) tomDick = Ok d' /\
    OpenAndVerifyDB "db" (<["db"%string := filehandle d']> ∅)
    = Some (Ok (mkDB (kToPos d') "db" (filledSize d') (filehandle d') mmap,
                None)).
Proof.
  apply (consolidated_file_verifies tomDick (map_to_list (kToPos tomDick)) ∅).
  - exact tomDick_readable.
  - unfold iteration. reflexivity.
  - vm_compute. reflexivity.
  - apply map_Forall_to_list.
    assert (E : map_to_list (kToPos tomDick)
                = [("Tom"%string, OAL 62 8); ("Dick"%string, OAL 41 6)])
      by (vm_compute; reflexivity).
    rewrite E. repeat constructor; vm_compute; reflexivity.
Defined.

(** X14: [Consolidate] compacts.  On a readable handle it succeeds, the
    new file is the frames of the indexed keys, one each in the order of
    the iteration, and both its length and the write position are the
    sum over the index of 12 + |k| + |v|. *)
Theorem Consolidate_file_and_size d ord :
  readable d -> iteration d ord -> liveBytes (kToPos d) < 2 ^ 62 ->
  exists d' vs,
    Consolidate ord d = Ok d' /\
    Forall2 (fun e v => readOAL d e.2 = Ok v) ord vs /\
    filehandle d' = concat (zip_with
                      (fun e v => frame (list_byte_of_string e.1) v)
                      ord vs) /\
    blen (filehandle d') = liveBytes (kToPos d) /\
    filledSize d' = liveBytes (kToPos d) /\
    dom (kToPos d') = dom (kToPos d).
Proof.
  intros Hr Hit Hsz.
  destruct (Consolidate_spec d ord Hr Hit Hsz)
    as (mNew & tmp & buf & Hc & Hlen & _ & Hnone & _).
  pose proof Hc as Hc'. unfold Consolidate in Hc'.
  destruct (consolidateLoop d ord (∅, 0, [])) as [[[m p] t]| |] eqn:Hloop;
    cbn [mbind res_bind] in Hc'; try done.
  destruct (Munmap (filebuffer d)) as [[]| |];
    cbn [mbind res_bind] in Hc'; try done.
  destruct (makeFilebuf t) as [b| |]; cbn [mbind res_bind] in Hc'; try done.
  injection Hc' as -> _ -> _.
  destruct (consolidateLoop_file _ _ _ _ Hloop) as (vs & Hvs & Hfile).
  simpl in Hfile.
  eexists; exists vs. split; [exact Hc|]. cbn [filehandle filledSize kToPos].
  split_and!; [done | done | done | done |].
  apply set_eq. intros k. rewrite !elem_of_dom, <- !not_eq_None_Some.
  by rewrite Hnone.
Qed.

Lemma Consolidate_file_and_size_witness :
  exists d' vs,
    Consolidate (map_to_list (kToPos tomDick)) tomDick = Ok d' /\
    Forall2 (fun e v => readOAL tomDick e.2 = Ok v)
            (map_to_list (kToPos tomDick)) vs /\
    filehandle d' = concat (zip_with
                      (fun e v => frame (list_byte_of_string e.1) v)
                      (map_to_list (kToPos tomDick)) vs) /\
    blen (filehandle d') = liveBytes (kToPos tomDick) /\
    filledSize d' = liveBytes (kToPos tomDick) /\
    dom (kToPos d') = dom (kToPos tomDick).
Proof.
  apply (Consolidate_file_and_size tomDick).
  - exact tomDick_readable.
  - unfold iteration. reflexivity.
  - vm_compute. reflexivity.
Defined.

End ConsolidateThenVerify.

(** ** The key snapshot: what [Close] writes and [OpenDB] reads *)

Section Snapshot.

Lemma Close_appends_file d ord (fs : FS) :
  exists fs' e,
    Close ord d fs = Ok (fs', e) /\
    fs' !! location d = Some (filehandle d).
Proof.
  unfold Close. rewrite dumpKeys_frames. cbn [mbind res_bind].
  destruct (Munmap (filebuffer d)) as [[]|e|c]; do 2 eexists;
    (split; [reflexivity|]);
    rewrite lookup_insert_ne, lookup_insert_eq by apply keysPath_ne; done.
Qed.


(** X17: in a key snapshot the last entry for a key wins: reading a key
    file made of entries of the format gives the index that maps each
    key to the pointer of its last entry. *)
Theorem populateKeys_last_entry_wins l :
  l <> [] -> Forall entry_ok l ->
  blen (concat (keyFrame <$> l)) < 2 ^ 63 ->
  populateKeys (concat (keyFrame <$> l))
  = Some (Ok (list_to_map (reverse l))).
Proof.
  intros Hne Hok Hlt. set (keys := concat (keyFrame <$> l)) in *.
  pose proof (length_keyFrames l) as Hn. fold keys in Hn.
  assert (Hpos : 0 < blen keys).
  { destruct l; [done|]. simpl in Hn. lia. }
  unfold populateKeys.
  assert (E : i64 (blen keys) = blen keys).
  { unfold i64. rewrite Z.mod_small by lia. lia. }
  rewrite E. unfold Mmap. rewrite decide_False by lia.
  assert (Hfuel : exists fuel,
             S (List.length keys) = (List.length l + fuel)%nat).
  { exists (S (List.length keys) - List.length l)%nat.
    unfold blen in *. lia. }
  destruct Hfuel as [fuel ->].
  rewrite (populateLoop_frames _ l Hok); [| |simpl; fold keys; lia|simpl; lia].
  - by rewrite foldl_insert_list_to_map.
  - pose proof (region_mmapOf [] keys [] (blen keys)) as Hr.
    rewrite app_nil_r in Hr. apply Hr. simpl. lia.
Qed.

Lemma populateKeys_last_entry_wins_witness :
  populateKeys (concat (keyFrame <$> [("a"%string, OAL 13 1);
                                      ("b"%string, OAL 27 2);
                                      ("a"%string, OAL 42 3)]))
  = Some (Ok (list_to_map (reverse [("a"%string, OAL 13 1);
                                    ("b"%string, OAL 27 2);
                                    ("a"%string, OAL 42 3)]))).
Proof.
  apply (populateKeys_last_entry_wins [("a"%string, OAL 13 1);
                                       ("b"%string, OAL 27 2);
                                       ("a"%string, OAL 42 3)]).
  - discriminate.
  - repeat constructor; vm_compute; try reflexivity; discriminate.
  - vm_compute. reflexivity.
Defined.

(** X19: [OpenDB] needs a key snapshot that is not empty: when the key
    file is missing or empty, mapping it fails and [OpenDB] returns the
    error EINVAL, whatever the data file holds. *)
Theorem OpenDB_without_snapshot loc (fs : FS) :
  readFile fs (keysPath loc) = [] ->
  blen (readFile fs loc) < 2 ^ 62 ->
  OpenDB loc fs = Some (Err EINVAL).
Proof.
  intros Hk Hf. unfold OpenDB.
  destruct (makeFilebuf_ok _ Hf) as (mmap & -> & _).
  by rewrite Hk.
Qed.

Lemma OpenDB_without_snapshot_witness :
  OpenDB "db" {[ "db"%string := frame (str "Tom") (str "Oregon") ]}
  = Some (Err EINVAL).
Proof.
  apply OpenDB_without_snapshot; vm_compute; reflexivity.
Defined.

Lemma makeFilebuf_upper f mlen :
  blen f < 2 ^ 62 -> makeFilebuf f = Ok mlen -> mlen < 2 ^ 63.
Proof.
  intros Hf. pose proof (blen_nonneg f). unfold makeFilebuf. cbv zeta.
  assert (E : i64 (blen f) = blen f).
  { unfold i64. rewrite Z.mod_small by lia. lia. }
  rewrite E. destruct (decide (blen f < 4000000000)); unfold Mmap.
  - rewrite decide_False by lia. intros [= <-]. lia.
  - assert (E2 : i64 (blen f * 2) = blen f * 2).
    { unfold i64. rewrite Z.mod_small by lia. lia. }
    rewrite E2, decide_False by lia. intros [= <-]. lia.
Qed.

(** X18: recovery through the first key snapshot.  When the key file did
    not exist, the index is not empty and its pointers lie within the
    file, [Close] followed by [OpenDB] gives a handle with the same
    index over the same file, its write position at the end of the file,
    and every [Get] answers as before [Close]. *)
Theorem reopen_first_snapshot d ord (fs : FS) :
  iteration d ord -> ord <> [] ->
  map_Forall (fun k oal => oal_ok oal /\ slen k < 2 ^ 32 /\
                offset oal + length oal <= blen (filehandle d))
             (kToPos d) ->
  readFile fs (keysPath (location d)) = [] ->
  blen (filehandle d) < 2 ^ 62 ->
  blen (filehandle d) <= filebuffer d -> filebuffer d < 2 ^ 64 ->
  blen (concat (keyFrame <$> ord)) < 2 ^ 63 ->
  exists fs' e d',
    Close ord d fs = Ok (fs', e) /\
    OpenDB (location d) fs' = Some (Ok d') /\
    kToPos d' = kToPos d /\ filehandle d' = filehandle d /\
    filledSize d' = blen (filehandle d) /\
    forall k, Get k d' = Get k d.
Proof.
  intros Hit Hne Hall Hkeys Hf Hbuf Hb64 Hk.
  assert (Hok : Forall entry_ok ord).
  { apply map_Forall_to_list in Hall. unfold iteration in Hit.
    rewrite <- Hit in Hall. eapply Forall_impl; [exact Hall|].
    intros [k oal] (? & ? & ?). by split. }
  destruct (Close_then_OpenDB d ord fs Hit Hne Hok Hkeys Hf Hk)
    as (fs' & e & mmap & Hc & Ho).
  exists fs', e. eexists. split; [exact Hc|]. split; [exact Ho|].
  cbn [kToPos filehandle filledSize]. split_and!; try done.
  intros k. rewrite !Get_readOAL. cbn [kToPos].
  destruct (kToPos d !! string_of_list_byte k) as [oal|] eqn:E; [|done].
  destruct (Hall _ _ E) as (Hoal & _ & Hin).
  assert (Hm : makeFilebuf (filehandle d) = Ok mmap).
  { unfold OpenDB in Ho. destruct (makeFilebuf_ok _ Hf) as (mm & Hmm & _).
    unfold readFile in Ho.
    assert (E1 : fs' !! location d = Some (filehandle d)).
    { destruct (Close_appends_file d ord fs) as (fs2 & e2 & Hc2 & Hf2).
      rewrite Hc in Hc2. injection Hc2 as <- <-. exact Hf2. }
    rewrite E1 in Ho. simpl default in Ho. rewrite Hmm in Ho.
    destruct (populateKeys _) as [[?| |]|]; try done.
    congruence. }
  destruct (makeFilebuf_ok _ Hf) as (mm & Hmm & Hle & _).
  rewrite Hm in Hmm. injection Hmm as <-.
  pose proof (makeFilebuf_upper _ _ Hf Hm).
  pose proof (readOAL_inside (kToPos d) (location d) (blen (filehandle d))
                (filehandle d) [] mmap oal Hoal Hin) as R1.
  rewrite app_nil_r in R1. rewrite R1 by lia.
  destruct d as [m loc pos file buf]. simpl in *.
  pose proof (readOAL_inside m loc pos file [] buf oal Hoal Hin) as R0.
  rewrite app_nil_r in R0. by rewrite R0 by lia.
Qed.

Lemma reopen_first_snapshot_witness :
  exists fs' e d',
    Close (map_to_list (kToPos tomDick)) tomDick ∅ = Ok (fs', e) /\
    OpenDB (location tomDick) fs' = Some (Ok d') /\
    kToPos d' = kToPos tomDick /\ filehandle d' = filehandle tomDick /\
    filledSize d' = blen (filehandle tomDick) /\
    forall k, Get k d' = Get k tomDick.
Proof.
  assert (E : map_to_list (kToPos tomDick)
              = [("Tom"%string, OAL 62 8); ("Dick"%string, OAL 41 6)])
    by (vm_compute; reflexivity).
  apply (reopen_first_snapshot tomDick (map_to_list (kToPos tomDick)) ∅).
  - unfold iteration. reflexivity.
  - rewrite E. discriminate.
  - apply map_Forall_to_list. rewrite E.
    repeat constructor; vm_compute; try reflexivity; discriminate.
  - reflexivity.
  - vm_compute. reflexivity.
  - vm_compute. discriminate.
  - vm_compute. reflexivity.
  - rewrite E. vm_compute. reflexivity.
Defined.

Lemma ofBytes_faults f i :
  rd (ofBytes f) i = Crash Panic \/ exists b, rd (ofBytes f) i = Ok b.
Proof. simpl. case_decide; eauto. Qed.

Lemma mmapOf_exact f i : rd (mmapOf f (blen f)) i = rd (ofBytes f) i.
Proof.
  simpl. case_decide as H; [|done]. by rewrite decide_True by lia.
Qed.

Lemma uint32FromBytes_ext s s' i :
  (forall j, rd s j = rd s' j) ->
  uint32FromBytes s i = uint32FromBytes s' i.
Proof. intros E. unfold uint32FromBytes. by rewrite !E. Qed.

Lemma uint64FromBytes_ext s s' i :
  (forall j, rd s j = rd s' j) ->
  uint64FromBytes s i = uint64FromBytes s' i.
Proof. intros E. unfold uint64FromBytes. by rewrite !E. Qed.

Lemma uint32FromBytes_faults f i :
  uint32FromBytes (ofBytes f) i = Crash Panic \/
  exists z, uint32FromBytes (ofBytes f) i = Ok z.
Proof.
  unfold uint32FromBytes.
  destruct (ofBytes_faults f i) as [->|[b0 ->]]; [by left|].
  destruct (ofBytes_faults f (u64 (i + 1))) as [->|[b1 ->]]; [by left|].
  destruct (ofBytes_faults f (u64 (i + 2))) as [->|[b2 ->]]; [by left|].
  destruct (ofBytes_faults f (u64 (i + 3))) as [->|[b3 ->]]; [by left|].
  right. eexists. reflexivity.
Qed.

Lemma uint64FromBytes_faults f i :
  uint64FromBytes (ofBytes f) i = Crash Panic \/
  exists z, uint64FromBytes (ofBytes f) i = Ok z /\ u64 (i + 7) < blen f.
Proof.
  unfold uint64FromBytes.
  destruct (ofBytes_faults f i) as [->|[b0 ->]]; [by left|].
  destruct (ofBytes_faults f (u64 (i + 1))) as [->|[b1 ->]]; [by left|].
  destruct (ofBytes_faults f (u64 (i + 2))) as [->|[b2 ->]]; [by left|].
  destruct (ofBytes_faults f (u64 (i + 3))) as [->|[b3 ->]]; [by left|].
  destruct (ofBytes_faults f (u64 (i + 4))) as [->|[b4 ->]]; [by left|].
  destruct (ofBytes_faults f (u64 (i + 5))) as [->|[b5 ->]]; [by left|].
  destruct (ofBytes_faults f (u64 (i + 6))) as [->|[b6 ->]]; [by left|].
  destruct (ofBytes_faults f (u64 (i + 7))) as [->|[b7 E7]]; [by left|].
  rewrite E7. right. eexists. split; [reflexivity|].
  simpl in E7. case_decide; [lia | done].
Qed.

(** One turn of [populateKeys] at an entry that the key file does not
    hold in full panics: the map over the key file has the length of the
    file. *)
Lemma populateStep_truncated keys m pos :
  0 <= pos < blen keys -> blen keys < 2 ^ 63 ->
  blen keys < pos + 16 + le_value (take 4 (drop (Z.to_nat pos) keys)) ->
  populateStep (mmapOf keys (blen keys)) m pos = Crash Panic.
Proof.
  intros Hpos Hlt Htr.
  assert (Hu : forall z, 0 <= z < 2 ^ 64 -> u64 z = z)
    by (intros; apply Z.mod_small; lia).
  unfold populateStep.
  rewrite (uint32FromBytes_ext _ (ofBytes keys) pos (mmapOf_exact keys)).
  rewrite (uint32FromBytes_ext _ (ofBytes keys) _ (mmapOf_exact keys)).
  rewrite (uint64FromBytes_ext _ (ofBytes keys) _ (mmapOf_exact keys)).
  rewrite (Hu (pos + 4)), (Hu (pos + 8)), (Hu (pos + 16)) by lia.
  destruct (decide (pos + 4 <= blen keys)) as [H4|H4].
  2: { rewrite (uint32FromBytes_outside keys pos) by lia. reflexivity. }
  rewrite (uint32FromBytes_inside keys pos) by lia. cbn [mbind res_bind].
  set (kLen := le_value (take 4 (drop (Z.to_nat pos) keys))) in *.
  assert (Hk : 0 <= kLen < 2 ^ 32).
  { unfold kLen. pose proof (le_value_range
      (take 4 (drop (Z.to_nat pos) keys))) as Hr.
    assert (blen (take 4 (drop (Z.to_nat pos) keys)) <= 4)
      by (unfold blen; rewrite length_take; lia).
    assert (256 ^ blen (take 4 (drop (Z.to_nat pos) keys)) <= 256 ^ 4)
      by (apply Z.pow_le_mono_r; [lia|];
          pose proof (blen_nonneg (take 4 (drop (Z.to_nat pos) keys))); lia).
    lia. }
  destruct (uint32FromBytes_faults keys (pos + 4)) as [->|[vLen ->]];
    [reflexivity|]. cbn [mbind res_bind].
  destruct (uint64FromBytes_faults keys (pos + 8)) as [->|[vPos [-> H15]]];
    [reflexivity|]. cbn [mbind res_bind].
  rewrite (Hu (pos + 8 + 7)) in H15 by lia.
  rewrite (Hu kLen), (Hu (pos + 16 + kLen)) by lia.
  unfold subslice. rewrite decide_False; [reflexivity|]. simpl. lia.
Qed.

(** [populateKeys] walks over a run of entries, wherever it ends. *)
Lemma populateLoop_run s ord :
  Forall entry_ok ord ->
  forall fuel m pos,
    region s pos (concat (keyFrame <$> ord)) -> len s < 2 ^ 64 ->
    populateLoop (List.length ord + fuel) s m pos
    = populateLoop fuel s (foldl (fun m e => <[e.1 := e.2]> m) m ord)
                   (pos + blen (concat (keyFrame <$> ord))).
Proof.
  induction 1 as [|[k oal] ord [Hoal Hk] _ IH]; intros fuel m pos Hr Hlt.
  - change (blen (concat (keyFrame <$> []))) with 0.
    by rewrite Z.add_0_r.
  - pose proof Hr as (Hpos & Hle & _).
    rewrite blen_keyFrames_cons in *. simpl fst in *. simpl in Hk.
    pose proof (slen_nonneg k).
    pose proof (blen_nonneg (concat (keyFrame <$> ord))).
    rewrite fmap_cons in Hr. cbn [concat] in Hr.
    apply region_app in Hr as [Hf Hrest]. rewrite blen_keyFrame in Hrest.
    assert (Hu : u64 (len s) = len s) by (apply Z.mod_small; lia).
    cbn [List.length Nat.add populateLoop]. rewrite Hu.
    rewrite decide_True by lia.
    rewrite (populateStep_frame s m pos k oal Hf Hoal Hk) by lia.
    cbn [foldl]. rewrite IH; [|
      replace (pos + 16 + slen k) with (pos + (16 + slen k)) by lia;
      exact Hrest | lia].
    f_equal. lia.
Qed.

(** X20: a key snapshot that ends in the middle of an entry makes
    [populateKeys], and so [OpenDB], panic: after any run of whole
    entries, an entry with fewer bytes left than its 16-byte header and
    the key length it announces is read out of range. *)
Theorem populateKeys_truncated l tail :
  Forall entry_ok l -> tail <> [] ->
  blen tail < 16 + le_value (take 4 tail) ->
  blen (concat (keyFrame <$> l) ++ tail) < 2 ^ 63 ->
  populateKeys (concat (keyFrame <$> l) ++ tail) = Some (Crash Panic).
Proof.
  intros Hok Hne Htr Hlt.
  set (good := concat (keyFrame <$> l)) in *.
  set (keys := good ++ tail) in *.
  pose proof (length_keyFrames l) as Hn. fold good in Hn.
  pose proof (blen_nonneg good).
  assert (Ht : 0 < blen tail).
  { destruct tail; [done|]. rewrite blen_cons.
    pose proof (blen_nonneg tail). lia. }
  assert (Hkeys : blen keys = blen good + blen tail)
    by (unfold keys; apply blen_app).
  unfold populateKeys.
  assert (E : i64 (blen keys) = blen keys).
  { unfold i64. rewrite Z.mod_small by lia. lia. }
  rewrite E. unfold Mmap. rewrite decide_False by lia.
  assert (Hfuel : exists fuel,
             S (List.length keys) = (List.length l + S fuel)%nat).
  { exists (List.length keys - List.length l)%nat. unfold blen in *. lia. }
  destruct Hfuel as [fuel ->].
  rewrite (populateLoop_run _ l Hok); [| |simpl; lia].
  - fold good. rewrite Z.add_0_l. cbn [populateLoop].
    assert (Hu : u64 (len (mmapOf keys (blen keys))) = blen keys)
      by (simpl; apply Z.mod_small; lia).
    rewrite Hu, decide_True by lia.
    rewrite populateStep_truncated; [done | lia | done |].
    unfold keys at 2. replace (Z.to_nat (blen good)) with (List.length good)
      by (unfold blen; lia).
    rewrite drop_app_length. lia.
  - apply (region_mmapOf [] good tail (blen keys)). simpl. fold keys. lia.
Qed.

Lemma populateKeys_truncated_witness :
  populateKeys (concat (keyFrame <$> [("Tom"%string, OAL 62 8)])
                ++ take 17 (keyFrame ("Dick"%string, OAL 41 6)))
  = Some (Crash Panic).
Proof.
  apply (populateKeys_truncated [("Tom"%string, OAL 62 8)]
           (take 17 (keyFrame ("Dick"%string, OAL 41 6)))).
  - repeat constructor; vm_compute; try reflexivity; discriminate.
  - discriminate.
  - vm_compute. reflexivity.
  - vm_compute. reflexivity.
Defined.

End Snapshot.

(** ** Enumeration *)

Section Enumeration.

Lemma bind_readOAL {A} d oal (F : bytes -> res A) :
  (s ← getValAtOAL d oal; bs ← readAll s; F bs)
  = (bs ← readOAL d oal; F bs).
Proof. unfold readOAL. by destruct (getValAtOAL d oal). Qed.

Lemma Keys_fst ord : Keys ord = ord.*1.
Proof.
  unfold Keys.
  assert (H : forall out, foldl (fun out e => out ++ [e.1]) out ord
                          = out ++ ord.*1).
  { induction ord as [|e ord IH]; intros out; simpl.
    - by rewrite app_nil_r.
    - rewrite IH, <- app_assoc. done. }
  apply H.
Qed.

(** X21: [Keys] lists every key of the index exactly once: it has [Size]
    elements, no duplicates, and a key is in it exactly when [Contains]
    says so. *)
Theorem Keys_enumerates d ord :
  iteration d ord ->
  Z.of_nat (List.length (Keys ord)) = Size d /\
  NoDup (Keys ord) /\
  forall k, string_of_list_byte k ∈ Keys ord <-> Contains k d = true.
Proof.
  unfold iteration. intros Hit. rewrite Keys_fst. split_and!.
  - unfold Size. rewrite length_fmap, Hit, length_map_to_list. done.
  - rewrite Hit. apply NoDup_fst_map_to_list.
  - intros k. unfold Contains. rewrite bool_decide_eq_true, Hit.
    rewrite list_elem_of_fmap. split.
    + intros ([k' oal] & -> & Hin). apply elem_of_map_to_list in Hin. eauto.
    + intros [oal Ho]. exists (string_of_list_byte k, oal).
      split; [done|]. by apply elem_of_map_to_list.
Qed.

Lemma Keys_enumerates_witness :
  Z.of_nat (List.length (Keys (map_to_list (kToPos tomDick))))
  = Size tomDick /\
  NoDup (Keys (map_to_list (kToPos tomDick))) /\
  forall k, string_of_list_byte k ∈ Keys (map_to_list (kToPos tomDick))
            <-> Contains k tomDick = true.
Proof.
  apply (Keys_enumerates tomDick). unfold iteration. reflexivity.
Defined.

Lemma entry_Get d ord k oal v :
  iteration d ord -> (k, oal) ∈ ord -> readOAL d oal = Ok v ->
  Get (list_byte_of_string k) d = Ok (string_of_list_byte v, true).
Proof.
  unfold iteration. intros Hit Hin Hv. rewrite Hit in Hin.
  apply elem_of_map_to_list in Hin.
  rewrite Get_readOAL, string_of_list_byte_of_string, Hin, Hv. done.
Qed.

Lemma Forall2_entry_Get d ord ord' (vs : list string) :
  iteration d ord -> (forall e, e ∈ ord' -> e ∈ ord) ->
  Forall2 (fun e s => exists v, readOAL d e.2 = Ok v
                                /\ s = string_of_list_byte v) ord' vs ->
  Forall2 (fun e s => Get (list_byte_of_string e.1) d = Ok (s, true))
          ord' vs.
Proof.
  intros Hit Hsub Hvs.
  induction Hvs as [|[k oal] s ord' vs' (v & Hv & ->) _ IH];
    [constructor|].
  constructor.
  - simpl. eapply entry_Get; [exact Hit | | exact Hv].
    apply Hsub, list_elem_of_here.
  - apply IH. intros e He. by apply Hsub, list_elem_of_further.
Qed.

Lemma valsLoop_spec d ord :
  Forall (fun e => exists v, readOAL d e.2 = Ok v) ord ->
  forall out, exists vs,
    valsLoop d ord out = Ok (out ++ vs) /\
    Forall2 (fun e s => exists v, readOAL d e.2 = Ok v
                                  /\ s = string_of_list_byte v) ord vs.
Proof.
  induction 1 as [|[k oal] ord [v Hv] _ IH]; intros out.
  - exists []. split; [by rewrite app_nil_r | constructor].
  - cbn [valsLoop]. rewrite bind_readOAL. simpl in Hv. rewrite Hv.
    cbn [mbind res_bind].
    destruct (IH (out ++ [string_of_list_byte v])) as (vs & E & Hvs).
    exists (string_of_list_byte v :: vs). split.
    + rewrite E, <- app_assoc. done.
    + constructor; [eauto | done].
Qed.

(** X22: [Vals] on a readable handle returns one value per entry of the
    index, in the order of the iteration: the value [Get] returns for
    the key of that entry. *)
Theorem Vals_are_the_values d ord :
  readable d -> iteration d ord ->
  exists vs,
    Vals ord d = Ok vs /\
    Z.of_nat (List.length vs) = Size d /\
    Forall2 (fun e s => Get (list_byte_of_string e.1) d = Ok (s, true))
            ord vs.
Proof.
  intros Hr Hit. destruct (readable_order _ _ Hr Hit) as [_ Hrd].
  destruct (valsLoop_spec d ord Hrd []) as (vs & E & Hvs).
  exists vs. split; [exact E|]. split.
  - rewrite <- (Forall2_length _ _ _ Hvs). unfold Size, iteration in *.
    by rewrite Hit, length_map_to_list.
  - by apply (Forall2_entry_Get d ord ord vs Hit).
Qed.

Lemma Vals_are_the_values_witness :
  exists vs,
    Vals (map_to_list (kToPos tomDick)) tomDick = Ok vs /\
    Z.of_nat (List.length vs) = Size tomDick /\
    Forall2 (fun e s => Get (list_byte_of_string e.1) tomDick = Ok (s, true))
            (map_to_list (kToPos tomDick)) vs.
Proof.
  apply (Vals_are_the_values tomDick).
  - exact tomDick_readable.
  - unfold iteration. reflexivity.
Defined.

Lemma dumpLoop_spec d ord :
  Forall (fun e => exists v, readOAL d e.2 = Ok v) ord ->
  forall out, exists out',
    dumpLoop d ord out = Ok out' /\
    (forall k, out' !! k = None <-> out !! k = None /\ k ∉ ord.*1) /\
    (forall k s, out' !! k = Some s ->
       out !! k = Some s \/
       exists oal v, (k, oal) ∈ ord /\ readOAL d oal = Ok v /\
                     s = string_of_list_byte v).
Proof.
  induction 1 as [|[k0 oal0] ord [v0 Hv0] _ IH]; intros out.
  - exists out. split; [done|]. split.
    + intros k. split; [intros ?; split; [done | apply not_elem_of_nil]|].
      by intros [? _].
    + intros k s Hk. by left.
  - cbn [dumpLoop]. rewrite bind_readOAL. simpl in Hv0. rewrite Hv0.
    cbn [mbind res_bind].
    destruct (IH (<[k0 := string_of_list_byte v0]> out))
      as (out' & E & Hnone & Hsome).
    exists out'. split; [exact E|]. split.
    + intros k. rewrite Hnone, fmap_cons, not_elem_of_cons. simpl.
      rewrite lookup_insert_None. intuition congruence.
    + intros k s Hk. apply Hsome in Hk as [Hk|Hk].
      * apply lookup_insert_Some in Hk as [[<- <-]|[_ Hk]]; [|by left].
        right. exists oal0, v0. split_and!; [apply list_elem_of_here|done..].
      * right. destruct Hk as (oal & v & Hin & Hr & Hs).
        exists oal, v. split_and!; [by apply list_elem_of_further|done..].
Qed.

(** X23: [Dump] agrees with [Get].  On a readable handle [Dump] returns
    a map in which a key is present exactly when [Get] reports it
    present, with the value [Get] returns. *)
Theorem Dump_agrees_with_Get d ord :
  readable d -> iteration d ord ->
  exists out,
    Dump ord d = Ok out /\
    forall k,
      Get k d = match out !! string_of_list_byte k with
                | Some s => Ok (s, true)
                | None => Ok (EmptyString, false)
                end.
Proof.
  intros Hr Hit. destruct (readable_order _ _ Hr Hit) as [_ Hrd].
  destruct (dumpLoop_spec d ord Hrd ∅) as (out & E & Hnone & Hsome).
  exists out. split; [exact E|]. intros k. rewrite Get_readOAL.
  unfold iteration in Hit.
  destruct (out !! string_of_list_byte k) as [s|] eqn:Eo.
  - apply Hsome in Eo as [Eo|(oal & v & Hin & Hv & ->)].
    + by rewrite lookup_empty in Eo.
    + rewrite Hit in Hin. apply elem_of_map_to_list in Hin.
      by rewrite Hin, Hv.
  - apply Hnone in Eo as [_ Eo].
    destruct (kToPos d !! string_of_list_byte k) as [oal|] eqn:Ek; [|done].
    exfalso. apply Eo. apply list_elem_of_fmap.
    exists (string_of_list_byte k, oal). split; [done|].
    rewrite Hit. by apply elem_of_map_to_list.
Qed.

Lemma Dump_agrees_with_Get_witness :
  exists out,
    Dump (map_to_list (kToPos tomDick)) tomDick = Ok out /\
    forall k,
      Get k tomDick = match out !! string_of_list_byte k with
                      | Some s => Ok (s, true)
                      | None => Ok (EmptyString, false)
                      end.
Proof.
  apply (Dump_agrees_with_Get tomDick).
  - exact tomDick_readable.
  - unfold iteration. reflexivity.
Defined.

Lemma keysAndValsLoop_spec d ord :
  Forall (fun e => exists v, readOAL d e.2 = Ok v) ord ->
  forall out, exists kvs,
    keysAndValsLoop d ord out = Ok (out ++ kvs) /\
    Forall2 (fun e p => p.1 = e.1 /\
                        exists v, readOAL d e.2 = Ok v
                                  /\ p.2 = string_of_list_byte v) ord kvs.
Proof.
  induction 1 as [|[k oal] ord [v Hv] _ IH]; intros out.
  - exists []. split; [by rewrite app_nil_r | constructor].
  - cbn [keysAndValsLoop]. rewrite bind_readOAL. simpl in Hv. rewrite Hv.
    cbn [mbind res_bind].
    destruct (IH (out ++ [(k, string_of_list_byte v)])) as (kvs & E & Hkvs).
    exists ((k, string_of_list_byte v) :: kvs). split.
    + rewrite E, <- app_assoc. done.
    + constructor; [|done]. split; [done|]. eauto.
Qed.

Lemma Forall2_pair_Get d ord ord' (kvs : list (string * string)) :
  iteration d ord -> (forall e, e ∈ ord' -> e ∈ ord) ->
  Forall2 (fun e p => p.1 = e.1 /\
                      exists v, readOAL d e.2 = Ok v
                                /\ p.2 = string_of_list_byte v) ord' kvs ->
  Forall2 (fun e p => p.1 = e.1 /\
                      Get (list_byte_of_string e.1) d = Ok (p.2, true))
          ord' kvs.
Proof.
  intros Hit Hsub Hvs.
  induction Hvs as [|[k oal] [k' s] ord' kvs' (Hk & v & Hv & Hs) _ IH];
    [constructor|].
  simpl in Hk, Hs. subst k' s. constructor.
  - split; [done|]. simpl. eapply entry_Get; [exact Hit | | exact Hv].
    apply Hsub, list_elem_of_here.
  - apply IH. intros e He. by apply Hsub, list_elem_of_further.
Qed.

(** X24: [KeysAndVals] returns twice as many pairs as the index has
    keys: the slice it appends to already has [Size] elements, so the
    first [Size] pairs are pairs of empty strings, and the pairs of the
    index, each key with the value [Get] returns for it, come after
    them. *)
Theorem KeysAndVals_has_empty_prefix d ord :
  readable d -> iteration d ord ->
  exists kvs,
    KeysAndVals ord d
    = Ok (replicate (size (kToPos d)) (EmptyString, EmptyString) ++ kvs) /\
    Z.of_nat (List.length
                (replicate (size (kToPos d)) (EmptyString, EmptyString)
                 ++ kvs)) = 2 * Size d /\
    Forall2 (fun e p => p.1 = e.1 /\
                        Get (list_byte_of_string e.1) d = Ok (p.2, true))
            ord kvs.
Proof.
  intros Hr Hit. destruct (readable_order _ _ Hr Hit) as [_ Hrd].
  destruct (keysAndValsLoop_spec d ord Hrd
              (replicate (size (kToPos d)) (EmptyString, EmptyString)))
    as (kvs & E & Hkvs).
  exists kvs. split; [exact E|]. split.
  - rewrite length_app, length_replicate, <- (Forall2_length _ _ _ Hkvs).
    unfold Size, iteration in *. rewrite Hit, length_map_to_list. lia.
  - by apply (Forall2_pair_Get d ord ord kvs Hit).
Qed.

Lemma KeysAndVals_has_empty_prefix_witness :
  exists kvs,
    KeysAndVals (map_to_list (kToPos tomDick)) tomDick
    = Ok (replicate (size (kToPos tomDick)) (EmptyString, EmptyString)
          ++ kvs) /\
    Z.of_nat (List.length
                (replicate (size (kToPos tomDick)) (EmptyString, EmptyString)
                 ++ kvs)) = 2 * Size tomDick /\
    Forall2 (fun e p => p.1 = e.1 /\
                        Get (list_byte_of_string e.1) tomDick
                        = Ok (p.2, true))
            (map_to_list (kToPos tomDick)) kvs.
Proof.
  apply (KeysAndVals_has_empty_prefix tomDick).
  - exact tomDick_readable.
  - unfold iteration. reflexivity.
Defined.

End Enumeration.

(** ** The scans come to an end *)

Section Termination.

Lemma uint32FromBytes_range s i z :
  uint32FromBytes s i = Ok z -> 0 <= z < 2 ^ 32.
Proof.
  unfold uint32FromBytes.
  destruct (rd s i) as [b0| |]; cbn [mbind res_bind]; try done.
  destruct (rd s (u64 (i + 1))) as [b1| |]; cbn [mbind res_bind]; try done.
  destruct (rd s (u64 (i + 2))) as [b2| |]; cbn [mbind res_bind]; try done.
  destruct (rd s (u64 (i + 3))) as [b3| |]; cbn [mbind res_bind]; try done.
  intros [= <-]. rewrite lor32_le_value.
  pose proof (le_value_range [b0; b1; b2; b3]) as H.
  change (256 ^ blen [b0; b1; b2; b3]) with (2 ^ 32) in H. exact H.
Qed.

(** A turn of the verifying scan that accepts a record moves on by at
    least the 12 bytes of a header. *)
Lemma verifyStep_advances s m pos m' pos' :
  0 <= pos < 2 ^ 63 ->
  verifyStep s m pos = Ok (Some (m', pos')) ->
  pos + 12 <= pos' < 2 ^ 64.
Proof.
  intros Hpos H. unfold verifyStep in H.
  destruct (uint32FromBytes s (u64 (pos + 4))) as [kLen| |] eqn:Ek;
    cbn [mbind res_bind] in H; [|discriminate H..].
  destruct (uint32FromBytes s (u64 (pos + 8))) as [vLen| |] eqn:Ev;
    cbn [mbind res_bind] in H; [|discriminate H..].
  apply uint32FromBytes_range in Ek, Ev.
  destruct (subslice s (u64 (pos + 12)) (u64 (pos + 12 + u64 kLen)))
    as [k| |]; cbn [mbind res_bind] in H; [|discriminate H..].
  destruct (subslice s pos (u64 (pos + 12 + u64 kLen + u64 vLen)))
    as [doc| |]; cbn [mbind res_bind] in H; [|discriminate H..].
  destruct (checkDocument doc) as [[|]| |]; cbn [mbind res_bind] in H;
    [|discriminate H..].
  destruct (readAll k) as [ks| |]; cbn [mbind res_bind] in H;
    [|discriminate H..].
  assert (Hp : pos' = u64 (pos + u64 (12 + u64 kLen + u64 vLen)))
    by congruence.
  rewrite Hp. unfold u64.
  rewrite (Z.mod_small kLen), (Z.mod_small vLen) by lia.
  rewrite (Z.mod_small (12 + kLen + vLen)) by lia.
  rewrite Z.mod_small by lia. lia.
Qed.

Lemma verifyLoop_terminates s fLen :
  fLen < 2 ^ 63 ->
  forall fuel m pos,
    0 <= pos -> fLen - pos < Z.of_nat fuel ->
    verifyLoop fuel s fLen m pos <> None.
Proof.
  intros Hf. induction fuel as [|fuel IH]; intros m pos Hpos Hfuel.
  - cbn [verifyLoop]. rewrite decide_False by lia. done.
  - cbn [verifyLoop]. case_decide as Hlt; [|done].
    destruct (verifyStep s m pos) as [[[m' pos']|]| |] eqn:E; try done.
    apply verifyStep_advances in E; [|lia].
    apply IH; lia.
Qed.

(** X25: the verifying scan terminates.  For every data file shorter
    than 2^63 bytes, whatever it holds, [OpenAndVerifyDB] comes to an
    end: each turn of its loop either stops or moves the position
    forward by at least 12 bytes. *)
Theorem OpenAndVerifyDB_terminates loc (fs : FS) :
  blen (readFile fs loc) < 2 ^ 63 ->
  exists r, OpenAndVerifyDB loc fs = Some r.
Proof.
  intros Hf. pose proof (blen_nonneg (readFile fs loc)).
  unfold OpenAndVerifyDB.
  destruct (makeFilebuf (readFile fs loc)) as [mmap| |]; [|eauto..].
  assert (Hu : u64 (blen (readFile fs loc)) = blen (readFile fs loc))
    by (apply Z.mod_small; lia).
  rewrite Hu.
  pose proof (verifyLoop_terminates (mmapOf (readFile fs loc) mmap)
                (blen (readFile fs loc)) Hf
                (S (List.length (readFile fs loc))) ∅ 0 ltac:(lia)) as Ht.
  assert (Hfuel : blen (readFile fs loc) - 0
                  < Z.of_nat (S (List.length (readFile fs loc))))
    by (unfold blen; lia).
  specialize (Ht Hfuel).
  destruct (verifyLoop (S (List.length (readFile fs loc)))
              (mmapOf (readFile fs loc) mmap) (blen (readFile fs loc)) ∅ 0)
    as [r|]; [|done].
  destruct r as [[[m pos] e]| |]; eauto.
Qed.

Lemma OpenAndVerifyDB_terminates_witness :
  exists r, OpenAndVerifyDB "db" {[ "db"%string := cutTail ]} = Some r.
Proof.
  apply OpenAndVerifyDB_terminates. vm_compute. reflexivity.
Defined.

Lemma populateStep_advances s m pos m' pos' :
  0 <= pos < 2 ^ 63 ->
  populateStep s m pos = Ok (m', pos') ->
  pos + 16 <= pos' < 2 ^ 64.
Proof.
  intros Hpos H. unfold populateStep in H.
  destruct (uint32FromBytes s pos) as [kLen| |] eqn:Ek;
    cbn [mbind res_bind] in H; [|discriminate H..].
  destruct (uint32FromBytes s (u64 (pos + 4))) as [vLen| |];
    cbn [mbind res_bind] in H; [|discriminate H..].
  destruct (uint64FromBytes s (u64 (pos + 8))) as [vPos| |];
    cbn [mbind res_bind] in H; [|discriminate H..].
  apply uint32FromBytes_range in Ek.
  destruct (subslice s (u64 (pos + 16)) (u64 (pos + 16 + u64 kLen)))
    as [k| |]; cbn [mbind res_bind] in H; [|discriminate H..].
  destruct (readAll k) as [ks| |]; cbn [mbind res_bind] in H;
    [|discriminate H..].
  assert (Hp : pos' = u64 (pos + 16 + u64 kLen)) by congruence.
  rewrite Hp. unfold u64. rewrite (Z.mod_small kLen) by lia.
  rewrite Z.mod_small by lia. lia.
Qed.

Lemma populateLoop_terminates s :
  0 <= len s < 2 ^ 63 ->
  forall fuel m pos,
    0 <= pos -> len s - pos < Z.of_nat fuel ->
    populateLoop fuel s m pos <> None.
Proof.
  intros Hs.
  assert (Hu : u64 (len s) = len s) by (apply Z.mod_small; lia).
  induction fuel as [|fuel IH]; intros m pos Hpos Hfuel.
  - cbn [populateLoop]. rewrite Hu, decide_False by lia. done.
  - cbn [populateLoop]. rewrite Hu. case_decide as Hlt; [|done].
    destruct (populateStep s m pos) as [[m' pos']| |] eqn:E; try done.
    apply populateStep_advances in E; [|lia].
    apply IH; lia.
Qed.

(** X26: reading the key snapshot terminates.  For every data file
    shorter than 2^62 bytes and key file shorter than 2^63 bytes,
    whatever they hold, [OpenDB] comes to an end: each turn of the loop
    of [populateKeys] either stops or moves forward by at least the 16
    bytes of an entry header. *)
Theorem OpenDB_terminates loc (fs : FS) :
  blen (readFile fs loc) < 2 ^ 62 ->
  blen (readFile fs (keysPath loc)) < 2 ^ 63 ->
  exists r, OpenDB loc fs = Some r.
Proof.
  intros Hf Hk. set (keys := readFile fs (keysPath loc)) in *.
  pose proof (blen_nonneg keys).
  unfold OpenDB. fold keys.
  destruct (makeFilebuf (readFile fs loc)) as [mmap| |]; [|eauto..].
  assert (Hp : exists r, populateKeys keys = Some r).
  { unfold populateKeys.
    assert (E : i64 (blen keys) = blen keys).
    { unfold i64. rewrite Z.mod_small by lia. lia. }
    rewrite E. unfold Mmap. case_decide; [eauto|].
    pose proof (populateLoop_terminates (mmapOf keys (blen keys))
                  ltac:(simpl; lia) (S (List.length keys)) ∅ 0
                  ltac:(lia)) as Ht.
    assert (Hfuel : len (mmapOf keys (blen keys)) - 0
                    < Z.of_nat (S (List.length keys)))
      by (simpl; unfold blen; lia).
    specialize (Ht Hfuel).
    destruct (populateLoop (S (List.length keys)) (mmapOf keys (blen keys))
                ∅ 0) as [r|]; [eauto | done]. }
  destruct Hp as [[m|e|c] ->]; eauto.
Qed.

Lemma OpenDB_terminates_witness :
  exists r, OpenDB "db" {[ "db"%string := cutTail;
                           keysPath "db" := cutZero ]} = Some r.
Proof.
  apply OpenDB_terminates; vm_compute; reflexivity.
Defined.

End Termination.

(** ** The write position, and instances of the lemmas above *)

Section WritePosition.

(** X27: [Upsert] keeps the write position at the end of the file: on a
    handle whose write position is the length of its file, it returns,
    the file has grown by the 12 + |k| + |v| bytes of the record and the
    write position is again the length of the file. *)
Theorem Upsert_keeps_write_position k v d :
  filledSize d = blen (filehandle d) ->
  blen (filehandle d) + 12 + blen k + blen v < 2 ^ 64 ->
  exists d',
    Upsert Written k v d = Ok d' /\
    filehandle d' = filehandle d ++ frame k v /\
    blen (filehandle d') = blen (filehandle d) + 12 + blen k + blen v /\
    filledSize d' = blen (filehandle d').
Proof.
  intros Hf Hlt. rewrite Upsert_spec. eexists. split; [reflexivity|].
  cbn [filehandle filledSize fileWrite].
  pose proof (blen_nonneg (filehandle d)).
  pose proof (blen_nonneg k). pose proof (blen_nonneg v).
  rewrite blen_app, blen_frame. split_and!; [done | lia |].
  rewrite Hf. unfold u64. rewrite (Z.mod_small (12 + _ + _)) by lia.
  rewrite Z.mod_small by lia. lia.
Qed.

Lemma Upsert_keeps_write_position_witness :
  exists d',
    Upsert Written (str "Harry") (str "Wisconsin") tomDick = Ok d' /\
    filehandle d' = filehandle tomDick
                    ++ frame (str "Harry") (str "Wisconsin") /\
    blen (filehandle d') = blen (filehandle tomDick) + 12 + 5 + 9 /\
    filledSize d' = blen (filehandle d').
Proof.
  apply (Upsert_keeps_write_position (str "Harry") (str "Wisconsin") tomDick).
  - vm_compute. reflexivity.
  - vm_compute. reflexivity.
Defined.

Lemma Get_after_Upsert_witness :
  exists d',
    Upsert Written (str "Tom") (str "Oregon") tomDick = Ok d' /\
    Get (str "Tom") d' = Ok ("Oregon"%string, true).
Proof.
  apply (Get_after_Upsert (str "Tom") (str "Oregon") tomDick).
  - vm_compute. reflexivity.
  - vm_compute. reflexivity.
  - vm_compute. discriminate.
  - vm_compute. reflexivity.
Defined.

Lemma OpenAndVerifyDB_corrupt_witness :
  exists mmap,
    OpenAndVerifyDB "db"
      {[ "db"%string :=
           encode [(str "Tom", str "Washington")]
           ++ (le32 0 ++ frame_body (str "Dick") (str "Oregon")) ++ [] ]}
    = Some (Ok (mkDB (replay [(str "Tom", str "Washington")] ∅ 0).1 "db"
                     (blen (encode [(str "Tom", str "Washington")]))
                     (encode [(str "Tom", str "Washington")]
                      ++ (le32 0 ++ frame_body (str "Dick") (str "Oregon"))
                      ++ [])
                     mmap,
                Some (Corruption
                        (blen (encode [(str "Tom", str "Washington")]))))).
Proof.
  apply (OpenAndVerifyDB_corrupt "db" _ [(str "Tom", str "Washington")] 0
           (str "Dick") (str "Oregon") []).
  - repeat constructor; vm_compute; reflexivity.
  - split; vm_compute; reflexivity.
  - lia.
  - vm_compute. discriminate.
  - apply lookup_singleton_eq.
  - vm_compute. reflexivity.
Defined.

End WritePosition.
